(** * psd-run: visibility resolution and interaction runtime

    A shallow embedding of the TypeScript stores of psd-run
    (psd-store, interaction-store, chat-store) and the properties of
    their visibility resolver, interaction state machine, screen timers
    and configuration parser.

    Conventions of the embedding:
    - a JS [number] that carries a layer id, a timer handle or a delay is
      an integer ([Z] or [nat]); on that range the IEEE-754 operations the
      code performs (comparison, multiplication by 1000) are exact;
    - a JS [string] is a [string] of 8-bit characters standing for the
      code units U+0000..U+00FF;
    - a JS [Map] is a [gmap], a [Set] a [gset]; an optional field is an
      [option]; [null]/[undefined] results are [None];
    - a field of the stores holds a value of its declared type; where a
      plain object is indexed by a name, the members it inherits from
      [Object.prototype] are kept apart from its own properties
      ([Interaction.destinationFor]). *)

From Stdlib Require Import ZArith Ascii String List Lia.
From stdpp Require Import gmap strings list fin_maps pretty.

Local Open Scope Z_scope.
Local Open Scope string_scope.

(** ** psd-store: layers and effective visibility *)

Module PsdStore.

(** [LayerType] of lib/types. *)
Inductive LayerType := layer | group | groupEnd.

Global Instance LayerType_eq_dec : EqDecision LayerType.
Proof. solve_decision. Defined.

(** [LayerInfo] of lib/types (the fields the stores read). *)
Record LayerInfo := mkLayer {
  id : Z;
  name : string;
  x : Z;
  y : Z;
  width : Z;
  height : Z;
  visible : bool;
  type : LayerType;
}.

(** [layers.findIndex(l => l.id === layerId)]; [None] stands for -1. *)
Definition findIndex (layerId : Z) (layers : list LayerInfo) : option nat :=
  fst <$> list_find (λ l, id l = layerId) layers.

(** [layers.find(l => l.id === layerId)]. *)
Definition find (layerId : Z) (layers : list LayerInfo) : option LayerInfo :=
  snd <$> list_find (λ l, id l = layerId) layers.

(** The loop of [getAncestorGroupIds]: [i] is one more than the loop
    variable, [depth] and [ancestors] are the loop's two variables.
    [for (let i = layerIndex - 1; i >= 0; i--)]. *)
Fixpoint ancestorScan (layers : list LayerInfo) (i : nat) (depth : nat)
    (ancestors : list Z) : list Z :=
  match i with
  | O => ancestors
  | S i' =>
    match layers !! i' with
    | None => ancestorScan layers i' depth ancestors
    | Some l =>
      match type l with
      | groupEnd => ancestorScan layers i' (S depth) ancestors
      | group =>
        match depth with
        | O => ancestorScan layers i' O (ancestors ++ [id l])%list
        | S d => ancestorScan layers i' d ancestors
        end
      | layer => ancestorScan layers i' depth ancestors
      end
    end
  end.

Definition getAncestorGroupIds (layers : list LayerInfo) (layerIndex : nat) : list Z :=
  ancestorScan layers layerIndex O [].

(** [overrides.has(id) ? overrides.get(id)! : l.visible]. *)
Definition overrideOr (overrides : gmap Z bool) (layerId : Z) (authored : bool) : bool :=
  match overrides !! layerId with
  | Some b => b
  | None => authored
  end.

(** The [for (const ancestorId of ancestorIds)] loop of
    [computeEffectiveVisibility]. *)
Fixpoint ancestorsVisible (layers : list LayerInfo) (overrides : gmap Z bool)
    (ancestorIds : list Z) : bool :=
  match ancestorIds with
  | [] => true
  | ancestorId :: rest =>
    match find ancestorId layers with
    | None => ancestorsVisible layers overrides rest
    | Some ancestor =>
      let ancestorVisible := overrideOr overrides ancestorId (visible ancestor) in
      if negb ancestorVisible then false
      else ancestorsVisible layers overrides rest
    end
  end.

Definition computeEffectiveVisibility (layers : list LayerInfo) (layerId : Z)
    (overrides : gmap Z bool) : bool :=
  match findIndex layerId layers with
  | None => false
  | Some layerIndex =>
    match layers !! layerIndex with
    | None => false
    | Some l =>
      let ownVisible := overrideOr overrides layerId (visible l) in
      if negb ownVisible then false
      else
        let ancestorIds := getAncestorGroupIds layers layerIndex in
        ancestorsVisible layers overrides ancestorIds
    end
  end.

(** The hidden/shown lists that [toggleLayerVisibility],
    [setMultipleVisibility] and [recomposite] compute before rendering. *)
Fixpoint visibilityLists (all ls : list LayerInfo) (overrides : gmap Z bool)
    : list Z * list Z :=
  match ls with
  | [] => ([], [])
  | l :: rest =>
    let '(hiddenLayerIds, shownLayerIds) := visibilityLists all rest overrides in
    match type l with
    | groupEnd => (hiddenLayerIds, shownLayerIds)
    | _ =>
      let effectiveVisible := computeEffectiveVisibility all (id l) overrides in
      if effectiveVisible && negb (visible l) then (hiddenLayerIds, id l :: shownLayerIds)
      else if negb effectiveVisible && visible l then (id l :: hiddenLayerIds, shownLayerIds)
      else (hiddenLayerIds, shownLayerIds)
    end
  end.

(** *** [computeGroupBounds] *)

(** The running bounds [minX, minY, maxX, maxY] of the inner loop. The
    four are set together, to finite numbers: [None] stands for their
    initial values [Infinity, Infinity, -Infinity, -Infinity]. *)
Definition Bounds : Type := Z * Z * Z * Z.

(** [l.width > 0 && l.height > 0]. *)
Definition hasArea (l : LayerInfo) : bool :=
  (0 <? width l)%Z && (0 <? height l)%Z.

(** The four [Math.min] / [Math.max] updates. *)
Definition extendBounds (b : option Bounds) (child : LayerInfo) : Bounds :=
  match b with
  | None => (x child, y child, x child + width child, y child + height child)
  | Some (minX, minY, maxX, maxY) =>
    (Z.min minX (x child), Z.min minY (y child),
     Z.max maxX (x child + width child), Z.max maxY (y child + height child))
  end.

(** The inner loop [for (let j = i + 1; j < layers.length; j++)], on the
    layers from index [j] on. *)
Fixpoint boundsScan (children : list LayerInfo) (depth : nat) (b : option Bounds)
    : option Bounds :=
  match children with
  | [] => b
  | child :: rest =>
    match type child with
    | groupEnd =>
      match depth with
      | O => b
      | S d => boundsScan rest d b
      end
    | t =>
      boundsScan rest
        (match t with group => S depth | _ => depth end)
        (if hasArea child then Some (extendBounds b child) else b)
    end
  end.

(** The assignments to [layer.x], [layer.y], [layer.width], [layer.height]. *)
Definition withRect (l : LayerInfo) (x' y' width' height' : Z) : LayerInfo :=
  {| id := id l; name := name l; x := x'; y := y'; width := width';
     height := height'; visible := visible l; type := type l |}.

(** One iteration of the outer loop, on the array as the earlier
    iterations have left it. *)
Definition boundGroup (layers : list LayerInfo) (i : nat) : list LayerInfo :=
  match layers !! i with
  | None => layers
  | Some g =>
    if negb (bool_decide (type g = group)) then layers
    else if hasArea g then layers
    else
      match boundsScan (drop (S i) layers) O None with
      | Some (minX, minY, maxX, maxY) =>
        <[i := withRect g minX minY (maxX - minX) (maxY - minY)]> layers
      | None => layers
      end
  end.

(** [computeGroupBounds]: the array after the loop. *)
Definition computeGroupBounds (layers : list LayerInfo) : list LayerInfo :=
  foldl boundGroup layers (seq 0 (length layers)).

(** *** Specification vocabulary *)

(** The layer [l] once [computeGroupBounds] is done with it, [later]
    being the layers that follow it in the sequence it was given. *)
Definition boundedLayer (l : LayerInfo) (later : list LayerInfo) : LayerInfo :=
  if bool_decide (type l = group) && negb (hasArea l) then
    match boundsScan later O None with
    | Some (minX, minY, maxX, maxY) =>
      withRect l minX minY (maxX - minX) (maxY - minY)
    | None => l
    end
  else l.

(** The layers that a forward scan started just after a group examines
    before the marker that closes the group ([groupEnd] markers left
    out): the members of the group, at any depth. *)
Fixpoint groupSpan (children : list LayerInfo) (depth : nat) : list LayerInfo :=
  match children with
  | [] => []
  | child :: rest =>
    match type child with
    | groupEnd =>
      match depth with
      | O => []
      | S d => groupSpan rest d
      end
    | group => child :: groupSpan rest (S depth)
    | layer => child :: groupSpan rest depth
    end
  end.

(** The rectangle of [c] lies within the rectangle of [g]. *)
Definition encloses (g c : LayerInfo) : Prop :=
  (x g ≤ x c)%Z ∧ (y g ≤ y c)%Z ∧
  (x c + width c ≤ x g + width g)%Z ∧ (y c + height c ≤ y g + height g)%Z.

(** [bx] is a bounding box of the rectangle of [c]. *)
Definition inBounds (bx : Bounds) (c : LayerInfo) : Prop :=
  let '(minX, minY, maxX, maxY) := bx in
  (minX ≤ x c)%Z ∧ (minY ≤ y c)%Z ∧
  (x c + width c ≤ maxX)%Z ∧ (y c + height c ≤ maxY)%Z.

(** [bx] lies within [bx']. *)
Definition boundsLe (bx bx' : Bounds) : Prop :=
  let '(minX, minY, maxX, maxY) := bx in
  let '(minX', minY', maxX', maxY') := bx' in
  (minX' ≤ minX)%Z ∧ (minY' ≤ minY)%Z ∧ (maxX ≤ maxX')%Z ∧ (maxY ≤ maxY')%Z.

(** Each side of [bx] is the side of a layer of [cs] that has an area. *)
Definition attained (bx : Bounds) (cs : list LayerInfo) : Prop :=
  let '(minX, minY, maxX, maxY) := bx in
  (∃ c, c ∈ cs ∧ hasArea c = true ∧ x c = minX) ∧
  (∃ c, c ∈ cs ∧ hasArea c = true ∧ y c = minY) ∧
  (∃ c, c ∈ cs ∧ hasArea c = true ∧ (x c + width c)%Z = maxX) ∧
  (∃ c, c ∈ cs ∧ hasArea c = true ∧ (y c + height c)%Z = maxY).

(** Two layer sequences that differ at most in the rectangles of their
    layers. *)
Definition sameButRects (layers layers' : list LayerInfo) : Prop :=
  Forall2 (λ l l', id l' = id l ∧ name l' = name l ∧ type l' = type l ∧
                   visible l' = visible l) layers layers'.

(** Own visibility of a layer under the override map. *)
Definition ownVisibility (overrides : gmap Z bool) (l : LayerInfo) : bool :=
  overrideOr overrides (id l) (visible l).

(** [l] at index [i] is the first layer of the sequence carrying [layerId]. *)
Definition firstWithId (layers : list LayerInfo) (layerId : Z) (i : nat)
    (l : LayerInfo) : Prop :=
  layers !! i = Some l ∧ id l = layerId ∧
  ∀ j l', layers !! j = Some l' → (j < i)%nat → id l' ≠ layerId.

(** Configurations of the backward scan started at [start]: [scanAt
    layers start i depth] holds when the scan is about to examine index
    [i - 1] with its counter at [depth]. *)
Inductive scanAt (layers : list LayerInfo) (start : nat) : nat → nat → Prop :=
| scan_start : scanAt layers start start O
| scan_groupEnd i depth l :
    scanAt layers start (S i) depth → layers !! i = Some l → type l = groupEnd →
    scanAt layers start i (S depth)
| scan_group_ancestor i l :
    scanAt layers start (S i) O → layers !! i = Some l → type l = group →
    scanAt layers start i O
| scan_group_skipped i depth l :
    scanAt layers start (S i) (S depth) → layers !! i = Some l → type l = group →
    scanAt layers start i depth
| scan_layer i depth l :
    scanAt layers start (S i) depth → layers !! i = Some l → type l = layer →
    scanAt layers start i depth.

(** [g] at index [j] is a group that the scan from [start] meets with its
    counter at zero: an ancestor of the layer at [start]. *)
Definition scanAncestor (layers : list LayerInfo) (start j : nat) (g : LayerInfo) : Prop :=
  scanAt layers start (S j) O ∧ layers !! j = Some g ∧ type g = group.

(** Every group layer is the first layer carrying its id (ids are unique
    up to the [groupEnd] marker that repeats the id of the group it
    closes, after it). *)
Definition groupsResolve (layers : list LayerInfo) : Prop :=
  ∀ j g, layers !! j = Some g → type g = group →
    ∀ k l, layers !! k = Some l → (k < j)%nat → id l ≠ id g.

(** Every layer other than a [groupEnd] marker is the first layer that
    carries its id. *)
Definition idsResolve (layers : list LayerInfo) : Prop :=
  ∀ l, l ∈ layers → type l ≠ groupEnd → find (id l) layers = Some l.

End PsdStore.

(** ** JS string helpers used by the stores *)

Module Js.

(** [WhiteSpace] and [LineTerminator] code units below U+0100, what
    [String.prototype.trim] strips and the regular expression class [\s]
    matches. *)
Definition isWhiteSpace (c : ascii) : bool :=
  let n := nat_of_ascii c in
  ((9 <=? n)%nat && (n <=? 13)%nat) || (n =? 32)%nat || (n =? 160)%nat.

Fixpoint trimStart (s : string) : string :=
  match s with
  | EmptyString => EmptyString
  | String c s' => if isWhiteSpace c then trimStart s' else s
  end.

(** [s.trim()]. *)
Definition trim (s : string) : string :=
  String.rev (trimStart (String.rev (trimStart s))).

(** [s.split(',')]. *)
Fixpoint splitComma (s : string) : list string :=
  match s with
  | EmptyString => [EmptyString]
  | String c s' =>
    if Ascii.eqb c "," then EmptyString :: splitComma s'
    else match splitComma s' with
         | hd :: tl => String c hd :: tl
         | [] => [String c EmptyString]
         end
  end.

(** [s.charAt(i)]: the empty string out of range. *)
Definition charAt (s : string) (i : nat) : string :=
  match String.get i s with
  | Some c => String c EmptyString
  | None => EmptyString
  end.

(** Truthiness of an optional string: defined and not empty. *)
Definition truthy (o : option string) : option string :=
  match o with
  | Some EmptyString => None
  | Some s => Some s
  | None => None
  end.

(** [o || dflt] for an optional string. *)
Definition orElse (o : option string) (dflt : string) : string :=
  match truthy o with
  | Some s => s
  | None => dflt
  end.

(** [o ?? dflt]. *)
Definition nullish (o : option string) (dflt : string) : string :=
  match o with
  | Some s => s
  | None => dflt
  end.

(** [s.replace(pat, rep)] with a string pattern: the first occurrence. *)
Fixpoint replaceFirst (pat rep s : string) : string :=
  if String.prefix pat s
  then rep +:+ String.substring (String.length pat) (String.length s - String.length pat) s
  else match s with
       | EmptyString => EmptyString
       | String c s' => String c (replaceFirst pat rep s')
       end.

(** [n.toString().padStart(2, '0')]. *)
Definition pad2 (n : nat) : string :=
  let d := pretty n in
  if (String.length d <? 2)%nat then "0" +:+ d else d.

(** A value of a field that the element type leaves [unknown]. *)
Inductive Unknown :=
| undefined
| null
| boolean (b : bool)
| number (n : Z)
| str (s : string)
| object.

End Js.

(** ** interaction-store: the interaction runtime *)

Module Interaction.
Import Js.

(** [InteractionElement] of lib/types: the fields the store reads.
    [group], [delay] and [triggerOn] fall under the index signature;
    [group] is read [as string], [triggerOn] [as string[] | undefined]
    behind [Array.isArray], [delay] behind [typeof ... === 'number']. *)
Record InteractionElement := mkElement {
  layerId : Z;
  type : string;
  action : option string;
  target : option string;
  format : option string;
  name : option string;
  value : option string;
  showOn : option (list string);
  targets : option (gmap string string);
  group : option string;
  delay : Unknown;
  triggerOn : option (list string);
}.

Record InteractionConfig := mkConfig {
  elements : list InteractionElement;
  screens : list string;
  initialScreen : string;
}.

(** [InteractionState]. A screen element may lack its [name], so
    [elementScreenMap] (filled with [screenNameById.get(screenId)!]) can
    hold [undefined]. *)
Record InteractionState := mkState {
  config : option InteractionConfig;
  currentScreen : option string;
  elementScreenMap : gmap Z (option string);
  sliderValues : gmap Z Z;
  clockTimers : gmap Z nat;
  screenTimerIds : list nat;
  activePopups : gset string;
  selectedHighlights : gmap string string;
  dynamicTexts : gmap Z string;
}.

(** The store as [create] builds it. *)
Definition initialState : InteractionState :=
  {| config := None; currentScreen := None; elementScreenMap := ∅;
     sliderValues := ∅; clockTimers := ∅; screenTimerIds := [];
     activePopups := ∅; selectedHighlights := ∅; dynamicTexts := ∅ |}.

(** The local time a clock callback reads from [new Date()]. *)
Record Date := mkDate { getHours : nat; getMinutes : nat; getSeconds : nat }.

(** The closures the store hands to [window.setTimeout] and
    [window.setInterval]. [screenName] is the parameter of
    [startScreenTimers] in whose scope the closure is created; [armedAt]
    is a ghost stamp, the number of navigations done when it was armed. *)
Inductive TimerTask :=
| screenTimeout (elem : InteractionElement) (delayMs : Z) (screenName : string)
    (armedAt : nat)
| startClocksTimeout
| clockInterval (elem : InteractionElement).

(** Calls that leave the store: to the renderer ([qtRenderer]) and to the
    psd store. [reqSetLayerText] is a call of [setLayerText] awaited inside
    [try]/[catch]: what follows it runs whether the call resolves or
    rejects. [reqSetLayerTextThenRecomposite] is
    [setLayerText(...).then(() => recomposite()).catch(...)]: the psd store
    is asked to recomposite only if the call resolves (it rejects when no
    parser is recorded for the file, or the layer is missing, is no text
    layer or has no runs). *)
Inductive Request :=
| reqSetLayerText (layerId : Z) (text : string)
| reqSetLayerTextThenRecomposite (layerId : Z) (text : string)
| reqRecomposite
| reqSetMultipleVisibility (overrides : gmap Z bool)
| reqRenderComposite (hiddenLayerIds shownLayerIds : list Z).

(** Everything the store's actions read and write: the store itself, the
    psd store ([psd?.layers] and [visibilityOverrides]), the window's
    active timers with the next handle it will hand out, and the requests
    issued so far, oldest first. [navigations] is ghost: it counts the
    updates of [currentScreen]. An [async] block is taken in program
    order: its requests are logged where the block is started. *)
Record World := mkWorld {
  store : InteractionState;
  psd : option (list PsdStore.LayerInfo);
  visibilityOverrides : gmap Z bool;
  timers : gmap nat TimerTask;
  nextTimerId : nat;
  navigations : nat;
  requests : list Request;
}.

Definition initialWorld : World :=
  {| store := initialState; psd := None; visibilityOverrides := ∅;
     timers := ∅; nextTimerId := 1; navigations := 0; requests := [] |}.

(** *** Record updates ([set({...})] merges a partial state) *)

Definition withStore (f : InteractionState → InteractionState) (w : World) : World :=
  {| store := f (store w); psd := psd w; visibilityOverrides := visibilityOverrides w;
     timers := timers w; nextTimerId := nextTimerId w; navigations := navigations w;
     requests := requests w |}.

Definition withTimers (f : gmap nat TimerTask → gmap nat TimerTask) (w : World) : World :=
  {| store := store w; psd := psd w; visibilityOverrides := visibilityOverrides w;
     timers := f (timers w); nextTimerId := nextTimerId w; navigations := navigations w;
     requests := requests w |}.

Definition request (r : Request) (w : World) : World :=
  {| store := store w; psd := psd w; visibilityOverrides := visibilityOverrides w;
     timers := timers w; nextTimerId := nextTimerId w; navigations := navigations w;
     requests := (requests w ++ [r])%list |}.

Definition navigated (w : World) : World :=
  {| store := store w; psd := psd w; visibilityOverrides := visibilityOverrides w;
     timers := timers w; nextTimerId := nextTimerId w; navigations := S (navigations w);
     requests := requests w |}.

Definition setCurrentScreen (s : option string) (st : InteractionState) :=
  {| config := config st; currentScreen := s;
     elementScreenMap := elementScreenMap st; sliderValues := sliderValues st;
     clockTimers := clockTimers st; screenTimerIds := screenTimerIds st;
     activePopups := activePopups st; selectedHighlights := selectedHighlights st;
     dynamicTexts := dynamicTexts st |}.

Definition setSliderValues (m : gmap Z Z) (st : InteractionState) :=
  {| config := config st; currentScreen := currentScreen st;
     elementScreenMap := elementScreenMap st; sliderValues := m;
     clockTimers := clockTimers st; screenTimerIds := screenTimerIds st;
     activePopups := activePopups st; selectedHighlights := selectedHighlights st;
     dynamicTexts := dynamicTexts st |}.

Definition setClockTimers (m : gmap Z nat) (st : InteractionState) :=
  {| config := config st; currentScreen := currentScreen st;
     elementScreenMap := elementScreenMap st; sliderValues := sliderValues st;
     clockTimers := m; screenTimerIds := screenTimerIds st;
     activePopups := activePopups st; selectedHighlights := selectedHighlights st;
     dynamicTexts := dynamicTexts st |}.

Definition setScreenTimerIds (ids : list nat) (st : InteractionState) :=
  {| config := config st; currentScreen := currentScreen st;
     elementScreenMap := elementScreenMap st; sliderValues := sliderValues st;
     clockTimers := clockTimers st; screenTimerIds := ids;
     activePopups := activePopups st; selectedHighlights := selectedHighlights st;
     dynamicTexts := dynamicTexts st |}.

Definition setActivePopups (p : gset string) (st : InteractionState) :=
  {| config := config st; currentScreen := currentScreen st;
     elementScreenMap := elementScreenMap st; sliderValues := sliderValues st;
     clockTimers := clockTimers st; screenTimerIds := screenTimerIds st;
     activePopups := p; selectedHighlights := selectedHighlights st;
     dynamicTexts := dynamicTexts st |}.

Definition setSelectedHighlights (m : gmap string string) (st : InteractionState) :=
  {| config := config st; currentScreen := currentScreen st;
     elementScreenMap := elementScreenMap st; sliderValues := sliderValues st;
     clockTimers := clockTimers st; screenTimerIds := screenTimerIds st;
     activePopups := activePopups st; selectedHighlights := m;
     dynamicTexts := dynamicTexts st |}.

Definition setDynamicTexts (m : gmap Z string) (st : InteractionState) :=
  {| config := config st; currentScreen := currentScreen st;
     elementScreenMap := elementScreenMap st; sliderValues := sliderValues st;
     clockTimers := clockTimers st; screenTimerIds := screenTimerIds st;
     activePopups := activePopups st; selectedHighlights := selectedHighlights st;
     dynamicTexts := m |}.

(** *** The window's timers *)

(** [window.setTimeout] / [window.setInterval]: a fresh handle. *)
Definition addTimer (task : TimerTask) (w : World) : nat * World :=
  let id := nextTimerId w in
  (id,
   {| store := store w; psd := psd w; visibilityOverrides := visibilityOverrides w;
      timers := <[id := task]> (timers w); nextTimerId := S id;
      navigations := navigations w; requests := requests w |}).

(** [window.clearTimeout] / [window.clearInterval] (one list of active
    timers serves both). *)
Definition clearTimer (id : nat) (w : World) : World :=
  withTimers (delete id) w.

(** *** psd store *)

(** [setMultipleVisibility] of the psd store, up to its render call. *)
Definition setMultipleVisibility (overrides : gmap Z bool) (w : World) : World :=
  let w := request (reqSetMultipleVisibility overrides) w in
  match psd w with
  | None => w
  | Some layers =>
    let newOverrides := overrides ∪ visibilityOverrides w in
    let '(hiddenLayerIds, shownLayerIds) :=
      PsdStore.visibilityLists layers layers newOverrides in
    request (reqRenderComposite hiddenLayerIds shownLayerIds)
      {| store := store w; psd := psd w; visibilityOverrides := newOverrides;
         timers := timers w; nextTimerId := nextTimerId w;
         navigations := navigations w; requests := requests w |}
  end.

(** *** Helpers of the store *)

Definition isDisplay (e : InteractionElement) : Prop :=
  type e = "display" ∨ type e = "dynamic_text".

Global Instance isDisplay_dec e : Decision (isDisplay e).
Proof. unfold isDisplay. apply _. Defined.

(** The loop of [findAncestorScreen]; [i] is one more than the loop
    variable. *)
Fixpoint ancestorScreenScan (layers : list PsdStore.LayerInfo) (i : nat)
    (depth : nat) (screenLayerIds : gset Z) : option Z :=
  match i with
  | O => None
  | S i' =>
    match layers !! i' with
    | None => ancestorScreenScan layers i' depth screenLayerIds
    | Some l =>
      match PsdStore.type l with
      | PsdStore.groupEnd => ancestorScreenScan layers i' (S depth) screenLayerIds
      | PsdStore.group =>
        match depth with
        | O => if bool_decide (PsdStore.id l ∈ screenLayerIds) then Some (PsdStore.id l)
               else ancestorScreenScan layers i' O screenLayerIds
        | S d => ancestorScreenScan layers i' d screenLayerIds
        end
      | PsdStore.layer => ancestorScreenScan layers i' depth screenLayerIds
      end
    end
  end.

Definition findAncestorScreen (layers : list PsdStore.LayerInfo) (layerId : Z)
    (screenLayerIds : gset Z) : option Z :=
  match PsdStore.findIndex layerId layers with
  | None => None
  | Some layerIndex => ancestorScreenScan layers layerIndex O screenLayerIds
  end.

(** [stopScreenTimers]. *)
Definition stopScreenTimers (ids : list nat) (w : World) : World :=
  foldl (λ w id, clearTimer id w) w ids.

(** The delay, in milliseconds, that [startScreenTimers] computes. *)
Definition timerDelay (elem : InteractionElement) : Z :=
  (match delay elem with number n => n | _ => 5 end) * 1000.

(** One iteration of the loop of [startScreenTimers]. *)
Definition startScreenTimer (screenName : string) (acc : list nat * World)
    (elem : InteractionElement) : list nat * World :=
  let '(ids, w) := acc in
  match triggerOn elem with
  | None => (ids, w)
  | Some tr =>
    if bool_decide (screenName ∈ tr) then
      let '(id, w') :=
        addTimer (screenTimeout elem (timerDelay elem) screenName (navigations w)) w in
      ((ids ++ [id])%list, w')
    else (ids, w)
  end.

(** [startScreenTimers]. *)
Definition startScreenTimers (config : InteractionConfig) (screenName : string)
    (w : World) : list nat * World :=
  let timerElements := filter (λ e, type e = "timer") (elements config) in
  foldl (startScreenTimer screenName) ([], w) timerElements.

(** The four passes of [applyScreenVisibility] over its [overrides] map. *)
Definition screenPass (layers : list PsdStore.LayerInfo) (screenName : string)
    (es : list InteractionElement) (overrides : gmap Z bool) : gmap Z bool :=
  foldl (λ ov screen,
           match PsdStore.find (layerId screen) layers with
           | None => ov
           | Some _ => <[layerId screen := bool_decide (name screen = Some screenName)]> ov
           end)
        overrides (filter (λ e, type e = "screen") es).

Definition showOnPass (layers : list PsdStore.LayerInfo) (screenName : string)
    (es : list InteractionElement) (overrides : gmap Z bool) : gmap Z bool :=
  foldl (λ ov elem,
           match PsdStore.find (layerId elem) layers with
           | None => ov
           | Some _ =>
             <[layerId elem := match showOn elem with
                               | Some l => bool_decide (screenName ∈ l)
                               | None => false
                               end]> ov
           end)
        overrides (filter (λ e, is_Some (showOn e)) es).

Definition highlightPass (selectedHighlights : gmap string string)
    (es : list InteractionElement) (overrides : gmap Z bool) : gmap Z bool :=
  foldl (λ ov elem,
           if bool_decide (type elem = "highlight") then
             let selectedName :=
               match truthy (group elem) with
               | Some g => selectedHighlights !! g
               | None => None
               end in
             <[layerId elem := bool_decide (name elem = selectedName)]> ov
           else ov)
        overrides es.

Definition popupPass (activePopups : gset string)
    (es : list InteractionElement) (overrides : gmap Z bool) : gmap Z bool :=
  foldl (λ ov elem,
           if bool_decide (type elem = "popup") then
             <[layerId elem := match name elem with
                               | Some n => bool_decide (n ∈ activePopups)
                               | None => false
                               end]> ov
           else ov)
        overrides es.

(** The [overrides] map that [applyScreenVisibility] hands to the psd
    store. *)
Definition screenOverrides (layers : list PsdStore.LayerInfo)
    (config : InteractionConfig) (screenName : string)
    (activePopups : gset string) (selectedHighlights : gmap string string)
    : gmap Z bool :=
  popupPass activePopups (elements config)
    (highlightPass selectedHighlights (elements config)
       (showOnPass layers screenName (elements config)
          (screenPass layers screenName (elements config) ∅))).

(** [applyScreenVisibility]. *)
Definition applyScreenVisibility (config : InteractionConfig) (screenName : string)
    (activePopups : gset string) (selectedHighlights : gmap string string)
    (w : World) : World :=
  match psd w with
  | None => w
  | Some layers =>
    setMultipleVisibility
      (screenOverrides layers config screenName activePopups selectedHighlights) w
  end.

(** [formatTime]. *)
Definition formatTime (date : Date) (format : string) : string :=
  let h := pad2 (getHours date) in
  let m := pad2 (getMinutes date) in
  let s := pad2 (getSeconds date) in
  replaceFirst "ss" s (replaceFirst "mm" m (replaceFirst "HH" h format)).

(** *** Actions of the store *)

(** [stopClocks]. *)
Definition stopClocks (w : World) : World :=
  let w := foldl (λ w id, clearTimer id w) w (map_to_list (clockTimers (store w))).*2 in
  withStore (setClockTimers ∅) w.

(** One iteration of the loop of [startClocks]. *)
Definition startClock (acc : gmap Z nat * World) (elem : InteractionElement)
    : gmap Z nat * World :=
  let '(newTimers, w) := acc in
  let '(timerId, w') := addTimer (clockInterval elem) w in
  (<[layerId elem := timerId]> newTimers, w').

(** [startClocks]. *)
Definition startClocks (w : World) : World :=
  match config (store w) with
  | None => w
  | Some config =>
    let clockElements := filter (λ e, type e = "clock") (elements config) in
    let '(newTimers, w') := foldl startClock (∅, w) clockElements in
    withStore (setClockTimers newTimers) w'
  end.

(** [setSliderValue]. *)
Definition setSliderValue (layerId : Z) (value : Z) (w : World) : World :=
  let newValues := <[layerId := value]> (sliderValues (store w)) in
  withStore (setSliderValues newValues) w.

(** [setDynamicText]. *)
Definition setDynamicText (layerId : Z) (text : string) (w : World) : World :=
  let newTexts := <[layerId := text]> (dynamicTexts (store w)) in
  withStore (setDynamicTexts newTexts) w.

(** The callback that [startClocks] hands to [setInterval]. *)
Definition clockTick (elem : InteractionElement) (now : Date) (w : World) : World :=
  let format := orElse (format elem) "HH:mm:ss" in
  let timeStr := formatTime now format in
  let w := setDynamicText (layerId elem) timeStr w in
  request (reqSetLayerTextThenRecomposite (layerId elem) timeStr) w.

(** [navigateToScreen]. *)
Definition navigateToScreen (screenName : string) (w : World) : World :=
  match config (store w) with
  | None => w
  | Some config =>
    let w := stopScreenTimers (screenTimerIds (store w)) w in
    let w :=
      navigated
        (withStore (λ st, setActivePopups ∅ (setCurrentScreen (Some screenName) st)) w) in
    let w := applyScreenVisibility config screenName ∅ (selectedHighlights (store w)) w in
    let '(ids, w') := startScreenTimers config screenName w in
    withStore (setScreenTimerIds ids) w'
  end.

(** The callback that [startScreenTimers] hands to [setTimeout]. *)
Definition screenTimerFired (elem : InteractionElement) (w : World) : World :=
  match bool_decide (action elem = Some "navigate"), truthy (target elem) with
  | true, Some tgt => navigateToScreen tgt w
  | _, _ => w
  end.

(** [initialTexts] of [setConfig]. *)
Definition initialTextsOf (es : list InteractionElement) : gmap Z string :=
  foldl (λ m elem,
           if decide (isDisplay elem)
           then <[layerId elem := nullish (value elem) "--"]> m
           else m)
        ∅ es.

(** [elementScreenMap] of [setConfig]. *)
Definition buildElementScreenMap (layers : list PsdStore.LayerInfo)
    (es : list InteractionElement) : gmap Z (option string) :=
  let screenElements := filter (λ e, type e = "screen") es in
  let screenLayerIds : gset Z := list_to_set (layerId <$> screenElements) in
  let screenNameById : gmap Z (option string) :=
    foldl (λ m e, <[layerId e := name e]> m) ∅ screenElements in
  foldl (λ m elem,
           if bool_decide (type elem = "screen") then m
           else match findAncestorScreen layers (layerId elem) screenLayerIds with
                | None => m
                | Some screenId =>
                  <[layerId elem := default None (screenNameById !! screenId)]> m
                end)
        ∅ es.

(** The text pushes of the [async] block of [setConfig]. *)
Definition pushInitialTexts (es : list InteractionElement) (w : World) : World :=
  foldl (λ w elem,
           if decide (isDisplay elem)
           then request (reqSetLayerText (layerId elem) (nullish (value elem) "--")) w
           else w)
        w es.

(** [setConfig]. *)
Definition setConfig (cfg : InteractionConfig) (w : World) : World :=
  let w := stopClocks w in
  let w := stopScreenTimers (screenTimerIds (store w)) w in
  let initialTexts := initialTextsOf (elements cfg) in
  let layers := default [] (psd w) in
  let elementScreenMap := buildElementScreenMap layers (elements cfg) in
  let w :=
    navigated
      (withStore
         (λ st, {| config := Some cfg; currentScreen := Some (initialScreen cfg);
                   elementScreenMap := elementScreenMap; sliderValues := ∅;
                   clockTimers := clockTimers st; screenTimerIds := screenTimerIds st;
                   activePopups := ∅; selectedHighlights := ∅;
                   dynamicTexts := initialTexts |}) w) in
  let w := pushInitialTexts (elements cfg) w in
  let w := applyScreenVisibility cfg (initialScreen cfg) ∅ ∅ w in
  let clockElements := filter (λ e, type e = "clock") (elements cfg) in
  let w := match clockElements with
           | [] => w
           | _ :: _ => (addTimer startClocksTimeout w).2
           end in
  let '(ids, w') := startScreenTimers cfg (initialScreen cfg) w in
  withStore (setScreenTimerIds ids) w'.

(** [clear]. *)
Definition clear (w : World) : World :=
  let w := stopClocks w in
  let w := stopScreenTimers (screenTimerIds (store w)) w in
  navigated (withStore (λ _, initialState) w).

(** *** [executeAction] *)

Definition actionIs (a : string) (element : InteractionElement) : bool :=
  bool_decide (action element = Some a).

(** [(element.target || '').split(',').map(s => s.trim()).filter(Boolean)]. *)
Definition targetNames (element : InteractionElement) : list string :=
  filter (λ s, s ≠ "") (trim <$> splitComma (orElse (target element) "")).

(** [config.elements.find(e => (e.type === 'display' || e.type ===
    'dynamic_text') && e.name === name)]. *)
Definition findDisplay (config : InteractionConfig) (name0 : string)
    : option InteractionElement :=
  snd <$> list_find (λ e, isDisplay e ∧ name e = Some name0) (elements config).

(** [targetNames.map(...).filter(e => e !== undefined)]. *)
Definition displayElemsOf (config : InteractionConfig) (names : list string)
    : list InteractionElement :=
  omap (findDisplay config) names.

(** The new text of a single two-character display. *)
Definition nextSingle (current digit : string) : string :=
  let emptyValue := "-" in
  let d1 := charAt current 0 in
  let d2 := charAt current 1 in
  if bool_decide (d1 = emptyValue) && bool_decide (d2 = emptyValue)
  then emptyValue +:+ digit
  else if bool_decide (d1 = emptyValue) && negb (bool_decide (d2 = emptyValue))
  then d2 +:+ digit
  else current.

(** [for (let i = 0; i < displayElems.length - 1; i++)
       setDynamicText(displayElems[i].layerId, currentValues[i + 1])];
    [count] iterations remain. *)
Fixpoint shiftLeft (displayElems : list InteractionElement)
    (currentValues : list string) (i count : nat) (w : World) : World :=
  match count with
  | O => w
  | S count' =>
    match displayElems !! i, currentValues !! S i with
    | Some d, Some v =>
      shiftLeft displayElems currentValues (S i) count' (setDynamicText (layerId d) v w)
    | _, _ => w
    end
  end.

(** The [input_digit] branch, entered with [digit = String(element.value)]. *)
Definition actInputDigit (element : InteractionElement) (digit : string)
    (w : World) : World :=
  match config (store w) with
  | None => w
  | Some cfg =>
    let dynamicTexts0 := dynamicTexts (store w) in
    let displayElems := displayElemsOf cfg (targetNames element) in
    let emptyValue := "-" in
    match displayElems with
    | [] => w
    | [displayElem] =>
      let current := orElse (dynamicTexts0 !! layerId displayElem) "--" in
      let next := nextSingle current digit in
      let w := setDynamicText (layerId displayElem) next w in
      request (reqSetLayerTextThenRecomposite (layerId displayElem) next) w
    | _ :: _ :: _ =>
      let allFilled :=
        forallb (λ d, negb (bool_decide
                   (orElse (dynamicTexts0 !! layerId d) emptyValue = emptyValue)))
                displayElems in
      if allFilled then w
      else
        let currentValues :=
          (λ d, orElse (dynamicTexts0 !! layerId d) emptyValue) <$> displayElems in
        let w := shiftLeft displayElems currentValues 0 (length displayElems - 1) w in
        let w := match last displayElems with
                 | Some d => setDynamicText (layerId d) digit w
                 | None => w
                 end in
        let state := store w in
        let w :=
          foldl (λ w d,
                   request (reqSetLayerText (layerId d)
                              (orElse (dynamicTexts state !! layerId d) emptyValue)) w)
                w displayElems in
        request reqRecomposite w
    end
  end.

(** The [show_highlight] / [toggle_highlight] branch, entered with a
    truthy [element.target]. *)
Definition actHighlight (element : InteractionElement) (tgt : string)
    (w : World) : World :=
  match config (store w) with
  | None => w
  | Some cfg =>
    match snd <$> list_find (λ e, type e = "highlight" ∧ name e = Some tgt)
                    (elements cfg) with
    | None => w
    | Some targetElem =>
      match truthy (group targetElem) with
      | None => w
      | Some grp =>
        let currentSelected := selectedHighlights (store w) !! grp in
        let isToggleOff :=
          actionIs "toggle_highlight" element
          && bool_decide (currentSelected = Some tgt) in
        let groupHighlights :=
          filter (λ e, type e = "highlight" ∧ group e = Some grp) (elements cfg) in
        let overrides :=
          foldl (λ ov h,
                   <[layerId h := if isToggleOff then false
                                  else bool_decide (name h = Some tgt)]> ov)
                (∅ : gmap Z bool) groupHighlights in
        let newSelected :=
          if isToggleOff then delete grp (selectedHighlights (store w))
          else <[grp := tgt]> (selectedHighlights (store w)) in
        let w := withStore (setSelectedHighlights newSelected) w in
        setMultipleVisibility overrides w
      end
    end
  end.

(** The [show_popup] branch, entered with a truthy [element.target]. *)
Definition actShowPopup (tgt : string) (w : World) : World :=
  match config (store w) with
  | None => w
  | Some cfg =>
    match snd <$> list_find (λ e, type e = "popup" ∧ name e = Some tgt)
                    (elements cfg) with
    | None => w
    | Some popupElem =>
      let overrides : gmap Z bool := <[layerId popupElem := true]> ∅ in
      let newPopups := activePopups (store w) ∪ {[tgt]} in
      let w := withStore (setActivePopups newPopups) w in
      setMultipleVisibility overrides w
    end
  end.

(** The [hide_popup] / [navigate_from_popup] branch. *)
Definition actHidePopup (element : InteractionElement) (w : World) : World :=
  let config0 := config (store w) in
  let w := withStore (setActivePopups ∅) w in
  match truthy (target element) with
  | Some tgt => navigateToScreen tgt w
  | None =>
    match config0 with
    | None => w
    | Some cfg =>
      match truthy (currentScreen (store w)) with
      | None => w
      | Some screen =>
        applyScreenVisibility cfg screen ∅ (selectedHighlights (store w)) w
      end
    end
  end.

(** The [clear_input] branch. *)
Definition actClearInput (element : InteractionElement) (w : World) : World :=
  match config (store w) with
  | None => w
  | Some cfg =>
    let displayElems := displayElemsOf cfg (targetNames element) in
    match displayElems with
    | [] => w
    | _ :: _ =>
      let w := foldl (λ w d, setDynamicText (layerId d) (nullish (value d) "-") w)
                     w displayElems in
      let w := foldl (λ w d, request (reqSetLayerText (layerId d)
                                        (nullish (value d) "-")) w)
                     w displayElems in
      request reqRecomposite w
    end
  end.

(** The names of the members that every plain object inherits from
    [Object.prototype]. *)
Definition inheritedMembers : list string :=
  ["constructor"; "hasOwnProperty"; "isPrototypeOf"; "propertyIsEnumerable";
   "toLocaleString"; "toString"; "valueOf"; "__proto__"; "__defineGetter__";
   "__defineSetter__"; "__lookupGetter__"; "__lookupSetter__"].

(** [targets[currentScreen]] on the plain object [targets]: its own
    property of that name, else the member of that name that it inherits
    from [Object.prototype], a function or an object and no string, else
    [undefined]. *)
Inductive Destination :=
| ownDestination (dest : string)
| inheritedMember
| noDestination.

Definition destinationFor (tgts : gmap string string) (screen : string) : Destination :=
  match tgts !! screen with
  | Some dest => ownDestination dest
  | None =>
    if bool_decide (screen ∈ inheritedMembers) then inheritedMember else noDestination
  end.

(** [executeAction]: the chain of guarded branches, each ending in
    [return]. In the [navigate_conditional] branch an inherited member is
    truthy, so the code navigates to it; [currentScreen], a string here,
    cannot hold that value: the world after that navigation is not
    described, it is left as it was, and what is stated of
    [navigate_conditional] excludes [inheritedMember]. *)
Definition executeAction (element : InteractionElement) (w : World) : World :=
  match actionIs "navigate" element, truthy (target element) with
  | true, Some tgt => navigateToScreen tgt w
  | _, _ =>
  match actionIs "navigate_conditional" element, targets element with
  | true, Some tgts =>
    match truthy (currentScreen (store w)) with
    | None => w
    | Some screen =>
      match destinationFor tgts screen with
      | ownDestination dest =>
        match truthy (Some dest) with
        | Some dest => navigateToScreen dest w
        | None => w
        end
      | inheritedMember => w
      | noDestination => w
      end
    end
  | _, _ =>
  match actionIs "input_digit" element, value element with
  | true, Some v => actInputDigit element v w
  | _, _ =>
  match actionIs "show_highlight" element || actionIs "toggle_highlight" element,
        truthy (target element) with
  | true, Some tgt => actHighlight element tgt w
  | _, _ =>
  match actionIs "show_popup" element, truthy (target element) with
  | true, Some tgt => actShowPopup tgt w
  | _, _ =>
  if actionIs "hide_popup" element || actionIs "navigate_from_popup" element
  then actHidePopup element w
  else if actionIs "clear_input" element
  then actClearInput element w
  else w
  end end end end end.

(** *** Actions of the psd store that other code runs *)

(** [loadPsd] once the document is parsed: the layers are installed and
    the first composite is rendered. *)
Definition loadPsd (layers : list PsdStore.LayerInfo) (w : World) : World :=
  request (reqRenderComposite [] [])
    {| store := store w; psd := Some layers;
       visibilityOverrides := visibilityOverrides w; timers := timers w;
       nextTimerId := nextTimerId w; navigations := navigations w;
       requests := requests w |}.

(** [toggleLayerVisibility]. *)
Definition toggleLayerVisibility (layerId : Z) (w : World) : World :=
  match psd w with
  | None => w
  | Some layers =>
    match PsdStore.find layerId layers with
    | None => w
    | Some l =>
      let overrides := visibilityOverrides w in
      let currentVisible := PsdStore.overrideOr overrides layerId (PsdStore.visible l) in
      let newOverrides := <[layerId := negb currentVisible]> overrides in
      let '(hiddenLayerIds, shownLayerIds) :=
        PsdStore.visibilityLists layers layers newOverrides in
      request (reqRenderComposite hiddenLayerIds shownLayerIds)
        {| store := store w; psd := psd w; visibilityOverrides := newOverrides;
           timers := timers w; nextTimerId := nextTimerId w;
           navigations := navigations w; requests := requests w |}
    end
  end.

(** [clear] of the psd store. *)
Definition psdClear (w : World) : World :=
  {| store := store w; psd := None; visibilityOverrides := ∅; timers := timers w;
     nextTimerId := nextTimerId w; navigations := navigations w;
     requests := requests w |}.

(** [recomposite] of the psd store, up to its render call. *)
Definition recomposite (w : World) : World :=
  match psd w with
  | None => w
  | Some layers =>
    let '(hiddenLayerIds, shownLayerIds) :=
      PsdStore.visibilityLists layers layers (visibilityOverrides w) in
    request (reqRenderComposite hiddenLayerIds shownLayerIds) w
  end.

(** [getEffectiveVisibility] of the psd store. *)
Definition getEffectiveVisibility (layerId : Z) (w : World) : bool :=
  match psd w with
  | None => false
  | Some layers =>
    PsdStore.computeEffectiveVisibility layers layerId (visibilityOverrides w)
  end.

(** [getOwnVisibility] of the psd store. *)
Definition getOwnVisibility (layerId : Z) (w : World) : bool :=
  match psd w with
  | None => false
  | Some layers =>
    match PsdStore.find layerId layers with
    | None => false
    | Some l => PsdStore.overrideOr (visibilityOverrides w) layerId (PsdStore.visible l)
    end
  end.

(** *** Executions *)

(** What can happen to the store: a call of one of its actions (from the
    UI), a psd-store action, or the window running the task of an active
    timer. *)
Inductive Event :=
| evSetConfig (cfg : InteractionConfig)
| evNavigateToScreen (screenName : string)
| evSetSliderValue (layerId : Z) (value : Z)
| evSetDynamicText (layerId : Z) (text : string)
| evStartClocks
| evStopClocks
| evExecuteAction (element : InteractionElement)
| evClear
| evLoadPsd (layers : list PsdStore.LayerInfo)
| evToggleLayerVisibility (layerId : Z)
| evPsdClear
| evTimer (id : nat) (now : Date).

(** The window runs the task of timer [id]: a timeout leaves the list of
    active timers before its callback runs, an interval stays. *)
Definition fireTimer (id : nat) (now : Date) (w : World) : World :=
  match timers w !! id with
  | None => w
  | Some (screenTimeout elem _ _ _) => screenTimerFired elem (clearTimer id w)
  | Some startClocksTimeout => startClocks (clearTimer id w)
  | Some (clockInterval elem) => clockTick elem now w
  end.

Definition step (w : World) (ev : Event) : World :=
  match ev with
  | evSetConfig cfg => setConfig cfg w
  | evNavigateToScreen screenName => navigateToScreen screenName w
  | evSetSliderValue layerId value => setSliderValue layerId value w
  | evSetDynamicText layerId text => setDynamicText layerId text w
  | evStartClocks => startClocks w
  | evStopClocks => stopClocks w
  | evExecuteAction element => executeAction element w
  | evClear => clear w
  | evLoadPsd layers => loadPsd layers w
  | evToggleLayerVisibility layerId => toggleLayerVisibility layerId w
  | evPsdClear => psdClear w
  | evTimer id now => fireTimer id now w
  end.

(** The world after a sequence of events, from the initial one. *)
Definition run (events : list Event) : World := foldl step initialWorld events.

(** *** Specification vocabulary *)

(** [elem] is armed on entering [screenName]: it passes the test of the
    loop of [startScreenTimers]. *)
Definition triggersOn (screenName : string) (elem : InteractionElement) : Prop :=
  ∃ tr, triggerOn elem = Some tr ∧ screenName ∈ tr.

Global Instance triggersOn_dec screenName elem : Decision (triggersOn screenName elem).
Proof.
  unfold triggersOn. destruct (triggerOn elem) as [tr|].
  - destruct (decide (screenName ∈ tr)); [left; eauto|right; intros (? & ? & ?); naive_solver].
  - right. intros (? & ? & ?). done.
Defined.

(** The timer elements that [startScreenTimers] arms for [screenName], in
    the order of the config. *)
Definition armedElements (cfg : InteractionConfig) (screenName : string)
    : list InteractionElement :=
  filter (triggersOn screenName) (filter (λ e, type e = "timer") (elements cfg)).

(** Two worlds that differ at most in their timers and next handle. *)
Definition sameButTimers (w w' : World) : Prop :=
  store w' = store w ∧ psd w' = psd w ∧
  visibilityOverrides w' = visibilityOverrides w ∧
  navigations w' = navigations w ∧ requests w' = requests w.

(** What the screen-timer bookkeeping of a world consists of. *)
Definition timerView (w : World)
    : gmap nat TimerTask * nat * nat * list nat * option string
      * option InteractionConfig :=
  (timers w, nextTimerId w, navigations w, screenTimerIds (store w),
   currentScreen (store w), config (store w)).

(** No screen timeout is active. *)
Definition noScreenTimeout (w : World) : Prop :=
  ∀ id elem ms screenName armedAt,
    timers w !! id ≠ Some (screenTimeout elem ms screenName armedAt).

(** Every active handle was handed out by the window. *)
Definition handlesIssued (w : World) : Prop :=
  ∀ id, is_Some (timers w !! id) → (id < nextTimerId w)%nat.

(** The bookkeeping invariant of screen timers: an active screen timeout
    is listed in [screenTimerIds], was armed on the current screen by the
    latest navigation of a loaded config, and for a screen its element
    triggers on; handles in use or listed were handed out by the window. *)
Definition timersTracked (w : World) : Prop :=
  (∀ id elem ms screenName armedAt,
     timers w !! id = Some (screenTimeout elem ms screenName armedAt) →
     id ∈ screenTimerIds (store w) ∧
     currentScreen (store w) = Some screenName ∧
     armedAt = navigations w ∧
     triggersOn screenName elem ∧
     is_Some (config (store w))) ∧
  handlesIssued w ∧
  (∀ id, id ∈ screenTimerIds (store w) → (id < nextTimerId w)%nat).

(** A pass over elements that sets the entry of some of them in a map
    keyed by layer id: what each of the four passes of
    [applyScreenVisibility] is, and the loops that write texts. *)
Definition applyUpdates {V} (upd : InteractionElement → option V)
    (es : list InteractionElement) (overrides : gmap Z V) : gmap Z V :=
  foldl (λ ov e, match upd e with
                 | Some v => <[layerId e := v]> ov
                 | None => ov
                 end)
        overrides es.

(** No other element of the config shares the layer of the screen element
    [e], except screen elements of the same name without [showOn]. *)
Definition soleScreen (cfg : InteractionConfig) (e : InteractionElement) : Prop :=
  ∀ e', e' ∈ elements cfg → layerId e' = layerId e →
    type e' = "screen" ∧ showOn e' = None ∧ name e' = name e.

(** The entry that the screen pass of [applyScreenVisibility] writes for
    the layer of the screen element [e] is not written over: no element
    on that layer has a [showOn] list, is a highlight or is a popup (the
    later passes write for those), and the screen elements on that layer
    bear the name of [e]. Elements of other types (a button, a tap area)
    may share the layer. *)
Definition screenEntryKept (cfg : InteractionConfig) (e : InteractionElement) : Prop :=
  ∀ e', e' ∈ elements cfg → layerId e' = layerId e →
    showOn e' = None ∧ type e' ≠ "highlight" ∧ type e' ≠ "popup" ∧
    (type e' = "screen" → name e' = name e).

(** An action whose reference resolves to nothing in the config [cfg],
    in the state [st]: a highlight action whose target names no highlight
    that has a group, a [show_popup] whose target names no popup, an
    [input_digit] or [clear_input] none of whose target names is a
    display, or a [navigate_conditional] without a destination for the
    current screen: [targets] has the empty string for it, or has no
    property of that name, own or inherited. *)
Definition unresolved (cfg : InteractionConfig) (st : InteractionState)
    (element : InteractionElement) : Prop :=
  (∃ tgt, (action element = Some "show_highlight" ∨
           action element = Some "toggle_highlight") ∧
     truthy (target element) = Some tgt ∧
     ∀ h, h ∈ elements cfg → type h = "highlight" → name h = Some tgt →
       truthy (group h) = None) ∨
  (∃ tgt, action element = Some "show_popup" ∧
     truthy (target element) = Some tgt ∧
     ∀ p, p ∈ elements cfg → type p = "popup" → name p ≠ Some tgt) ∨
  (((action element = Some "input_digit" ∧ is_Some (value element)) ∨
    action element = Some "clear_input") ∧
   ∀ n d, n ∈ targetNames element → d ∈ elements cfg → isDisplay d →
     name d ≠ Some n) ∨
  (∃ tgts, action element = Some "navigate_conditional" ∧
     targets element = Some tgts ∧
     ∀ screen, truthy (currentScreen st) = Some screen →
       destinationFor tgts screen = ownDestination "" ∨
       destinationFor tgts screen = noDestination).

(** The text pushes that [setConfig] issues, in order. *)
Definition initialTextPushes (es : list InteractionElement) : list Request :=
  omap (λ e, if decide (isDisplay e)
             then Some (reqSetLayerText (layerId e) (nullish (value e) "--"))
             else None) es.

(** The character that the display [d] holds in the multi-display
    policy: [texts.get(d.layerId) || '-']. *)
Definition heldChar (texts : gmap Z string) (d : InteractionElement) : string :=
  orElse (texts !! layerId d) "-".

(** A [show_highlight] or [toggle_highlight] action. *)
Definition isHighlightAction (element : InteractionElement) : Prop :=
  action element = Some "show_highlight" ∨ action element = Some "toggle_highlight".

(** The members of a highlight group: [groupHighlights] of [executeAction]. *)
Definition groupMembers (cfg : InteractionConfig) (grp : string)
    : list InteractionElement :=
  filter (λ e, type e = "highlight" ∧ group e = Some grp) (elements cfg).

(** [targetElem] of the highlight branch of [executeAction]: the first
    highlight of the config that bears the target name. *)
Definition targetHighlight (cfg : InteractionConfig) (tgt : string)
    : option InteractionElement :=
  snd <$> list_find (λ e, type e = "highlight" ∧ name e = Some tgt) (elements cfg).

(** The members of a highlight group lie on pairwise distinct layers and
    bear pairwise distinct names. *)
Definition membersApart (cfg : InteractionConfig) : Prop :=
  ∀ grp h1 h2, h1 ∈ groupMembers cfg grp → h2 ∈ groupMembers cfg grp →
    layerId h1 = layerId h2 ∨ (∃ n, name h1 = Some n ∧ name h2 = Some n) →
    h1 = h2.

(** The highlight [h] of group [grp] is the selected one of its group. *)
Definition isSelected (st : InteractionState) (grp : string)
    (h : InteractionElement) : bool :=
  match name h with
  | Some n => bool_decide (selectedHighlights st !! grp = Some n)
  | None => false
  end.

(** The world after a sequence of actions. *)
Definition executeActions (actions : list InteractionElement) (w : World) : World :=
  foldl (λ w element, executeAction element w) w actions.

(** The layer ids of the screen elements of a config: [screenLayerIds]
    of [setConfig]. *)
Definition screenLayerIdsOf (cfg : InteractionConfig) : gset Z :=
  list_to_set (layerId <$> filter (λ e, type e = "screen") (elements cfg)).

(** The part of the world that holds the configuration and what is
    derived from it or set from outside the action dispatcher. *)
Definition configView (w : World)
    : option InteractionConfig * gmap Z (option string) * gmap Z Z * gmap Z nat
      * option (list PsdStore.LayerInfo) :=
  (config (store w), elementScreenMap (store w), sliderValues (store w),
   clockTimers (store w), psd w).

End Interaction.

(** ** The WASM module: the layer list of a document and the scene flags *)

Module QtModule.
Import PsdStore.

(** A row of the layer model of a document, with the layer item the C++
    code reads from it (its rectangle and visibility) and its child
    rows. Rows are taken to have an item: for a row without one
    [traverseModel] emits an object without rectangle, flag and type. *)
#[local] Unset Elimination Schemes.
Inductive Row :=
  mkRow (rowId : Z) (rowName : string) (rowX rowY rowWidth rowHeight : Z)
        (rowVisible : bool) (rows : list Row).
#[local] Set Elimination Schemes.

(** The object that [traverseModel] pushes for the row itself. *)
Definition layerObject (rowId : Z) (rowName : string) (rowX rowY rowWidth rowHeight : Z)
    (rowVisible hasChildren : bool) : LayerInfo :=
  {| id := rowId; name := rowName; x := rowX; y := rowY; width := rowWidth;
     height := rowHeight; visible := rowVisible;
     type := if hasChildren then group else layer |}.

(** The [groupEnd] marker: an object with [id], [type] and an empty
    [name]; the fields it lacks read as [undefined], which compares as
    not positive and is falsy. *)
Definition groupEndObject (rowId : Z) : LayerInfo :=
  {| id := rowId; name := EmptyString; x := 0; y := 0; width := 0; height := 0;
     visible := false; type := groupEnd |}.

(** The body of the loop of [traverseModel] for one row; the recursive
    call runs the loop over the child rows. *)
Fixpoint traverseRow (r : Row) : list LayerInfo :=
  match r with
  | mkRow rowId rowName rowX rowY rowWidth rowHeight rowVisible rows =>
    match rows with
    | [] =>
      [layerObject rowId rowName rowX rowY rowWidth rowHeight rowVisible false]
    | _ :: _ =>
      (layerObject rowId rowName rowX rowY rowWidth rowHeight rowVisible true
         :: flat_map traverseRow rows ++ [groupEndObject rowId])%list
    end
  end.

(** [traverseModel(parent)] over the rows below [parent]: the [layers]
    array that [parsePsd] returns for the top-level rows. *)
Definition traverseModel (rows : list Row) : list LayerInfo :=
  flat_map traverseRow rows.

(** The flag of the scene item of a layer when [renderCompositeWithQt]
    renders: reset to the flag of the document, then set to false if the
    id is among the hidden ids, then to true if it is among the shown
    ones. *)
Definition sceneVisible (hiddenLayerIds shownLayerIds : list Z) (l : LayerInfo) : bool :=
  let originalVisible := visible l in
  let afterHidden :=
    if bool_decide (id l ∈ hiddenLayerIds) then false else originalVisible in
  if bool_decide (id l ∈ shownLayerIds) then true else afterHidden.

(** *** Specification vocabulary *)

(** For each object that [traverseModel] emits, in order, the ids of the
    rows that contain its row, nearest first, below the rows [path]; for
    a [groupEnd] marker the list starts with the id of its own row. *)
Fixpoint rowPaths (path : list Z) (r : Row) : list (list Z) :=
  match r with
  | mkRow rowId _ _ _ _ _ _ rows =>
    match rows with
    | [] => [path]
    | _ :: _ => (path :: flat_map (rowPaths (rowId :: path)) rows
                      ++ [rowId :: path])%list
    end
  end.

(** The ids of a row and of the rows below it. *)
Fixpoint rowIds (r : Row) : list Z :=
  match r with
  | mkRow rowId _ _ _ _ _ _ rows => rowId :: flat_map rowIds rows
  end.

End QtModule.

(** ** LayerTree: the tree view of the layers *)

Module LayerTree.
Import PsdStore Js.

(** [LayerTreeNode] of lib/types. *)
#[local] Unset Elimination Schemes.
Inductive LayerTreeNode :=
  mkNode (layer : LayerInfo) (children : list LayerTreeNode) (expanded : bool).
#[local] Set Elimination Schemes.

(** The loop of [buildLayerTree], on the layers from the last one down;
    the head of [stack] is its top, the array [tree] its bottom. [None]
    stands for the [TypeError] of [parent.push] on an empty stack. *)
Fixpoint buildLoop (reversed : list LayerInfo) (stack : list (list LayerTreeNode))
    : option (list (list LayerTreeNode)) :=
  match reversed with
  | [] => Some stack
  | l :: rest =>
    match type l with
    | groupEnd => buildLoop rest ([] :: stack)
    | group =>
      let '(children, stack) :=
        match stack with
        | [] => ([], [])
        | top :: below => (top, below)
        end in
      match stack with
      | [] => None
      | parent :: below =>
        buildLoop rest ((parent ++ [mkNode l children true])%list :: below)
      end
    | layer =>
      match stack with
      | [] => None
      | parent :: below =>
        buildLoop rest ((parent ++ [mkNode l [] false])%list :: below)
      end
    end
  end.

(** [buildLayerTree]. *)
Definition buildLayerTree (layers : list LayerInfo) : option (list LayerTreeNode) :=
  match buildLoop (rev layers) [[]] with
  | Some stack => last stack
  | None => None
  end.

(** [String.prototype.toLowerCase] on code units below U+0100: the
    letters A-Z and the capitals U+00C0-U+00DE other than the
    multiplication sign U+00D7 move up by 32. *)
Definition lowerChar (c : ascii) : ascii :=
  let n := nat_of_ascii c in
  if ((65 <=? n)%nat && (n <=? 90)%nat)
     || ((192 <=? n)%nat && (n <=? 222)%nat && negb (n =? 215)%nat)
  then ascii_of_nat (n + 32) else c.

Fixpoint toLowerCase (s : string) : string :=
  match s with
  | EmptyString => EmptyString
  | String c s' => String (lowerChar c) (toLowerCase s')
  end.

(** [s.includes(search)]. *)
Fixpoint includes (s search : string) : bool :=
  String.prefix search s
  || match s with
     | EmptyString => false
     | String _ s' => includes s' search
     end.

(** The callback of the [reduce] of [filterTree] on one node, for a
    query that is not empty; [None] when nothing is pushed. The recursive
    call of [filterTree] on the children passes its test of the query
    again and runs the same [reduce] over them. *)
Fixpoint filterNode (lower : string) (node : LayerTreeNode) : option LayerTreeNode :=
  match node with
  | mkNode l children _ =>
    let nameMatch := includes (toLowerCase (name l)) lower in
    let filteredChildren := omap (filterNode lower) children in
    if nameMatch || (0 <? length filteredChildren)%nat
    then Some (mkNode l filteredChildren (0 <? length filteredChildren)%nat)
    else None
  end.

(** [filterTree]. *)
Definition filterTree (nodes : list LayerTreeNode) (query : string)
    : list LayerTreeNode :=
  if bool_decide (query = EmptyString) then nodes
  else omap (filterNode (toLowerCase query)) nodes.

(** *** Specification vocabulary *)

(** The tree of a row of the layer model as the tree view shows it: the
    child rows in reverse order, folders expanded. *)
Fixpoint nodeOfRow (r : QtModule.Row) : LayerTreeNode :=
  match r with
  | QtModule.mkRow rowId rowName rowX rowY rowWidth rowHeight rowVisible rows =>
    match rows with
    | [] =>
      mkNode (QtModule.layerObject rowId rowName rowX rowY rowWidth rowHeight
                rowVisible false) [] false
    | _ :: _ =>
      mkNode (QtModule.layerObject rowId rowName rowX rowY rowWidth rowHeight
                rowVisible true) (rev (map nodeOfRow rows)) true
    end
  end.

(** The layers of a node and of the nodes below it. *)
Fixpoint nodeLayers (node : LayerTreeNode) : list LayerInfo :=
  match node with
  | mkNode l children _ => l :: flat_map nodeLayers children
  end.

(** The node and the nodes below it. *)
Fixpoint subnodes (node : LayerTreeNode) : list LayerTreeNode :=
  match node with
  | mkNode _ children _ => node :: flat_map subnodes children
  end.

(** The name of the layer contains the query, letter case aside. *)
Definition nameMatches (query : string) (l : LayerInfo) : Prop :=
  includes (toLowerCase (name l)) (toLowerCase query) = true.

(** What holds of a node that a search for [query] keeps: its name
    matches or it has children, it is expanded exactly when it has
    children, and some layer at or below it matches. *)
Definition keptFor (query : string) (node : LayerTreeNode) : Prop :=
  match node with
  | mkNode l children expanded =>
    (nameMatches query l ∨ children ≠ []) ∧
    expanded = (0 <? length children)%nat ∧
    ∃ l', l' ∈ nodeLayers node ∧ nameMatches query l'
  end.

End LayerTree.

(** ** Preview: the click overlays over the composite *)

Module Preview.
Import Js Interaction.

(** The callback of the [filter] that computes [overlayElements], on the
    state the component reads from the two stores. *)
Definition isOverlay (w : World) (e : InteractionElement) : bool :=
  if bool_decide (type e = "screen" ∨ type e = "conditional") then false
  else if bool_decide (type e = "display" ∨ type e = "dynamic_text" ∨ type e = "clock")
  then false
  else if bool_decide (type e = "highlight" ∨ type e = "popup" ∨ type e = "timer")
  then false
  else if match showOn e, truthy (currentScreen (store w)) with
          | Some screens, Some current => negb (bool_decide (current ∈ screens))
          | _, _ => false
          end
  then false
  else
    let elemScreen := elementScreenMap (store w) !! layerId e in
    if match elemScreen with
       | Some (Some screen) =>
         negb (bool_decide (screen = ""))
         && negb (bool_decide (Some screen = currentScreen (store w)))
       | _ => false
       end
    then false
    else getEffectiveVisibility (layerId e) w.

(** [overlayElements], given that a composite is shown. *)
Definition overlayElements (w : World) : list InteractionElement :=
  match config (store w) with
  | Some cfg => filter (λ e, isOverlay w e = true) (elements cfg)
  | None => []
  end.

(** The [onClick] handler of an overlay, with [onNavigate] and [onAction]
    bound to [navigateToScreen] and [executeAction]. *)
Definition onClick (element : InteractionElement) (w : World) : World :=
  match bool_decide (action element = Some "navigate"), truthy (target element) with
  | true, Some tgt => navigateToScreen tgt w
  | _, _ => executeAction element w
  end.

End Preview.

(** ** chat-store: reading the interaction config out of a response *)

Module ChatStore.
Import Js.

(** A parsed JSON text. A number keeps its literal; the members of an
    object are in source order. *)
#[local] Set Warnings "-register-all".
Inductive Json :=
| jnull
| jbool (b : bool)
| jnumber (literal : string)
| jstring (s : string)
| jarray (items : list Json)
| jobject (members : list (string * Json)).

(** [o[key]] on the members of a parsed object: [JSON.parse] lets the last
    member of a name win. *)
Fixpoint lookupMember (key : string) (members : list (string * Json)) : option Json :=
  match members with
  | [] => None
  | (k, v) :: rest =>
    match lookupMember key rest with
    | Some v' => Some v'
    | None => if bool_decide (k = key) then Some v else None
    end
  end.

(** [parsed.key] for a parsed value other than [null]: [undefined] on
    anything but an object that has the member. *)
Definition getProperty (key : string) (parsed : Json) : option Json :=
  match parsed with
  | jobject members => lookupMember key members
  | _ => None
  end.

Definition newline : ascii := ascii_of_nat 10.

(** The double-quote character. *)
Definition quote : ascii := ascii_of_nat 34.

(** The text that follows the first occurrence of [pat] in [s], with the
    text that precedes it. *)
Fixpoint splitAtFirst (pat s : string) : option (string * string) :=
  if String.prefix pat s
  then Some (EmptyString,
             String.substring (String.length pat) (String.length s - String.length pat) s)
  else match s with
       | EmptyString => None
       | String c s' =>
         match splitAtFirst pat s' with
         | Some (before, after) => Some (String c before, after)
         | None => None
         end
       end.

(** The ways [\s*\n] can match at the head of [r], as the text left after
    the match, in the order a backtracking matcher tries them: [\s*] is
    greedy, so the longest match comes first. *)
Fixpoint afterHeader (r : string) : list string :=
  match r with
  | EmptyString => []
  | String c r' =>
    if isWhiteSpace c
    then (afterHeader r' ++ (if Ascii.eqb c newline then [r'] else []))%list
    else []
  end.

(** [([\s\S]*?)\n```] at the head of [body]: the capture is lazy, it ends
    at the first closing fence. *)
Definition closingFence (body : string) : option string :=
  fst <$> splitAtFirst (String newline "```") body.

(** The first alternative that finds its closing fence. *)
Fixpoint firstClosed (bodies : list string) : option string :=
  match bodies with
  | [] => None
  | body :: rest =>
    match closingFence body with
    | Some captured => Some captured
    | None => firstClosed rest
    end
  end.

(** The regular expression anchored at the head of [text]. *)
Definition fenceAt (text : string) : option string :=
  if String.prefix "```json" text
  then firstClosed (afterHeader (String.substring 7 (String.length text - 7) text))
  else None.

(** [text.match(/```json\s*\n([\s\S]*?)\n```/)]: group 1 of the leftmost
    match, [None] for [null]. *)
Fixpoint matchJsonFence (text : string) : option string :=
  match fenceAt text with
  | Some captured => Some captured
  | None =>
    match text with
    | EmptyString => None
    | String _ text' => matchJsonFence text'
    end
  end.

Section Parse.

(** [JSON.parse]: [None] when it throws a [SyntaxError]. *)
Variable JSON_parse : string → option Json.

(** [parseInteractionConfig]. The test [parsed.elements &&
    Array.isArray(parsed.elements)] holds exactly for an array (an array
    is truthy); [parsed.elements] on [null] throws and is caught. The
    result is the parsed value itself ([parsed as InteractionConfig]). *)
Definition parseInteractionConfig (text : string) : option Json :=
  match matchJsonFence text with
  | None => None
  | Some block =>
    match JSON_parse block with
    | None => None
    | Some jnull => None
    | Some parsed =>
      match getProperty "elements" parsed with
      | Some (jarray _) => Some parsed
      | _ => None
      end
    end
  end.

(** [interactionConfig] after [sendUserMessage] or [analyzeCurrentPsd]
    received [fullText]: [config || state.interactionConfig]. *)
Definition receiveResponse (interactionConfig : option Json) (fullText : string)
    : option Json :=
  match parseInteractionConfig fullText with
  | Some config => Some config
  | None => interactionConfig
  end.

End Parse.

(** *** A JSON reader

    [JSON.parse] on texts of code units below U+0100: the grammar of
    ECMA-404. An escape [\uXXXX] above U+00FF denotes a code unit outside
    that range and is not read. *)

Definition isJsonSpace (c : ascii) : bool :=
  let n := nat_of_ascii c in
  (n =? 32)%nat || (n =? 9)%nat || (n =? 10)%nat || (n =? 13)%nat.

Fixpoint skipSpace (s : string) : string :=
  match s with
  | EmptyString => EmptyString
  | String c s' => if isJsonSpace c then skipSpace s' else s
  end.

Definition isDigit (c : ascii) : bool :=
  let n := nat_of_ascii c in (48 <=? n)%nat && (n <=? 57)%nat.

(** The longest run of digits at the head of [s], and the rest. *)
Fixpoint takeDigits (s : string) : string * string :=
  match s with
  | EmptyString => (EmptyString, EmptyString)
  | String c s' =>
    if isDigit c then let '(ds, rest) := takeDigits s' in (String c ds, rest)
    else (EmptyString, s)
  end.

Definition readInt (s : string) : option (string * string) :=
  match s with
  | String c s' =>
    if Ascii.eqb c "0" then Some ("0", s')
    else if isDigit c then let '(ds, rest) := takeDigits s' in Some (String c ds, rest)
    else None
  | EmptyString => None
  end.

Definition readFraction (s : string) : option (string * string) :=
  match s with
  | String "." s' =>
    match takeDigits s' with
    | (EmptyString, _) => None
    | (ds, rest) => Some (String "." ds, rest)
    end
  | _ => Some (EmptyString, s)
  end.

Definition readExponent (s : string) : option (string * string) :=
  match s with
  | String c s' =>
    if Ascii.eqb c "e" || Ascii.eqb c "E" then
      let '(sign, s'') :=
        match s' with
        | String "+" r => ("+", r)
        | String "-" r => ("-", r)
        | _ => (EmptyString, s')
        end in
      match takeDigits s'' with
      | (EmptyString, _) => None
      | (ds, rest) => Some (String c (sign +:+ ds), rest)
      end
    else Some (EmptyString, s)
  | EmptyString => Some (EmptyString, s)
  end.

(** A number literal at the head of [s]. *)
Definition readNumber (s : string) : option (string * string) :=
  let '(sign, s1) :=
    match s with
    | String "-" r => ("-", r)
    | _ => (EmptyString, s)
    end in
  '(int, s2) ← readInt s1;
  '(frac, s3) ← readFraction s2;
  '(exp, s4) ← readExponent s3;
  Some (sign +:+ int +:+ frac +:+ exp, s4).

Definition hexValue (c : ascii) : option nat :=
  let n := nat_of_ascii c in
  if (48 <=? n)%nat && (n <=? 57)%nat then Some (n - 48)%nat
  else if (65 <=? n)%nat && (n <=? 70)%nat then Some (n - 55)%nat
  else if (97 <=? n)%nat && (n <=? 102)%nat then Some (n - 87)%nat
  else None.

Definition escapeChar (e : ascii) : option ascii :=
  if Ascii.eqb e quote then Some e
  else if Ascii.eqb e "\" then Some e
  else if Ascii.eqb e "/" then Some e
  else if Ascii.eqb e "b" then Some (ascii_of_nat 8)
  else if Ascii.eqb e "f" then Some (ascii_of_nat 12)
  else if Ascii.eqb e "n" then Some (ascii_of_nat 10)
  else if Ascii.eqb e "r" then Some (ascii_of_nat 13)
  else if Ascii.eqb e "t" then Some (ascii_of_nat 9)
  else None.

(** The characters of a string literal after its opening quote, up to the
    closing one, and the rest. *)
Fixpoint readStringBody (s : string) : option (string * string) :=
  match s with
  | EmptyString => None
  | String c r =>
    if Ascii.eqb c quote then Some (EmptyString, r)
    else if Ascii.eqb c "\" then
      match r with
      | String "u" (String h1 (String h2 (String h3 (String h4 r')))) =>
        a ← hexValue h1; b ← hexValue h2; c' ← hexValue h3; d ← hexValue h4;
        let code := (((a * 16 + b) * 16 + c') * 16 + d)%nat in
        if (code <? 256)%nat
        then '(body, rest) ← readStringBody r'; Some (String (ascii_of_nat code) body, rest)
        else None
      | String e r' =>
        ch ← escapeChar e;
        '(body, rest) ← readStringBody r'; Some (String ch body, rest)
      | EmptyString => None
      end
    else if (nat_of_ascii c <? 32)%nat then None
    else '(body, rest) ← readStringBody r; Some (String c body, rest)
  end.

(** A value at the head of [s] (after white space), the items of an array
    after its bracket or a comma, and the members of an object after its
    brace or a comma; [fuel] bounds the nesting and the number of items. *)
Fixpoint readValue (fuel : nat) (s : string) {struct fuel} : option (Json * string) :=
  match fuel with
  | O => None
  | S fuel' =>
    match skipSpace s with
    | EmptyString => None
    | String c r as s0 =>
      if Ascii.eqb c "{" then
        match skipSpace r with
        | String "}" r' => Some (jobject [], r')
        | r0 => '(members, rest) ← readMembers fuel' r0; Some (jobject members, rest)
        end
      else if Ascii.eqb c "[" then
        match skipSpace r with
        | String "]" r' => Some (jarray [], r')
        | r0 => '(items, rest) ← readItems fuel' r0; Some (jarray items, rest)
        end
      else if Ascii.eqb c quote then
        '(chars, rest) ← readStringBody r; Some (jstring chars, rest)
      else if String.prefix "null" s0 then
        Some (jnull, String.substring 4 (String.length s0 - 4) s0)
      else if String.prefix "true" s0 then
        Some (jbool true, String.substring 4 (String.length s0 - 4) s0)
      else if String.prefix "false" s0 then
        Some (jbool false, String.substring 5 (String.length s0 - 5) s0)
      else '(lit, rest) ← readNumber s0; Some (jnumber lit, rest)
    end
  end
with readItems (fuel : nat) (s : string) {struct fuel} : option (list Json * string) :=
  match fuel with
  | O => None
  | S fuel' =>
    '(v, rest) ← readValue fuel' s;
    match skipSpace rest with
    | String "," r => '(items, rest') ← readItems fuel' r; Some (v :: items, rest')
    | String "]" r => Some ([v], r)
    | _ => None
    end
  end
with readMembers (fuel : nat) (s : string) {struct fuel}
    : option (list (string * Json) * string) :=
  match fuel with
  | O => None
  | S fuel' =>
    match skipSpace s with
    | String c r =>
      if Ascii.eqb c quote then
        '(key, rest) ← readStringBody r;
        match skipSpace rest with
        | String ":" r1 =>
          '(v, rest1) ← readValue fuel' r1;
          match skipSpace rest1 with
          | String "," r2 =>
            '(members, rest2) ← readMembers fuel' r2; Some ((key, v) :: members, rest2)
          | String "}" r2 => Some ([(key, v)], r2)
          | _ => None
          end
        | _ => None
        end
      else None
    | EmptyString => None
    end
  end.

(** The reader: one value, then only white space. *)
Definition jsonParse (text : string) : option Json :=
  '(v, rest) ← readValue (S (String.length text)) text;
  match skipSpace rest with
  | EmptyString => Some v
  | _ => None
  end.

(** *** Specification vocabulary *)

(** [parsed.elements] is an array. *)
Definition elementsIsArray (parsed : Json) : Prop :=
  ∃ items, getProperty "elements" parsed = Some (jarray items).


End ChatStore.

(** ** claude-client: reading the streamed response *)

Module ClaudeClient.
Import Js ChatStore.

(** [s.split('\n')]. *)
Fixpoint splitLines (s : string) : list string :=
  match s with
  | EmptyString => [EmptyString]
  | String c s' =>
    if Ascii.eqb c newline then EmptyString :: splitLines s'
    else match splitLines s' with
         | hd :: tl => String c hd :: tl
         | [] => [String c EmptyString]
         end
  end.

(** What a parsed event contributes: nothing, or the text that
    [fullText += parsed.delta.text] appends. A [text] that is a number,
    [true], an array or an object (which the API never sends) would be
    skipped or appended in its string form, as it is falsy or truthy;
    that case is kept apart as [nonString]. *)
Inductive Delta := skip | append (text : string) | nonString.

(** [parsed.type === 'content_block_delta' && parsed.delta?.text], for a
    parsed value other than [null]. *)
Definition deltaOf (parsed : Json) : Delta :=
  match getProperty "type" parsed with
  | Some (jstring "content_block_delta") =>
    match getProperty "delta" parsed with
    | None | Some jnull => skip
    | Some delta =>
      match getProperty "text" delta with
      | None | Some jnull | Some (jbool false) | Some (jstring EmptyString) => skip
      | Some (jstring text) => append text
      | Some _ => nonString
      end
    end
  | _ => skip
  end.

Section Stream.

(** [JSON.parse]: [None] when it throws a [SyntaxError]. *)
Variable JSON_parse : string → option Json.

(** The body of [for (const line of lines)], on [fullText] and on the
    arguments [onChunk] got so far, oldest first; [None] when a text that
    is not a string turns up. [parsed.type] on [null] throws and is
    caught, like a [SyntaxError]. *)
Definition readLine (state : option (string * list string)) (line : string)
    : option (string * list string) :=
  match state with
  | None => None
  | Some (fullText, calls) =>
    if String.prefix "data: " line then
      let data := String.substring 6 (String.length line - 6) line in
      if bool_decide (data = "[DONE]") then state
      else
        match JSON_parse data with
        | None | Some jnull => state
        | Some parsed =>
          match deltaOf parsed with
          | skip => state
          | append text => Some (fullText +:+ text, (calls ++ [fullText +:+ text])%list)
          | nonString => None
          end
        end
    else state
  end.

(** One turn of the [while] loop: the lines of a decoded chunk. *)
Definition readChunk (state : option (string * list string)) (chunk : string)
    : option (string * list string) :=
  foldl readLine state (splitLines chunk).

(** The streaming branch of [sendMessage] on the decoded chunks of the
    response body: the text it returns and the arguments of its calls of
    [onChunk]. *)
Definition readStream (chunks : list string) : option (string * list string) :=
  foldl readChunk (Some (EmptyString, [])) chunks.

End Stream.

(** *** Specification vocabulary *)

(** [b] is [a] followed by some text that is not empty. *)
Definition extends (a b : string) : Prop :=
  ∃ d, d ≠ EmptyString ∧ b = a +:+ d.

(** Each text of the list extends the one before it, the first one
    extends [a]. *)
Inductive chain : string → list string → Prop :=
| chain_nil a : chain a []
| chain_cons a b l : extends a b → chain b l → chain a (b :: l).

End ClaudeClient.

(** ** chat-store: sending a message *)

Module Conversation.
Import Js ChatStore.

Inductive Role := user | assistant.

(** [ChatMessage] of lib/types, without its [timestamp], which nothing
    reads. *)
Record ChatMessage := mkMessage {
  role : Role;
  content : string;
  apiContent : option string;
}.

(** The prompt that [buildSystemContext] builds from the layer JSON and
    the config, kept as the call that builds it. *)
Inductive SystemContext :=
  buildSystemContext (layerJson : string) (currentConfig : option Json).

Record ChatState := mkChat {
  messages : list ChatMessage;
  apiKey : string;
  sending : bool;
  interactionConfig : option Json;
  systemContext : option SystemContext;
  layerJson : option string;
  suggestedReply : option string;
}.

(** What [sendMessage] is called with. *)
Record ApiRequest := mkRequest {
  requestKey : string;
  apiMessages : list (Role * string);
  system : option SystemContext;
}.

(** What the call of [sendMessage] does: it calls [onChunk] with partial
    texts, then resolves with the full text or rejects, with the message
    of the error if it is an [Error]. *)
Inductive Outcome :=
| resolved (partials : list string) (fullText : string)
| rejected (partials : list string) (message : option string).

(** The regular expression of [extractSuggestedReply] anchored at the
    head of [text]. *)
Definition replyFenceAt (text : string) : option string :=
  if String.prefix "```reply" text
  then firstClosed (afterHeader (String.substring 8 (String.length text - 8) text))
  else None.

(** [text.match(/```reply\s*\n([\s\S]*?)\n```/)]: group 1 of the leftmost
    match. *)
Fixpoint matchReplyFence (text : string) : option string :=
  match replyFenceAt text with
  | Some captured => Some captured
  | None =>
    match text with
    | EmptyString => None
    | String _ text' => matchReplyFence text'
    end
  end.

(** The [reply] of [extractSuggestedReply], the part of its result that
    its callers read. *)
Definition extractSuggestedReply (text : string) : option string :=
  trim <$> matchReplyFence text.

(** [msgs[msgs.length - 1] = { ...msgs[msgs.length - 1], content }] on a
    copy of the messages (on an empty array the assignment adds no
    element). *)
Definition setLastContent (content0 : string) (msgs : list ChatMessage)
    : list ChatMessage :=
  match msgs !! (length msgs - 1)%nat with
  | Some m =>
    <[(length msgs - 1)%nat :=
        {| role := role m; content := content0; apiContent := apiContent m |}]> msgs
  | None => msgs
  end.

Definition withMessages (msgs : list ChatMessage) (st : ChatState) : ChatState :=
  {| messages := msgs; apiKey := apiKey st; sending := sending st;
     interactionConfig := interactionConfig st; systemContext := systemContext st;
     layerJson := layerJson st; suggestedReply := suggestedReply st |}.

Definition withSending (b : bool) (st : ChatState) : ChatState :=
  {| messages := messages st; apiKey := apiKey st; sending := b;
     interactionConfig := interactionConfig st; systemContext := systemContext st;
     layerJson := layerJson st; suggestedReply := suggestedReply st |}.

Section Send.

Variable JSON_parse : string → option Json.

(** [sendUserMessage], run to its end with nothing else touching the
    store meanwhile: the state it leaves and the request it made, if
    any. *)
Definition sendUserMessage (text : string) (outcome : Outcome) (state : ChatState)
    : ChatState * option ApiRequest :=
  if bool_decide (apiKey state = EmptyString) || sending state then (state, None)
  else
    let userMessage := {| role := user; content := text; apiContent := None |} in
    let st := withSending true (withMessages (messages state ++ [userMessage]) state) in
    let apiMessages0 :=
      (λ m, (role m, orElse (apiContent m) (content m))) <$> messages st in
    let placeholderMessage :=
      {| role := assistant; content := EmptyString; apiContent := None |} in
    let st := withMessages (messages st ++ [placeholderMessage]) st in
    let request :=
      {| requestKey := apiKey state; apiMessages := apiMessages0;
         system := systemContext st |} in
    let partials :=
      match outcome with resolved ps _ => ps | rejected ps _ => ps end in
    let st :=
      foldl (λ st partialText,
               withMessages (setLastContent partialText (messages st)) st)
            st partials in
    let st :=
      match outcome with
      | resolved _ fullText =>
        let suggestedReply0 := extractSuggestedReply fullText in
        let msgs := setLastContent fullText (messages st) in
        let config := parseInteractionConfig JSON_parse fullText in
        let newConfig :=
          match config with
          | Some c => Some c
          | None => interactionConfig state
          end in
        {| messages := msgs; apiKey := apiKey st; sending := sending st;
           interactionConfig := newConfig;
           systemContext :=
             match config, truthy (layerJson st) with
             | Some _, Some storedLayerJson =>
               Some (buildSystemContext storedLayerJson newConfig)
             | _, _ => systemContext st
             end;
           layerJson := layerJson st; suggestedReply := suggestedReply0 |}
      | rejected _ message =>
        let errorMsg :=
          {| role := assistant;
             content := "Error: " +:+ default "Unknown error" message;
             apiContent := None |} in
        withMessages (removelast (messages st) ++ [errorMsg]) st
      end in
    (withSending false st, Some request).

End Send.

(** [clearMessages]. *)
Definition clearMessages (st : ChatState) : ChatState :=
  {| messages := []; apiKey := apiKey st; sending := sending st;
     interactionConfig := None; systemContext := None; layerJson := None;
     suggestedReply := None |}.

End Conversation.

(** ** qt-renderer and the parser table of the WASM module *)

Module QtRenderer.

(** The renderer object and the table of the module: whether the module
    is loaded, the slots of [s_parsers] that hold a parser, the handle
    recorded for each file and the files whose data are cached. *)
Record Renderer := mkRenderer {
  moduleLoaded : bool;
  parsers : gset nat;
  parserHandles : gmap string nat;
  psdDataCache : gset string;
}.

Definition initialRenderer : Renderer :=
  {| moduleLoaded := false; parsers := ∅; parserHandles := ∅; psdDataCache := ∅ |}.

(** [findFreeHandle] of the WASM module; [None] stands for -1. *)
Definition findFreeHandle (parsers0 : gset nat) : option nat :=
  snd <$> list_find (λ i, i ∉ parsers0) (seq 1 15).

(** [releaseParser] of the WASM module. *)
Definition releaseParser (handle : nat) (parsers0 : gset nat) : gset nat :=
  if bool_decide ((1 ≤ handle)%nat ∧ (handle < 16)%nat ∧ handle ∈ parsers0)
  then parsers0 ∖ {[handle]}
  else parsers0.

(** [parsePsd] of the WASM module, as far as the table goes: [loads]
    tells whether the data pass every check before the handle is taken;
    the result is the handle, or [None] for an error. *)
Definition nativeParsePsd (loads : bool) (parsers0 : gset nat)
    : option nat * gset nat :=
  if loads then
    match findFreeHandle parsers0 with
    | Some handle => (Some handle, parsers0 ∪ {[handle]})
    | None => (None, parsers0)
    end
  else (None, parsers0).

(** [await this.initialize(); if (!this.module) throw]: [starts] tells
    whether the module loads, should it be needed; [None] when the call
    throws. *)
Definition initialize (starts : bool) (r : Renderer) : option Renderer :=
  if moduleLoaded r then Some r
  else if starts
  then Some {| moduleLoaded := true; parsers := parsers r;
               parserHandles := parserHandles r; psdDataCache := psdDataCache r |}
  else None.

(** [releaseParser(existingHandle); parserHandles.delete(file)] for a
    recorded handle. *)
Definition releaseExisting (file : string) (r : Renderer) : Renderer :=
  match parserHandles r !! file with
  | Some existingHandle =>
    {| moduleLoaded := moduleLoaded r;
       parsers := releaseParser existingHandle (parsers r);
       parserHandles := delete file (parserHandles r);
       psdDataCache := psdDataCache r |}
  | None => r
  end.

(** [cachePsdData]. *)
Definition cachePsdData (file : string) (r : Renderer) : Renderer :=
  let r := if moduleLoaded r then releaseExisting file r else r in
  {| moduleLoaded := moduleLoaded r; parsers := parsers r;
     parserHandles := parserHandles r; psdDataCache := psdDataCache r ∪ {[file]} |}.

(** [parsePsd] of the renderer: the handle it returns, [None] when it
    throws. *)
Definition parsePsd (file : string) (starts loads : bool) (r : Renderer)
    : Renderer * option nat :=
  match initialize starts r with
  | None => (r, None)
  | Some r =>
    if bool_decide (file ∈ psdDataCache r) then
      let r := releaseExisting file r in
      match nativeParsePsd loads (parsers r) with
      | (Some handle, parsers') =>
        ({| moduleLoaded := moduleLoaded r; parsers := parsers';
            parserHandles := <[file := handle]> (parserHandles r);
            psdDataCache := psdDataCache r |}, Some handle)
      | (None, parsers') =>
        ({| moduleLoaded := moduleLoaded r; parsers := parsers';
            parserHandles := parserHandles r; psdDataCache := psdDataCache r |}, None)
      end
    else (r, None)
  end.

(** The handle that [renderCompositeWithQt], [getLayerImage] and
    [exportLayerJson] pass to the module: the recorded one, or the one of
    a fresh [parsePsd]; [None] when they throw before calling it. *)
Definition handleFor (file : string) (starts loads : bool) (r : Renderer)
    : Renderer * option nat :=
  match initialize starts r with
  | None => (r, None)
  | Some r =>
    match parserHandles r !! file with
    | Some handle => (r, Some handle)
    | None => parsePsd file starts loads r
    end
  end.

(** [release]. *)
Definition release (file : string) (r : Renderer) : Renderer :=
  if moduleLoaded r then
    let r := releaseExisting file r in
    {| moduleLoaded := moduleLoaded r; parsers := parsers r;
       parserHandles := parserHandles r; psdDataCache := psdDataCache r ∖ {[file]} |}
  else r.

(** [invalidateForFonts]. *)
Definition invalidateForFonts (r : Renderer) : Renderer :=
  if moduleLoaded r then
    {| moduleLoaded := moduleLoaded r;
       parsers := foldl (λ ps handle, releaseParser handle ps) (parsers r)
                    (map_to_list (parserHandles r)).*2;
       parserHandles := ∅; psdDataCache := psdDataCache r |}
  else r.

(** The calls that reach the table. *)
Inductive Call :=
| callCachePsdData (file : string)
| callParsePsd (file : string) (starts loads : bool)
| callRender (file : string) (starts loads : bool)
| callRelease (file : string)
| callInvalidateForFonts.

Definition perform (r : Renderer) (c : Call) : Renderer :=
  match c with
  | callCachePsdData file => cachePsdData file r
  | callParsePsd file starts loads => (parsePsd file starts loads r).1
  | callRender file starts loads => (handleFor file starts loads r).1
  | callRelease file => release file r
  | callInvalidateForFonts => invalidateForFonts r
  end.

Definition performAll (calls : list Call) : Renderer :=
  foldl perform initialRenderer calls.

(** *** Specification vocabulary *)

(** The table and the record of handles agree: a slot holds a parser
    exactly when its handle is recorded for a file, no two files share a
    handle, handles lie in the range of the table, and nothing is
    recorded before the module is loaded. *)
Definition agree (r : Renderer) : Prop :=
  (∀ handle, handle ∈ parsers r ↔ ∃ file, parserHandles r !! file = Some handle) ∧
  (∀ file1 file2 handle,
     parserHandles r !! file1 = Some handle → parserHandles r !! file2 = Some handle →
     file1 = file2) ∧
  (∀ handle, handle ∈ parsers r → (1 ≤ handle < 16)%nat) ∧
  (moduleLoaded r = false → parserHandles r = ∅).

End QtRenderer.

(** ** Sample documents and configs *)

Module Samples.
Import Js Interaction.

(** An element with only its [layerId] and [type]. *)
Definition element (layerId0 : Z) (type0 : string) : InteractionElement :=
  {| layerId := layerId0; type := type0; action := None; target := None;
     format := None; name := None; value := None; showOn := None;
     targets := None; group := None; delay := undefined; triggerOn := None |}.

Definition named (name0 : string) (e : InteractionElement) : InteractionElement :=
  {| layerId := layerId e; type := type e; action := action e; target := target e;
     format := format e; name := Some name0; value := value e; showOn := showOn e;
     targets := targets e; group := group e; delay := delay e;
     triggerOn := triggerOn e |}.

Definition acting (action0 target0 : string) (e : InteractionElement)
    : InteractionElement :=
  {| layerId := layerId e; type := type e; action := Some action0;
     target := Some target0; format := format e; name := name e; value := value e;
     showOn := showOn e; targets := targets e; group := group e; delay := delay e;
     triggerOn := triggerOn e |}.

Definition valued (value0 : string) (e : InteractionElement) : InteractionElement :=
  {| layerId := layerId e; type := type e; action := action e; target := target e;
     format := format e; name := name e; value := Some value0; showOn := showOn e;
     targets := targets e; group := group e; delay := delay e;
     triggerOn := triggerOn e |}.

Definition grouped (group0 : string) (e : InteractionElement) : InteractionElement :=
  {| layerId := layerId e; type := type e; action := action e; target := target e;
     format := format e; name := name e; value := value e; showOn := showOn e;
     targets := targets e; group := Some group0; delay := delay e;
     triggerOn := triggerOn e |}.

Definition timed (delay0 : Unknown) (triggerOn0 : list string) (e : InteractionElement)
    : InteractionElement :=
  {| layerId := layerId e; type := type e; action := action e; target := target e;
     format := format e; name := name e; value := value e; showOn := showOn e;
     targets := targets e; group := group e; delay := delay0;
     triggerOn := Some triggerOn0 |}.

(** A visible layer of the given id and kind. *)
Definition layerOf (id0 : Z) (type0 : PsdStore.LayerType) : PsdStore.LayerInfo :=
  {| PsdStore.id := id0; PsdStore.name := EmptyString; PsdStore.x := 0;
     PsdStore.y := 0; PsdStore.width := 0; PsdStore.height := 0;
     PsdStore.visible := negb (bool_decide (type0 = PsdStore.groupEnd));
     PsdStore.type := type0 |}.


(** Two screen folders, 10 and 20, with a text layer each. *)
Definition twoScreenLayers : list PsdStore.LayerInfo :=
  [layerOf 10 PsdStore.group; layerOf 11 PsdStore.layer; layerOf 10 PsdStore.groupEnd;
   layerOf 20 PsdStore.group; layerOf 21 PsdStore.layer; layerOf 20 PsdStore.groupEnd].

(** The document without the folder of layer 10. *)
Definition oneScreenLayers : list PsdStore.LayerInfo :=
  [layerOf 20 PsdStore.group; layerOf 21 PsdStore.layer; layerOf 20 PsdStore.groupEnd].

Definition screenA : InteractionElement := named "a" (element 10 "screen").
Definition screenB : InteractionElement := named "b" (element 20 "screen").

(** Screens [a] (layer 10) and [b] (layer 20). *)
Definition twoScreens : InteractionConfig :=
  {| elements := [screenA; screenB]; screens := ["a"; "b"]; initialScreen := "a" |}.

(** The folder of screen [a] is also a button that leads to [b]. *)
Definition tabbedScreens : InteractionConfig :=
  {| elements := [screenA; screenB; acting "navigate" "b" (element 10 "button")];
     screens := ["a"; "b"]; initialScreen := "a" |}.

(** A timer that returns from [b] to [a] after 3 seconds. *)
Definition backTimer : InteractionElement :=
  timed (number 3) ["b"] (acting "navigate" "a" (element 0 "timer")).

(** A timer on [a] without a delay. *)
Definition idleTimer : InteractionElement :=
  timed undefined ["a"] (acting "navigate" "b" (element 0 "timer")).

Definition timedScreens : InteractionConfig :=
  {| elements := [screenA; screenB; backTimer; idleTimer];
     screens := ["a"; "b"]; initialScreen := "a" |}.

(** A two-character display without a configured value, and two
    one-character displays. *)
Definition counter : InteractionElement := named "count" (element 11 "display").
Definition digit1 : InteractionElement := valued "-" (named "d1" (element 12 "display")).
Definition digit2 : InteractionElement := valued "-" (named "d2" (element 13 "display")).

Definition digitConfig : InteractionConfig :=
  {| elements := [screenA; counter; digit1; digit2];
     screens := ["a"]; initialScreen := "a" |}.

(** The display [count] shares its layer with a later display [sign]
    whose configured value is '-'. *)
Definition sign : InteractionElement := valued "-" (named "sign" (element 11 "display")).

Definition sharedDisplay : InteractionConfig :=
  {| elements := [screenA; counter; sign]; screens := ["a"]; initialScreen := "a" |}.

(** A key that enters [digit] into the displays named by [target0]. *)
Definition digitKey (target0 digit : string) : InteractionElement :=
  valued digit (acting "input_digit" target0 (element 14 "input_digit")).

(** A key that clears the displays named by [target0]. *)
Definition clearKey (target0 : string) : InteractionElement :=
  acting "clear_input" target0 (element 15 "clear_input").

(** A highlight group [vote] with the members [yes] and [no]. *)
Definition voteYes : InteractionElement :=
  grouped "vote" (named "yes" (element 31 "highlight")).
Definition voteNo : InteractionElement :=
  grouped "vote" (named "no" (element 32 "highlight")).

Definition voteConfig : InteractionConfig :=
  {| elements := [screenA; voteYes; voteNo]; screens := ["a"]; initialScreen := "a" |}.

(** A second member of [vote] named [yes], on layer 32; a member [no] on
    the layer of [yes]. *)
Definition voteYesTwin : InteractionElement :=
  grouped "vote" (named "yes" (element 32 "highlight")).
Definition voteNoStacked : InteractionElement :=
  grouped "vote" (named "no" (element 31 "highlight")).

Definition twinVote : InteractionConfig :=
  {| elements := [screenA; voteYes; voteYesTwin]; screens := ["a"]; initialScreen := "a" |}.

Definition stackedVote : InteractionConfig :=
  {| elements := [screenA; voteYes; voteNoStacked]; screens := ["a"];
     initialScreen := "a" |}.

Definition select (target0 : string) : InteractionElement :=
  acting "show_highlight" target0 (element 33 "button").

Definition toggle (target0 : string) : InteractionElement :=
  acting "toggle_highlight" target0 (element 34 "button").

(** Screen [a] also carries [showOn: ["b"]]. *)
Definition screenAShownOnB : InteractionElement :=
  {| layerId := 10; type := "screen"; action := None; target := None;
     format := None; name := Some "a"; value := None; showOn := Some ["b"];
     targets := None; group := None; delay := undefined; triggerOn := None |}.

Definition overlappingScreens : InteractionConfig :=
  {| elements := [screenAShownOnB; screenB]; screens := ["a"; "b"];
     initialScreen := "a" |}.

(** The layer of screen [a] is also the layer of a popup, of a highlight,
    of a screen element named [c]. *)
Definition screenWithPopup : InteractionConfig :=
  {| elements := [screenA; screenB; named "confirm" (element 10 "popup")];
     screens := ["a"; "b"]; initialScreen := "b" |}.

Definition screenWithHighlight : InteractionConfig :=
  {| elements := [screenA; screenB; grouped "vote" (named "yes" (element 10 "highlight"))];
     screens := ["a"; "b"]; initialScreen := "b" |}.

Definition screenRenamed : InteractionConfig :=
  {| elements := [screenA; screenB; named "c" (element 10 "screen")];
     screens := ["a"; "b"; "c"]; initialScreen := "b" |}.

(** A popup on a layer that the document does not have. *)
Definition strayPopup : InteractionElement := named "confirm" (element 99 "popup").

Definition popupConfig : InteractionConfig :=
  {| elements := [screenA; screenB; strayPopup]; screens := ["a"; "b"];
     initialScreen := "a" |}.

(** A layer with a rectangle. *)
Definition placed (id0 : Z) (type0 : PsdStore.LayerType) (x0 y0 width0 height0 : Z)
    : PsdStore.LayerInfo :=
  {| PsdStore.id := id0; PsdStore.name := EmptyString; PsdStore.x := x0;
     PsdStore.y := y0; PsdStore.width := width0; PsdStore.height := height0;
     PsdStore.visible := true; PsdStore.type := type0 |}.

(** A folder without extent that holds a layer and a subfolder with one
    layer, followed by a layer outside of it. *)
Definition panelLayers : list PsdStore.LayerInfo :=
  [placed 1 PsdStore.group 0 0 0 0;
   placed 2 PsdStore.layer 10 20 30 40;
   placed 3 PsdStore.group 0 0 0 0;
   placed 4 PsdStore.layer 5 50 10 10;
   layerOf 3 PsdStore.groupEnd;
   layerOf 1 PsdStore.groupEnd;
   placed 5 PsdStore.layer 100 100 50 50].

(** The two screens with a button on the layer 21, inside the folder of
    screen [b], that leads to [a]. *)
Definition backButton : InteractionElement :=
  acting "navigate" "a" (element 21 "button").

Definition buttonOnB : InteractionConfig :=
  {| elements := [screenA; screenB; backButton]; screens := ["a"; "b"];
     initialScreen := "a" |}.

(** The two screens with a popup on the layer 21 of the document. *)
Definition confirmPopup : InteractionElement := named "confirm" (element 21 "popup").

Definition dialogConfig : InteractionConfig :=
  {| elements := [screenA; screenB; confirmPopup]; screens := ["a"; "b"];
     initialScreen := "a" |}.

Definition openConfirm : InteractionElement :=
  acting "show_popup" "confirm" (element 11 "button").

Definition closeConfirm : InteractionElement :=
  {| layerId := 11; type := "button"; action := Some "hide_popup"; target := None;
     format := None; name := None; value := None; showOn := None;
     targets := None; group := None; delay := undefined; triggerOn := None |}.

(** The two screens with a clock on the layer 11 and one on the layer 21. *)
Definition clockA : InteractionElement := element 11 "clock".
Definition clockB : InteractionElement := element 21 "clock".

Definition clockConfig : InteractionConfig :=
  {| elements := [screenA; clockA; screenB; clockB]; screens := ["a"; "b"];
     initialScreen := "a" |}.

(** A document with a folder 1 that holds the layer 2 and the folder 3
    with the layer 4, and the layer 5 beside it. *)
Definition leafRow (rowId : Z) : QtModule.Row :=
  QtModule.mkRow rowId EmptyString 0 0 10 10 true [].

Definition folderRow (rowId : Z) (rows : list QtModule.Row) : QtModule.Row :=
  QtModule.mkRow rowId EmptyString 0 0 0 0 true rows.

Definition documentRows : list QtModule.Row :=
  [folderRow 1 [leafRow 2; folderRow 3 [leafRow 4]]; leafRow 5].

(** A tree view with a folder ["Home"] that holds ["OK Button"] and
    ["Title"], beside a layer ["Background"]. *)
Definition namedLayer (id0 : Z) (name0 : string) (type0 : PsdStore.LayerType)
    : PsdStore.LayerInfo :=
  {| PsdStore.id := id0; PsdStore.name := name0; PsdStore.x := 0;
     PsdStore.y := 0; PsdStore.width := 0; PsdStore.height := 0;
     PsdStore.visible := true; PsdStore.type := type0 |}.

Definition homeTree : list LayerTree.LayerTreeNode :=
  [LayerTree.mkNode (namedLayer 1 "Home" PsdStore.group)
     [LayerTree.mkNode (namedLayer 2 "OK Button" PsdStore.layer) [] false;
      LayerTree.mkNode (namedLayer 3 "Title" PsdStore.layer) [] false] true;
   LayerTree.mkNode (namedLayer 4 "Background" PsdStore.layer) [] false].

(** A chat with a key, one earlier exchange and a stored config. *)
Definition earlierChat : Conversation.ChatState :=
  {| Conversation.messages :=
       [Conversation.mkMessage Conversation.user "analyze" (Some "full prompt");
        Conversation.mkMessage Conversation.assistant "done" None];
     Conversation.apiKey := "key"; Conversation.sending := false;
     Conversation.interactionConfig := Some (ChatStore.jobject []);
     Conversation.systemContext := None; Conversation.layerJson := None;
     Conversation.suggestedReply := Some "yes" |}.

(** A line of the event stream that carries the text [text]. *)
Definition deltaEvent (text : string) : string :=
  "data: {" +:+ String ChatStore.quote "type" +:+ String ChatStore.quote ":"
  +:+ String ChatStore.quote "content_block_delta" +:+ String ChatStore.quote ","
  +:+ String ChatStore.quote "delta" +:+ String ChatStore.quote ":{"
  +:+ String ChatStore.quote "text" +:+ String ChatStore.quote ":"
  +:+ String ChatStore.quote text +:+ String ChatStore.quote "}}".

(** Two chunks with one event each, and the end of the stream. *)
Definition helloStream : list string :=
  [deltaEvent "Hel" +:+ String ChatStore.newline (String ChatStore.newline "");
   deltaEvent "lo" +:+ String ChatStore.newline
     (String ChatStore.newline "data: [DONE]")].

End Samples.

(** ** Facts about the visibility resolver *)

Module VisibilityFacts.
Import PsdStore.

Lemma findIndex_Some layers layerId i :
  findIndex layerId layers = Some i ↔ ∃ l, firstWithId layers layerId i l.
Proof.
  unfold findIndex, firstWithId. split.
  - intros H. destruct (list_find _ layers) as [[i' l]|] eqn:E; simplify_eq/=.
    apply list_find_Some in E as (? & ? & Hmin). exists l. split_and!; [done..|].
    intros j l' ? ? ?. by eapply Hmin.
  - intros (l & Hl & Hid & Hmin).
    assert (list_find (λ l, id l = layerId) layers = Some (i, l)) as ->; [|done].
    apply list_find_Some. split_and!; [done..|]. intros j y ? ? ?. by eapply Hmin.
Qed.


Lemma find_Some layers layerId l :
  find layerId layers = Some l ↔ ∃ i, firstWithId layers layerId i l.
Proof.
  unfold find, firstWithId. split.
  - intros H. destruct (list_find _ layers) as [[i l']|] eqn:E; simplify_eq/=.
    apply list_find_Some in E as (? & ? & Hmin). exists i. split_and!; [done..|].
    intros j l' ? ? ?. by eapply Hmin.
  - intros (i & Hl & Hid & Hmin).
    assert (list_find (λ l, id l = layerId) layers = Some (i, l)) as ->; [|done].
    apply list_find_Some. split_and!; [done..|]. intros j y ? ? ?. by eapply Hmin.
Qed.

Lemma firstWithId_unique layers layerId i l i' l' :
  firstWithId layers layerId i l → firstWithId layers layerId i' l' → i = i' ∧ l = l'.
Proof.
  intros (Hl & Hid & Hmin) (Hl' & Hid' & Hmin').
  assert (i = i') as ->.
  { destruct (Nat.lt_total i i') as [?|[?|?]]; [|done|].
    - by destruct (Hmin' _ _ Hl).
    - by destruct (Hmin _ _ Hl'). }
  split; congruence.
Qed.

(** The accumulator of the scan only grows at its end. *)
Lemma ancestorScan_acc layers i depth acc :
  ancestorScan layers i depth acc = (acc ++ ancestorScan layers i depth [])%list.
Proof.
  revert depth acc. induction i as [|i IH]; intros depth acc; simpl.
  - by rewrite app_nil_r.
  - destruct (layers !! i) as [l|]; [|done].
    destruct (type l); [done| |done].
    destruct depth; [|done].
    rewrite (IH O (acc ++ [id l])%list), (IH O [id l]). by rewrite app_assoc.
Qed.

Lemma scanAt_le layers start i depth : scanAt layers start i depth → (i ≤ start)%nat.
Proof. induction 1; lia. Qed.

(** The scan is deterministic: its counter is a function of the index. *)
Lemma scanAt_depth_unique layers start i d1 d2 :
  scanAt layers start i d1 → scanAt layers start i d2 → d1 = d2.
Proof.
  intros H1. revert d2.
  induction H1 as [|i d l H IH Hl Ht|i l H IH Hl Ht|i d l H IH Hl Ht|i d l H IH Hl Ht];
    intros d2 H2;
    inversion H2 as [Hs|? d' l' H' Hl' Ht'|? l' H' Hl' Ht'
                    |? d' l' H' Hl' Ht'|? d' l' H' Hl' Ht'];
    subst;
    try (match goal with
         | H : scanAt _ ?s (S ?s) _ |- _ => apply scanAt_le in H; lia
         end);
    try done;
    try (rewrite Hl in Hl'; simplify_eq; congruence);
    try (specialize (IH _ H'); congruence).
Qed.

(** The ids the scan collects from index [i] on are those of the groups it
    meets below [i] with its counter at zero. *)
Lemma ancestorScan_spec layers start i depth a :
  (start ≤ length layers)%nat →
  scanAt layers start i depth →
  a ∈ ancestorScan layers i depth [] ↔
  ∃ j g, (j < i)%nat ∧ scanAncestor layers start j g ∧ id g = a.
Proof.
  intros Hlen. revert depth. induction i as [|i IH]; intros depth Hs; simpl.
  - split; [by intros ?%elem_of_nil|]. intros (j & ? & ? & _). lia.
  - pose proof (scanAt_le _ _ _ _ Hs) as Hle.
    destruct (layers !! i) as [l|] eqn:Hl; last first.
    { apply lookup_ge_None in Hl. lia. }
    assert (∀ j g, (j < S i)%nat ∧ scanAncestor layers start j g ∧ id g = a ↔
              (j = i ∧ scanAncestor layers start i g ∧ id g = a) ∨
              ((j < i)%nat ∧ scanAncestor layers start j g ∧ id g = a)) as Hsplit.
    { intros j g. split.
      - intros (Hj & ? & ?).
        destruct (decide (j = i)) as [->|]; [left|right]; (split; [|done]); [done|lia].
      - intros [(-> & ? & ?)|(? & ? & ?)]; (split; [lia|done]). }
    destruct (type l) eqn:Ht.
    + rewrite (IH depth); [|by eapply scan_layer].
      split; intros (j & g & H); exists j, g; [apply Hsplit; by right|].
      apply Hsplit in H as [(-> & (_ & Hg & Htg) & _)|H]; [|done]. congruence.
    + destruct depth as [|d].
      * rewrite ancestorScan_acc, elem_of_app, list_elem_of_singleton.
        rewrite (IH O); [|by eapply scan_group_ancestor].
        split.
        -- intros [->|(j & g & H)].
           ++ exists i, l. apply Hsplit. left. by repeat split.
           ++ exists j, g. apply Hsplit. by right.
        -- intros (j & g & H). apply Hsplit in H as [(-> & (_ & Hg & _) & Hid)|H].
           ++ left. congruence.
           ++ right. by exists j, g.
      * rewrite (IH d); [|by eapply scan_group_skipped].
        split; intros (j & g & H); exists j, g; [apply Hsplit; by right|].
        apply Hsplit in H as [(-> & (Hs0 & _) & _)|H]; [|done].
        by pose proof (scanAt_depth_unique _ _ _ _ _ Hs Hs0).
    + rewrite (IH (S depth)); [|by eapply scan_groupEnd].
      split; intros (j & g & H); exists j, g; [apply Hsplit; by right|].
      apply Hsplit in H as [(-> & (_ & Hg & Htg) & _)|H]; [|done]. congruence.
Qed.

Lemma getAncestorGroupIds_spec layers layerIndex a :
  (layerIndex ≤ length layers)%nat →
  a ∈ getAncestorGroupIds layers layerIndex ↔
  ∃ j g, scanAncestor layers layerIndex j g ∧ id g = a.
Proof.
  intros Hlen. unfold getAncestorGroupIds.
  rewrite (ancestorScan_spec layers layerIndex layerIndex O a Hlen); [|constructor].
  split.
  - intros (j & g & _ & ?). by exists j, g.
  - intros (j & g & Ha & ?). exists j, g. split; [|done].
    destruct Ha as (Hs & _). apply scanAt_le in Hs. lia.
Qed.

Lemma ancestorsVisible_true layers overrides ancestorIds :
  ancestorsVisible layers overrides ancestorIds = true ↔
  ∀ a l, a ∈ ancestorIds → find a layers = Some l →
    overrideOr overrides a (visible l) = true.
Proof.
  induction ancestorIds as [|a rest IH]; simpl.
  - split; [|done]. by intros _ ? ? ?%elem_of_nil.
  - destruct (find a layers) as [l|] eqn:Hf.
    + destruct (overrideOr overrides a (visible l)) eqn:Hv; simpl.
      * rewrite IH. split.
        -- intros H a' l' [->|?]%elem_of_cons ?; [congruence|by eapply H].
        -- intros H a' l' ? ?. eapply H; [by right|done].
      * split; [done|]. intros H. rewrite <- Hv. eapply H; [by left|done].
    + rewrite IH. split.
      * intros H a' l' [->|?]%elem_of_cons ?; [congruence|by eapply H].
      * intros H a' l' ? ?. eapply H; [by right|done].
Qed.

(** The resolver without any assumption on ids: the flag of an id is read
    from the first layer that carries it. *)
Lemma computeEffectiveVisibility_true layers layerId overrides :
  computeEffectiveVisibility layers layerId overrides = true ↔
  ∃ i l, firstWithId layers layerId i l ∧ ownVisibility overrides l = true ∧
    ∀ j g g', scanAncestor layers i j g → find (id g) layers = Some g' →
      overrideOr overrides (id g) (visible g') = true.
Proof.
  unfold computeEffectiveVisibility, ownVisibility. split.
  - destruct (findIndex layerId layers) as [i|] eqn:Hi; [|done].
    pose proof Hi as [l Hfirst]%findIndex_Some.
    pose proof Hfirst as (Hl & Hid & _). rewrite Hl.
    destruct (overrideOr overrides layerId (visible l)) eqn:Hown; simpl; [|done].
    intros Hanc. exists i, l. split_and!; [done|by rewrite Hid|].
    intros j g g' Hsa Hg'.
    rewrite ancestorsVisible_true in Hanc. eapply Hanc; [|done].
    apply getAncestorGroupIds_spec; [|by exists j, g].
    apply lookup_lt_Some in Hl. lia.
  - intros (i & l & Hfirst & Hown & Hanc).
    assert (findIndex layerId layers = Some i) as -> by (apply findIndex_Some; eauto).
    destruct Hfirst as (Hl & Hid & _). rewrite Hl. rewrite Hid in Hown. rewrite Hown. simpl.
    apply ancestorsVisible_true. intros a g' Ha Hg'.
    apply getAncestorGroupIds_spec in Ha as (j & g & Hsa & <-); [by eapply Hanc|].
    apply lookup_lt_Some in Hl. lia.
Qed.





End VisibilityFacts.

(** ** Facts about the config parser *)

Module ChatFacts.
Import ChatStore.

Lemma elementsIsArray_dec parsed : elementsIsArray parsed ∨ ¬ elementsIsArray parsed.
Proof.
  unfold elementsIsArray.
  destruct (getProperty "elements" parsed) as [[]|]; eauto; right; intros [? ?]; done.
Qed.

Lemma elementsIsArray_null : ¬ elementsIsArray jnull.
Proof. intros [? ?]. done. Qed.



(** *** The first fenced block *)

Lemma substring_all s : String.substring 0 (String.length s) s = s.
Proof. induction s as [|c s IH]; simpl; [done|]. by rewrite IH. Qed.

Lemma prefix_head_differs c p c' s :
  c ≠ c' → String.prefix (String c p) (String c' s) = false.
Proof. intros Hne. cbn [String.prefix]. by destruct (ascii_dec c c'). Qed.

Lemma fenceAt_other c s : c ≠ "`"%char → fenceAt (String c s) = None.
Proof.
  intros Hc. unfold fenceAt. by rewrite prefix_head_differs.
Qed.

(** Text without a backquote cannot start a fence: the match is sought
    after it. *)
Lemma matchJsonFence_skip pre rest :
  (∀ c, c ∈ list_ascii_of_string pre → c ≠ "`"%char) →
  matchJsonFence (pre +:+ rest) = matchJsonFence rest.
Proof.
  induction pre as [|c pre IH]; intros Hpre; [done|].
  change (String c pre +:+ rest) with (String c (pre +:+ rest)).
  cbn [matchJsonFence]. rewrite fenceAt_other by (apply Hpre; left).
  apply IH. intros c' Hc'. apply Hpre. by right.
Qed.

Lemma fenceAt_open rest :
  fenceAt ("```json" +:+ rest) = firstClosed (afterHeader rest).
Proof.
  unfold fenceAt.
  change ("```json" +:+ rest)
    with (String "`" (String "`" (String "`" (String "j" (String "s"
            (String "o" (String "n" rest))))))).
  match goal with
  | |- (if ?b then _ else _) = _ => assert (b = true) as -> by (cbn; by destruct rest)
  end.
  cbn [String.length Nat.sub String.substring].
  by rewrite Nat.sub_0_r, substring_all.
Qed.

Lemma closingFence_line body post :
  (∀ c, c ∈ list_ascii_of_string body → c ≠ newline) →
  closingFence (body +:+ String newline "```" +:+ post) = Some body.
Proof.
  unfold closingFence. induction body as [|c body IH]; intros Hbody.
  - change (EmptyString +:+ String newline "```" +:+ post)
      with (String newline (String "`" (String "`" (String "`" post)))).
    unfold splitAtFirst.
    assert (String.prefix (String newline "```")
              (String newline (String "`" (String "`" (String "`" post)))) = true)
      as -> by (cbn; by destruct post).
    done.
  - change (String c body +:+ String newline "```" +:+ post)
      with (String c (body +:+ String newline "```" +:+ post)).
    cbn [splitAtFirst].
    rewrite prefix_head_differs by (intros Heq; by destruct (Hbody c); [left|]).
    specialize (IH (λ c' Hc', Hbody c' (list_elem_of_further _ _ _ Hc'))).
    destruct (splitAtFirst _ _) as [[before after]|]; simpl in *; [|done].
    by simplify_eq.
Qed.

(** A response that opens its first fence after text free of backquotes,
    with a body of one line that does not begin with white space: the
    match is that body, whatever follows the closing fence (further
    fenced blocks included). *)
Lemma matchJsonFence_first pre c body post :
  (∀ a, a ∈ list_ascii_of_string pre → a ≠ "`"%char) →
  Js.isWhiteSpace c = false →
  (∀ a, a ∈ list_ascii_of_string (String c body) → a ≠ newline) →
  matchJsonFence
    (pre +:+ "```json" +:+ String newline (String c body)
         +:+ String newline "```" +:+ post)
  = Some (String c body).
Proof.
  intros Hpre Hc Hbody. rewrite matchJsonFence_skip by done.
  set (rest := String newline (String c body) +:+ String newline "```" +:+ post).
  destruct ("```json" +:+ rest) as [|c0 s0] eqn:Htext; [done|].
  cbn [matchJsonFence]. rewrite <- Htext, fenceAt_open. unfold rest.
  change (String newline (String c body) +:+ String newline "```" +:+ post)
    with (String newline (String c (body +:+ String newline "```" +:+ post))).
  cbn [afterHeader]. rewrite Hc.
  change (Js.isWhiteSpace newline) with true. cbn [Ascii.eqb].
  change (Ascii.eqb newline newline) with true. simpl app. cbn [firstClosed].
  change (String c (body +:+ String newline "```" +:+ post))
    with (String c body +:+ String newline "```" +:+ post).
  by rewrite closingFence_line.
Qed.


End ChatFacts.

(** ** Facts about the interaction runtime *)

Module InteractionFacts.
Import Js Interaction.

(** *** Sliders *)

(** C8. [setSliderValue] writes the entry of [layerId] in [sliderValues]
    and nothing else: the other slider entries, the screen, popups,
    highlights, texts, timers and visibility overrides stay as they were,
    and no request (text push, batch or recomposite) is issued. *)
Theorem setSliderValue_frame (layerId0 value0 : Z) (w : World) :
  let w' := setSliderValue layerId0 value0 w in
  sliderValues (store w') = <[layerId0 := value0]> (sliderValues (store w)) ∧
  (∀ k, k ≠ layerId0 → sliderValues (store w') !! k = sliderValues (store w) !! k) ∧
  config (store w') = config (store w) ∧
  currentScreen (store w') = currentScreen (store w) ∧
  elementScreenMap (store w') = elementScreenMap (store w) ∧
  activePopups (store w') = activePopups (store w) ∧
  selectedHighlights (store w') = selectedHighlights (store w) ∧
  dynamicTexts (store w') = dynamicTexts (store w) ∧
  clockTimers (store w') = clockTimers (store w) ∧
  screenTimerIds (store w') = screenTimerIds (store w) ∧
  timers w' = timers w ∧
  nextTimerId w' = nextTimerId w ∧
  psd w' = psd w ∧
  visibilityOverrides w' = visibilityOverrides w ∧
  requests w' = requests w.
Proof.
  simpl. split_and!; try reflexivity.
  intros k Hk. by rewrite lookup_insert_ne.
Qed.

(** *** Screen timers *)

Lemma startScreenTimer_loop screenName l ids0 w0 ids w' :
  foldl (startScreenTimer screenName) (ids0, w0) l = (ids, w') →
  let armed := filter (triggersOn screenName) l in
  ids = (ids0 ++ seq (nextTimerId w0) (length armed))%list ∧
  nextTimerId w' = (nextTimerId w0 + length armed)%nat ∧
  sameButTimers w0 w' ∧
  ∀ id, timers w' !! id =
    if decide (nextTimerId w0 ≤ id < nextTimerId w0 + length armed)%nat
    then (λ e, screenTimeout e (timerDelay e) screenName (navigations w0))
           <$> armed !! (id - nextTimerId w0)%nat
    else timers w0 !! id.
Proof.
  revert ids0 w0. induction l as [|e l IH]; intros ids0 w0.
  - simpl. intros [= <- <-]. rewrite app_nil_r, Nat.add_0_r. split_and!; try done.
    intros id. case_decide; [lia|done].
  - change (foldl (startScreenTimer screenName) (ids0, w0) (e :: l))
      with (foldl (startScreenTimer screenName) (startScreenTimer screenName (ids0, w0) e) l).
    rewrite filter_cons. destruct (decide (triggersOn screenName e)) as [Ht|Ht].
    + assert (startScreenTimer screenName (ids0, w0) e =
              ((ids0 ++ [nextTimerId w0])%list,
               (addTimer (screenTimeout e (timerDelay e) screenName (navigations w0)) w0).2))
        as ->.
      { destruct Ht as (tr & Htr & Hin). unfold startScreenTimer. rewrite Htr.
        by rewrite bool_decide_eq_true_2 by done. }
      intros H. apply IH in H as (-> & Hn & Hsame & Hlk). simpl in *.
      split_and!.
      * by rewrite <- app_assoc.
      * lia.
      * destruct Hsame as (? & ? & ? & ? & ?). by split_and!.
      * intros id. rewrite Hlk. clear Hlk.
        destruct Hsame as (_ & _ & _ & Hnav & _). simpl in Hnav.
        repeat case_decide; try lia.
        -- replace (id - nextTimerId w0)%nat with (S (id - S (nextTimerId w0))) by lia.
           done.
        -- assert (id = nextTimerId w0) as -> by lia.
           rewrite lookup_insert_eq, Nat.sub_diag. done.
        -- rewrite lookup_insert_ne by lia. done.
    + assert (startScreenTimer screenName (ids0, w0) e = (ids0, w0)) as ->.
      { unfold startScreenTimer. destruct (triggerOn e) as [tr|] eqn:Htr; [|done].
        case_bool_decide; [|done]. destruct Ht. by exists tr. }
      apply IH.
Qed.

(** What [startScreenTimers] does: it hands out consecutive fresh handles,
    one per armed element, and touches nothing but the timers. *)
Lemma startScreenTimers_spec cfg screenName w ids w' :
  startScreenTimers cfg screenName w = (ids, w') →
  let armed := armedElements cfg screenName in
  ids = seq (nextTimerId w) (length armed) ∧
  nextTimerId w' = (nextTimerId w + length armed)%nat ∧
  sameButTimers w w' ∧
  ∀ id, timers w' !! id =
    if decide (nextTimerId w ≤ id < nextTimerId w + length armed)%nat
    then (λ e, screenTimeout e (timerDelay e) screenName (navigations w))
           <$> armed !! (id - nextTimerId w)%nat
    else timers w !! id.
Proof. unfold startScreenTimers. intros H. by apply startScreenTimer_loop in H. Qed.

(** C10. Every timer element that [startScreenTimers] arms for a screen
    gets a timeout whose delay is 5 seconds (5000 ms) when its [delay]
    field is absent or not a number, and exactly [delay * 1000] ms when
    it is a number. *)
Theorem startScreenTimers_delay cfg screenName w elem :
  elem ∈ elements cfg → type elem = "timer" → triggersOn screenName elem →
  let '(ids, w') := startScreenTimers cfg screenName w in
  ∃ id task, id ∈ ids ∧ timers w' !! id = Some task ∧
    task = screenTimeout elem
             (match delay elem with
              | number n => n * 1000
              | _ => 5000
              end)
             screenName (navigations w).
Proof.
  intros Hin Hty Htr.
  destruct (startScreenTimers cfg screenName w) as [ids w'] eqn:Hs.
  apply startScreenTimers_spec in Hs as (-> & _ & _ & Ht).
  assert (elem ∈ armedElements cfg screenName) as Harmed.
  { unfold armedElements. by rewrite !list_elem_of_filter. }
  apply list_elem_of_lookup in Harmed as [k Hk].
  pose proof (lookup_lt_Some _ _ _ Hk) as Hlt.
  exists (nextTimerId w + k)%nat,
    (screenTimeout elem (timerDelay elem) screenName (navigations w)).
  split_and!.
  - apply list_elem_of_lookup. exists k. by rewrite lookup_seq_lt.
  - rewrite Ht. rewrite decide_True by lia.
    replace (nextTimerId w + k - nextTimerId w)%nat with k by lia. by rewrite Hk.
  - f_equal. unfold timerDelay. by destruct (delay elem).
Qed.

(** *** The bookkeeping of screen timers is an invariant *)

Lemma timersTracked_view w w' :
  timerView w' = timerView w → timersTracked w → timersTracked w'.
Proof.
  unfold timerView, timersTracked, handlesIssued. intros [= Ht Hn Hnav Hids Hcur Hcfg].
  rewrite Ht, Hn, Hnav, Hids, Hcur, Hcfg. done.
Qed.

(** Removing timers, or adding fresh ones that are no screen timeouts,
    keeps the invariant. *)
Lemma timersTracked_weaken w w' :
  navigations w' = navigations w →
  screenTimerIds (store w') = screenTimerIds (store w) →
  currentScreen (store w') = currentScreen (store w) →
  config (store w') = config (store w) →
  (nextTimerId w ≤ nextTimerId w')%nat →
  (∀ id task, timers w' !! id = Some task →
     timers w !! id = Some task ∨
     ((id < nextTimerId w')%nat ∧
      ∀ elem ms screenName armedAt, task ≠ screenTimeout elem ms screenName armedAt)) →
  timersTracked w → timersTracked w'.
Proof.
  intros Hnav Hids Hcur Hcfg Hnext Hsub (Hscreen & Hfresh & Hlisted).
  split_and!.
  - intros id elem ms scr ep Hid. rewrite Hnav, Hids, Hcur, Hcfg.
    destruct (Hsub _ _ Hid) as [Hold|[_ Hno]];
      [by eapply Hscreen|by destruct (Hno elem ms scr ep)].
  - intros id [task Hid]. destruct (Hsub _ _ Hid) as [Hold|[? _]]; [|done].
    assert (id < nextTimerId w)%nat by (apply Hfresh; eauto). lia.
  - intros id. rewrite Hids. intros ?%Hlisted. lia.
Qed.

Lemma stopScreenTimers_timers ids w id :
  timers (stopScreenTimers ids w) !! id =
  if decide (id ∈ ids) then None else timers w !! id.
Proof.
  unfold stopScreenTimers. revert w. induction ids as [|i ids IH]; intros w.
  - destruct (decide (id ∈ [])) as [H|_]; [by apply elem_of_nil in H|done].
  - change (foldl (λ w id, clearTimer id w) w (i :: ids))
      with (foldl (λ w id, clearTimer id w) (clearTimer i w) ids).
    rewrite IH. unfold clearTimer at 1. cbn [timers withTimers].
    destruct (decide (id = i)) as [->|Hne].
    + rewrite lookup_delete_eq. destruct (decide (i ∈ i :: ids)) as [_|H]; [|destruct H; left].
      by destruct (decide (i ∈ ids)).
    + rewrite lookup_delete_ne by done.
      destruct (decide (id ∈ ids)) as [Hin|Hin], (decide (id ∈ i :: ids)) as [Hin'|Hin'];
        try done.
      * destruct Hin'. by right.
      * apply elem_of_cons in Hin' as [?|?]; done.
Qed.

Lemma stopScreenTimers_rest ids w :
  let w' := stopScreenTimers ids w in
  store w' = store w ∧ psd w' = psd w ∧
  visibilityOverrides w' = visibilityOverrides w ∧
  nextTimerId w' = nextTimerId w ∧ navigations w' = navigations w ∧
  requests w' = requests w.
Proof.
  unfold stopScreenTimers. revert w. induction ids as [|i ids IH]; intros w; simpl; [done|].
  destruct (IH (clearTimer i w)) as (-> & -> & -> & -> & -> & ->). done.
Qed.

Lemma setMultipleVisibility_store overrides w :
  let w' := setMultipleVisibility overrides w in
  store w' = store w ∧ timers w' = timers w ∧ nextTimerId w' = nextTimerId w ∧
  navigations w' = navigations w ∧ psd w' = psd w.
Proof.
  unfold setMultipleVisibility. simpl. destruct (psd w) eqn:Hp; simpl; [|done].
  destruct (PsdStore.visibilityLists _ _ _). simpl. done.
Qed.

Lemma applyScreenVisibility_store cfg screenName popups selected w :
  let w' := applyScreenVisibility cfg screenName popups selected w in
  store w' = store w ∧ timers w' = timers w ∧ nextTimerId w' = nextTimerId w ∧
  navigations w' = navigations w ∧ psd w' = psd w.
Proof.
  cbv zeta. unfold applyScreenVisibility. destruct (psd w) eqn:Hp; [|done].
  pose proof (setMultipleVisibility_store
                (screenOverrides l cfg screenName popups selected) w) as H.
  cbv zeta in H. by rewrite Hp in H.
Qed.

Lemma setMultipleVisibility_view overrides w :
  timerView (setMultipleVisibility overrides w) = timerView w.
Proof.
  unfold timerView.
  destruct (setMultipleVisibility_store overrides w) as (-> & -> & -> & -> & _). done.
Qed.

Lemma applyScreenVisibility_view cfg screenName popups selected w :
  timerView (applyScreenVisibility cfg screenName popups selected w) = timerView w.
Proof.
  unfold timerView.
  destruct (applyScreenVisibility_store cfg screenName popups selected w)
    as (-> & -> & -> & -> & _). done.
Qed.

(** Clearing the listed handles of a tracked world leaves no screen
    timeout. *)
Lemma stopScreenTimers_noScreenTimeout w :
  timersTracked w →
  let w' := stopScreenTimers (screenTimerIds (store w)) w in
  noScreenTimeout w' ∧ handlesIssued w'.
Proof.
  intros (Hscreen & Hfresh & _). cbv zeta.
  destruct (stopScreenTimers_rest (screenTimerIds (store w)) w) as (_ & _ & _ & Hn & _).
  split.
  - intros id elem ms scr ep. rewrite stopScreenTimers_timers.
    case_decide as Hin; [done|]. intros Hid.
    by destruct (Hscreen _ _ _ _ _ Hid) as (? & _).
  - intros id. rewrite stopScreenTimers_timers, Hn.
    case_decide; [by intros [? ?]|]. apply Hfresh.
Qed.

(** Arming the timers of a screen in a world without screen timeouts, and
    listing the returned handles, establishes the invariant. *)
Lemma startScreenTimers_tracked cfg screenName w ids w' :
  startScreenTimers cfg screenName w = (ids, w') →
  noScreenTimeout w → handlesIssued w →
  currentScreen (store w) = Some screenName →
  is_Some (config (store w)) →
  timersTracked (withStore (setScreenTimerIds ids) w').
Proof.
  intros Hstart Hnone Hfresh Hcur Hcfg.
  apply startScreenTimers_spec in Hstart as (Hids & Hnext & Hsame & Hlk).
  destruct Hsame as (Hst & _ & _ & Hnav & _).
  split_and!; simpl.
  - intros id elem ms scr ep. rewrite Hlk. case_decide as Hrange.
    + intros Harmed. apply fmap_Some in Harmed as (e & He & [= -> -> -> ->]).
      split_and!.
      * rewrite Hids. apply list_elem_of_lookup.
        exists (id - nextTimerId w)%nat. rewrite lookup_seq_lt by lia. f_equal. lia.
      * by rewrite Hst.
      * done.
      * apply list_elem_of_lookup_2 in He. unfold armedElements in He.
        by apply list_elem_of_filter in He as [? _].
      * by rewrite Hst.
    + intros Hid. by destruct (Hnone _ _ _ _ _ Hid).
  - intros id. simpl. rewrite Hlk. case_decide as Hrange; [lia|].
    intros ?%Hfresh. lia.
  - intros id. rewrite Hids. intros [k Hk]%list_elem_of_lookup.
    pose proof (lookup_lt_Some _ _ _ Hk) as Hlt. rewrite length_seq in Hlt.
    rewrite lookup_seq_lt in Hk by done. simplify_eq. lia.
Qed.

(** Navigation re-establishes the invariant: the listed timeouts are
    cleared before the new ones are armed and listed. *)
Lemma navigateToScreen_tracked screenName w :
  timersTracked w → timersTracked (navigateToScreen screenName w).
Proof.
  intros Htracked. unfold navigateToScreen.
  destruct (config (store w)) as [cfg|] eqn:Hcfg; [|done].
  destruct (stopScreenTimers_noScreenTimeout w Htracked) as [Hnone Hfresh].
  set (w1 := stopScreenTimers (screenTimerIds (store w)) w) in *.
  set (w2 := navigated (withStore _ w1)).
  set (w3 := applyScreenVisibility cfg screenName ∅ (selectedHighlights (store w2)) w2).
  destruct (startScreenTimers cfg screenName w3) as [ids w4] eqn:Hstart.
  destruct (applyScreenVisibility_store cfg screenName ∅ (selectedHighlights (store w2)) w2)
    as (Hst3 & Ht3 & Hn3 & Hnav3 & _). fold w3 in Hst3, Ht3, Hn3, Hnav3.
  destruct (stopScreenTimers_rest (screenTimerIds (store w)) w)
    as (Hst1 & _). fold w1 in Hst1.
  eapply startScreenTimers_tracked; [done|..].
  - intros id elem ms scr ep. rewrite Ht3. apply Hnone.
  - intros id. rewrite Ht3, Hn3. apply Hfresh.
  - by rewrite Hst3.
  - rewrite Hst3. simpl. rewrite Hst1, Hcfg. eauto.
Qed.

Lemma stopClocks_unfold w :
  stopClocks w =
  withStore (setClockTimers ∅)
    (stopScreenTimers (map_to_list (clockTimers (store w))).*2 w).
Proof. reflexivity. Qed.

Lemma stopClocks_tracked w : timersTracked w → timersTracked (stopClocks w).
Proof.
  rewrite stopClocks_unfold.
  set (ids := (map_to_list (clockTimers (store w))).*2).
  destruct (stopScreenTimers_rest ids w) as (Hst & _ & _ & Hn & Hnav & _).
  apply timersTracked_weaken; simpl; rewrite ?Hst, ?Hn, ?Hnav; try done.
  intros id task. rewrite stopScreenTimers_timers. case_decide; [done|]. by left.
Qed.

Lemma startClock_loop l m0 w0 m w' :
  foldl startClock (m0, w0) l = (m, w') →
  nextTimerId w' = (nextTimerId w0 + length l)%nat ∧
  sameButTimers w0 w' ∧
  ∀ id, timers w' !! id =
    if decide (nextTimerId w0 ≤ id < nextTimerId w0 + length l)%nat
    then clockInterval <$> l !! (id - nextTimerId w0)%nat
    else timers w0 !! id.
Proof.
  revert m0 w0. induction l as [|e l IH]; intros m0 w0.
  - simpl. intros [= <- <-]. rewrite Nat.add_0_r. split_and!; try done.
    intros id. case_decide; [lia|done].
  - change (foldl startClock (m0, w0) (e :: l))
      with (foldl startClock (<[layerId e := nextTimerId w0]> m0,
                              (addTimer (clockInterval e) w0).2) l).
    intros H. apply IH in H as (Hn & Hsame & Hlk). simpl in *.
    split_and!.
    + lia.
    + destruct Hsame as (? & ? & ? & ? & ?). by split_and!.
    + intros id. rewrite Hlk. clear Hlk.
      repeat case_decide; try lia.
      * replace (id - nextTimerId w0)%nat with (S (id - S (nextTimerId w0))) by lia. done.
      * assert (id = nextTimerId w0) as -> by lia.
        rewrite lookup_insert_eq, Nat.sub_diag. done.
      * rewrite lookup_insert_ne by lia. done.
Qed.

Lemma startClocks_tracked w : timersTracked w → timersTracked (startClocks w).
Proof.
  unfold startClocks. destruct (config (store w)) as [cfg|] eqn:Hcfg; [|done].
  destruct (foldl startClock _ _) as [m w'] eqn:Hloop.
  apply startClock_loop in Hloop as (Hn & (Hst & _ & _ & Hnav & _) & Hlk).
  apply timersTracked_weaken; simpl; try (by rewrite ?Hst); try lia.
  intros id task. rewrite Hlk. case_decide.
  - intros (e & _ & ->)%fmap_Some. right. split; [lia|done].
  - by left.
Qed.

Lemma clearTimer_tracked id w : timersTracked w → timersTracked (clearTimer id w).
Proof.
  apply timersTracked_weaken; try done. intros i task. simpl.
  intros [_ ?]%lookup_delete_Some. by left.
Qed.

Lemma pushInitialTexts_rest es w :
  let w' := pushInitialTexts es w in
  store w' = store w ∧ timers w' = timers w ∧ nextTimerId w' = nextTimerId w ∧
  navigations w' = navigations w ∧ psd w' = psd w ∧
  visibilityOverrides w' = visibilityOverrides w.
Proof.
  cbv zeta. unfold pushInitialTexts. revert w.
  induction es as [|e es IH]; intros w; [done|]. simpl.
  case_decide; [|apply IH].
  by destruct (IH (request (reqSetLayerText (layerId e) (nullish (value e) "--")) w))
    as (-> & -> & -> & -> & -> & ->).
Qed.

Lemma setConfig_tracked cfg w : timersTracked w → timersTracked (setConfig cfg w).
Proof.
  intros Htracked%stopClocks_tracked. unfold setConfig.
  set (w1 := stopClocks w) in *.
  destruct (stopScreenTimers_noScreenTimeout w1 Htracked) as [Hnone Hfresh].
  set (w2 := stopScreenTimers (screenTimerIds (store w1)) w1) in *.
  set (w3 := navigated (withStore _ w2)).
  set (w4 := pushInitialTexts (elements cfg) w3).
  set (w5 := applyScreenVisibility cfg (initialScreen cfg) ∅ ∅ w4).
  destruct (pushInitialTexts_rest (elements cfg) w3) as (Hst4 & Ht4 & Hn4 & _).
  fold w4 in Hst4, Ht4, Hn4.
  destruct (applyScreenVisibility_store cfg (initialScreen cfg) ∅ ∅ w4)
    as (Hst5 & Ht5 & Hn5 & _). fold w5 in Hst5, Ht5, Hn5.
  assert (noScreenTimeout w5) as Hnone5.
  { intros id elem ms scr ep. rewrite Ht5, Ht4. apply Hnone. }
  assert (handlesIssued w5) as Hfresh5.
  { intros id. rewrite Ht5, Ht4, Hn5, Hn4. apply Hfresh. }
  assert (currentScreen (store w5) = Some (initialScreen cfg)) as Hcur5
    by (by rewrite Hst5, Hst4).
  assert (is_Some (config (store w5))) as Hcfg5 by (rewrite Hst5, Hst4; simpl; eauto).
  set (w6 := match filter (λ e, type e = "clock") (elements cfg) with
             | [] => w5
             | _ :: _ => (addTimer startClocksTimeout w5).2
             end).
  assert (noScreenTimeout w6 ∧ handlesIssued w6 ∧ store w6 = store w5)
    as (Hnone6 & Hfresh6 & Hst6).
  { unfold w6. destruct (filter _ _); [done|]. simpl. split_and!; [| |done].
    - intros id elem ms scr ep. simpl.
      destruct (decide (id = nextTimerId w5)) as [->|Hne].
      + by rewrite lookup_insert_eq.
      + rewrite lookup_insert_ne by done. apply Hnone5.
    - intros id. simpl. destruct (decide (id = nextTimerId w5)) as [->|Hne]; [lia|].
      rewrite lookup_insert_ne by done. intros ?%Hfresh5. lia. }
  destruct (startScreenTimers cfg (initialScreen cfg) w6) as [ids w7] eqn:Hstart.
  eapply startScreenTimers_tracked; [done..| |]; by rewrite Hst6.
Qed.

Lemma clear_tracked w : timersTracked w → timersTracked (clear w).
Proof.
  intros Htracked%stopClocks_tracked. unfold clear.
  set (w1 := stopClocks w) in *.
  destruct (stopScreenTimers_noScreenTimeout w1 Htracked) as [Hnone Hfresh].
  set (w2 := stopScreenTimers (screenTimerIds (store w1)) w1) in *.
  split_and!; simpl.
  - intros id elem ms scr ep Hid. by destruct (Hnone _ _ _ _ _ Hid).
  - apply Hfresh.
  - by intros id ?%elem_of_nil.
Qed.

(** *** Branches of [executeAction] that leave the timers alone *)

Lemma shiftLeft_view ds vs i count w :
  timerView (shiftLeft ds vs i count w) = timerView w.
Proof.
  revert i w. induction count as [|count IH]; intros i w; simpl; [done|].
  destruct (ds !! i), (vs !! S i); try done. by rewrite IH.
Qed.

Lemma foldl_view {A} (f : World → A → World) (l : list A) w :
  (∀ w a, timerView (f w a) = timerView w) →
  timerView (foldl f w l) = timerView w.
Proof.
  intros Hf. revert w. induction l as [|a l IH]; intros w; simpl; [done|].
  by rewrite IH, Hf.
Qed.

Lemma actInputDigit_view element digit w :
  timerView (actInputDigit element digit w) = timerView w.
Proof.
  unfold actInputDigit. destruct (config (store w)) as [cfg|]; [|done].
  destruct (displayElemsOf cfg (targetNames element)) as [|d1 [|d2 ds]]; [done..|].
  destruct (forallb _ _); [done|].
  set (w1 := shiftLeft _ _ _ _ w).
  set (w2 := match last _ with Some d => _ | None => _ end).
  assert (timerView w2 = timerView w) as Hw2.
  { unfold w2. destruct (last _); [|apply shiftLeft_view].
    transitivity (timerView w1); [done|apply shiftLeft_view]. }
  transitivity (timerView w2); [|done].
  match goal with
  | |- timerView (request _ ?x) = _ => transitivity (timerView x); [done|]
  end.
  by apply foldl_view.
Qed.

Lemma actHighlight_view element tgt w :
  timerView (actHighlight element tgt w) = timerView w.
Proof.
  unfold actHighlight. destruct (config (store w)) as [cfg|]; [|done].
  destruct (snd <$> list_find _ _) as [targetElem|]; [|done].
  destruct (truthy (group targetElem)) as [grp|]; [|done].
  by rewrite setMultipleVisibility_view.
Qed.

Lemma actShowPopup_view tgt w : timerView (actShowPopup tgt w) = timerView w.
Proof.
  unfold actShowPopup. destruct (config (store w)) as [cfg|]; [|done].
  destruct (snd <$> list_find _ _) as [popupElem|]; [|done].
  by rewrite setMultipleVisibility_view.
Qed.

Lemma actClearInput_view element w :
  timerView (actClearInput element w) = timerView w.
Proof.
  unfold actClearInput. destruct (config (store w)) as [cfg|]; [|done].
  destruct (displayElemsOf cfg (targetNames element)) as [|d ds] eqn:Hds; [done|].
  match goal with
  | |- timerView (request _ ?x) = _ => transitivity (timerView x); [done|]
  end.
  rewrite foldl_view by done. by rewrite foldl_view by done.
Qed.

(** [executeAction] either leaves the timer bookkeeping as it is, or is a
    navigation from a world with the same bookkeeping. *)
Lemma executeAction_shape element w :
  timerView (executeAction element w) = timerView w ∨
  ∃ screenName w0, timerView w0 = timerView w ∧
    executeAction element w = navigateToScreen screenName w0.
Proof.
  unfold executeAction.
  destruct (actionIs "navigate" element) eqn:Hnav, (truthy (target element)) as [tgt|] eqn:Htgt;
    try (right; by exists tgt, w).
  all: destruct (actionIs "navigate_conditional" element), (targets element) as [tgts|].
  all: try (destruct (truthy (currentScreen (store w))) as [screen|]; [|by left];
            destruct (destinationFor tgts screen) as [dest| |]; [|by left..];
            destruct (truthy (Some dest)) as [dest'|]; [right; by exists dest', w|by left]).
  all: destruct (actionIs "input_digit" element), (value element) as [v|];
    try (left; apply actInputDigit_view).
  all: destruct (actionIs "show_highlight" element || actionIs "toggle_highlight" element);
    try (left; apply actHighlight_view).
  all: destruct (actionIs "show_popup" element); try (left; apply actShowPopup_view).
  all: destruct (actionIs "hide_popup" element || actionIs "navigate_from_popup" element).
  all: try (destruct (actionIs "clear_input" element); left; [apply actClearInput_view|done]).
  all: unfold actHidePopup; rewrite ?Htgt.
  all: try (right; by exists tgt, (withStore (setActivePopups ∅) w)).
  all: left; destruct (config (store w)); [|done]; simpl;
    destruct (truthy (currentScreen (store w))); [|done];
    by rewrite applyScreenVisibility_view.
Qed.

Lemma executeAction_tracked element w :
  timersTracked w → timersTracked (executeAction element w).
Proof.
  intros Htracked. destruct (executeAction_shape element w) as [Hv|(s & w0 & Hv & ->)].
  - by eapply timersTracked_view.
  - apply navigateToScreen_tracked. by eapply timersTracked_view.
Qed.

Lemma fireTimer_tracked id now w :
  timersTracked w → timersTracked (fireTimer id now w).
Proof.
  intros Htracked. unfold fireTimer.
  destruct (timers w !! id) as [[elem ms scr ep| |elem]|] eqn:Hid; [| | |done].
  - unfold screenTimerFired.
    destruct (bool_decide _), (truthy (target elem));
      try by apply clearTimer_tracked.
    by apply navigateToScreen_tracked, clearTimer_tracked.
  - by apply startClocks_tracked, clearTimer_tracked.
  - by eapply timersTracked_view.
Qed.

Lemma step_tracked w ev : timersTracked w → timersTracked (step w ev).
Proof.
  intros Htracked. destruct ev; simpl.
  - by apply setConfig_tracked.
  - by apply navigateToScreen_tracked.
  - by eapply timersTracked_view.
  - by eapply timersTracked_view.
  - by apply startClocks_tracked.
  - by apply stopClocks_tracked.
  - by apply executeAction_tracked.
  - by apply clear_tracked.
  - by eapply timersTracked_view.
  - eapply timersTracked_view; [|done]. unfold toggleLayerVisibility.
    destruct (psd w); [|done]. destruct (PsdStore.find _ _); [|done].
    by destruct (PsdStore.visibilityLists _ _ _).
  - by eapply timersTracked_view.
  - by apply fireTimer_tracked.
Qed.

Lemma run_snoc events ev : run (events ++ [ev]) = step (run events) ev.
Proof. unfold run. by rewrite foldl_app. Qed.

(** The invariant holds in every world an execution reaches. *)
Lemma run_tracked events : timersTracked (run events).
Proof.
  induction events as [|ev events IH] using rev_ind.
  - split_and!.
    + intros id elem ms scr ep H. by destruct (lookup_empty_Some (M := gmap nat) id _ H).
    + intros id [? H]. by destruct (lookup_empty_Some (M := gmap nat) id _ H).
    + by intros id ?%elem_of_nil.
  - rewrite run_snoc. by apply step_tracked.
Qed.

(** *** What a navigation does *)

Lemma applyScreenVisibility_requests cfg screenName popups selected w :
  let w' := applyScreenVisibility cfg screenName popups selected w in
  match psd w with
  | None => w' = w
  | Some layers =>
    let batch := screenOverrides layers cfg screenName popups selected in
    let lists := PsdStore.visibilityLists layers layers (batch ∪ visibilityOverrides w) in
    requests w' =
      (requests w ++ [reqSetMultipleVisibility batch;
                      reqRenderComposite lists.1 lists.2])%list ∧
    visibilityOverrides w' = batch ∪ visibilityOverrides w
  end.
Proof.
  cbv zeta. unfold applyScreenVisibility, setMultipleVisibility.
  destruct (psd w) as [layers|] eqn:Hp; [|done]. simpl. rewrite Hp.
  destruct (PsdStore.visibilityLists _ _ _) as [h sh]. simpl.
  by rewrite <- app_assoc.
Qed.

(** The complete effect of [navigateToScreen] with a config loaded. *)
Lemma navigateToScreen_spec screenName cfg w :
  config (store w) = Some cfg →
  let w' := navigateToScreen screenName w in
  let armed := armedElements cfg screenName in
  store w' =
    setScreenTimerIds (seq (nextTimerId w) (length armed))
      (setActivePopups ∅ (setCurrentScreen (Some screenName) (store w))) ∧
  nextTimerId w' = (nextTimerId w + length armed)%nat ∧
  navigations w' = S (navigations w) ∧
  psd w' = psd w ∧
  (∀ id, timers w' !! id =
     if decide (nextTimerId w ≤ id < nextTimerId w + length armed)%nat
     then (λ e, screenTimeout e (timerDelay e) screenName (S (navigations w)))
            <$> armed !! (id - nextTimerId w)%nat
     else if decide (id ∈ screenTimerIds (store w)) then None
     else timers w !! id) ∧
  match psd w with
  | None =>
    requests w' = requests w ∧ visibilityOverrides w' = visibilityOverrides w
  | Some layers =>
    let batch := screenOverrides layers cfg screenName ∅ (selectedHighlights (store w)) in
    let lists := PsdStore.visibilityLists layers layers (batch ∪ visibilityOverrides w) in
    requests w' =
      (requests w ++ [reqSetMultipleVisibility batch;
                      reqRenderComposite lists.1 lists.2])%list ∧
    visibilityOverrides w' = batch ∪ visibilityOverrides w
  end.
Proof.
  intros Hcfg. cbv zeta. unfold navigateToScreen. rewrite Hcfg.
  destruct (stopScreenTimers_rest (screenTimerIds (store w)) w)
    as (Hst1 & Hp1 & Hvo1 & Hn1 & Hnav1 & Hr1).
  set (w1 := stopScreenTimers (screenTimerIds (store w)) w) in *.
  set (w2 := navigated (withStore _ w1)).
  set (w3 := applyScreenVisibility cfg screenName ∅ (selectedHighlights (store w2)) w2).
  destruct (applyScreenVisibility_store cfg screenName ∅ (selectedHighlights (store w2)) w2)
    as (Hst3 & Ht3 & Hn3 & Hnav3 & Hp3). fold w3 in Hst3, Ht3, Hn3, Hnav3, Hp3.
  pose proof (applyScreenVisibility_requests cfg screenName ∅
                (selectedHighlights (store w2)) w2) as Hreq.
  cbv zeta in Hreq. fold w3 in Hreq.
  destruct (startScreenTimers cfg screenName w3) as [ids w4] eqn:Hstart.
  apply startScreenTimers_spec in Hstart as (Hids & Hnext & Hsame & Hlk).
  destruct Hsame as (Hst & Hp & Hvo & Hnav & Hr).
  assert (nextTimerId w3 = nextTimerId w) as Hn by (by rewrite Hn3).
  rewrite Hn in *.
  split_and!; simpl.
  - rewrite Hst, Hst3, Hids. simpl. by rewrite Hst1.
  - done.
  - rewrite Hnav, Hnav3. simpl. by rewrite Hnav1.
  - rewrite Hp, Hp3. simpl. done.
  - intros id. rewrite Hlk. rewrite Hnav3. simpl. rewrite Hnav1.
    case_decide; [done|]. rewrite Ht3. simpl. apply stopScreenTimers_timers.
  - simpl in Hreq. rewrite Hp1 in Hreq. destruct (psd w) as [layers|] eqn:Hpsd.
    + rewrite Hr, Hvo. simpl in Hreq. rewrite Hst1, Hr1, Hvo1 in Hreq. done.
    + rewrite Hr, Hvo, Hreq. simpl. by rewrite Hr1, Hvo1.
Qed.

(** *** The override batch of a screen *)

Lemma applyUpdates_untouched {V} (upd : InteractionElement → option V) es
    (overrides : gmap Z V) key :
  (∀ e, e ∈ es → layerId e = key → upd e = None) →
  applyUpdates upd es overrides !! key = overrides !! key.
Proof.
  unfold applyUpdates. revert overrides.
  induction es as [|e es IH]; intros overrides Hno; simpl; [done|].
  rewrite IH by (intros e' ? ?; apply Hno; [by right|done]).
  destruct (upd e) as [v|] eqn:Hu; [|done].
  destruct (decide (layerId e = key)) as [Heq|Hne].
  - rewrite Hno in Hu; [done|by left|done].
  - by rewrite lookup_insert_ne.
Qed.

Lemma applyUpdates_keep {V} (upd : InteractionElement → option V) es
    (overrides : gmap Z V) key v :
  (∀ e, e ∈ es → layerId e = key → upd e = Some v ∨ upd e = None) →
  overrides !! key = Some v →
  applyUpdates upd es overrides !! key = Some v.
Proof.
  unfold applyUpdates. revert overrides.
  induction es as [|e es IH]; intros overrides Hall Hov; simpl; [done|].
  apply IH; [intros e' ? ?; apply Hall; [by right|done]|].
  destruct (upd e) as [v'|] eqn:Hu; [|done].
  destruct (decide (layerId e = key)) as [Heq|Hne].
  - destruct (Hall e) as [Hv|Hv]; [by left|done| |congruence].
    rewrite Hu in Hv. simplify_eq. apply lookup_insert_eq.
  - by rewrite lookup_insert_ne.
Qed.

(** The entry of [key] after a pass in which every element of that layer
    either writes [v] or nothing, and one writes. *)
Lemma applyUpdates_uniform {V} (upd : InteractionElement → option V) es
    (overrides : gmap Z V) key v :
  (∀ e, e ∈ es → layerId e = key → upd e = Some v ∨ upd e = None) →
  (∃ e, e ∈ es ∧ layerId e = key ∧ upd e = Some v) →
  applyUpdates upd es overrides !! key = Some v.
Proof.
  revert overrides.
  induction es as [|e es IH]; intros overrides Hall (e0 & Hin & Hkey & Hup).
  - by apply elem_of_nil in Hin.
  - assert (∀ e', e' ∈ es → layerId e' = key → upd e' = Some v ∨ upd e' = None) as Hall'
      by (intros e' ? ?; apply Hall; [by right|done]).
    apply elem_of_cons in Hin as [->|Hin].
    + unfold applyUpdates. simpl. rewrite Hup.
      apply (applyUpdates_keep upd es); [done|]. rewrite Hkey. apply lookup_insert_eq.
    + unfold applyUpdates. simpl. apply (IH _ Hall'). eauto.
Qed.

Lemma foldl_filter_upd {M} (P : InteractionElement → Prop) `{∀ e, Decision (P e)}
    (f : M → InteractionElement → M) es overrides :
  foldl f overrides (filter P es) =
  foldl (λ ov e, if decide (P e) then f ov e else ov) overrides es.
Proof.
  revert overrides. induction es as [|e es IH]; intros overrides; [done|].
  rewrite filter_cons. simpl. destruct (decide (P e)); simpl; apply IH.
Qed.

Lemma foldl_ext_gmap {M} (f g : M → InteractionElement → M) es overrides :
  (∀ ov e, f ov e = g ov e) → foldl f overrides es = foldl g overrides es.
Proof.
  intros Hfg. revert overrides. induction es as [|e es IH]; intros overrides; [done|].
  simpl. by rewrite Hfg, IH.
Qed.

Lemma screenPass_updates layers screenName es overrides :
  screenPass layers screenName es overrides =
  applyUpdates (λ e, if decide (type e = "screen")
                     then match PsdStore.find (layerId e) layers with
                          | Some _ => Some (bool_decide (name e = Some screenName))
                          | None => None
                          end
                     else None) es overrides.
Proof.
  unfold screenPass, applyUpdates. rewrite foldl_filter_upd.
  apply foldl_ext_gmap. intros ov e. case_decide; [|done].
  by destruct (PsdStore.find _ _).
Qed.

Lemma showOnPass_updates layers screenName es overrides :
  showOnPass layers screenName es overrides =
  applyUpdates (λ e, match showOn e, PsdStore.find (layerId e) layers with
                     | Some l, Some _ => Some (bool_decide (screenName ∈ l))
                     | _, _ => None
                     end) es overrides.
Proof.
  unfold showOnPass, applyUpdates. rewrite foldl_filter_upd.
  apply foldl_ext_gmap. intros ov e.
  destruct (showOn e) as [l|] eqn:Hs.
  - rewrite decide_True by eauto. by destruct (PsdStore.find _ _).
  - rewrite decide_False; [done|]. by intros [? ?].
Qed.

Lemma highlightPass_updates selected es overrides :
  highlightPass selected es overrides =
  applyUpdates (λ e, if bool_decide (type e = "highlight")
                     then Some (bool_decide
                                  (name e = match truthy (group e) with
                                            | Some g => selected !! g
                                            | None => None
                                            end))
                     else None) es overrides.
Proof.
  unfold highlightPass, applyUpdates. apply foldl_ext_gmap. intros ov e.
  by destruct (bool_decide (type e = "highlight")).
Qed.

Lemma popupPass_updates popups es overrides :
  popupPass popups es overrides =
  applyUpdates (λ e, if bool_decide (type e = "popup")
                     then Some match name e with
                               | Some n => bool_decide (n ∈ popups)
                               | None => false
                               end
                     else None) es overrides.
Proof.
  unfold popupPass, applyUpdates. apply foldl_ext_gmap. intros ov e.
  by destruct (bool_decide (type e = "popup")).
Qed.

(** In the batch of a screen, a screen element whose layer exists and is
    not claimed by other elements is visible exactly when it bears the
    name of the screen. *)
Lemma screenOverrides_screen layers cfg screenName popups selected e :
  e ∈ elements cfg → type e = "screen" →
  is_Some (PsdStore.find (layerId e) layers) →
  soleScreen cfg e →
  screenOverrides layers cfg screenName popups selected !! layerId e =
  Some (bool_decide (name e = Some screenName)).
Proof.
  intros Hin Hty [l Hl] Hsole. unfold screenOverrides.
  rewrite popupPass_updates, applyUpdates_untouched; last first.
  { intros e' Hin' Hid. destruct (Hsole e' Hin' Hid) as (Ht & _).
    rewrite bool_decide_eq_false_2; [done|]. by rewrite Ht. }
  rewrite highlightPass_updates, applyUpdates_untouched; last first.
  { intros e' Hin' Hid. destruct (Hsole e' Hin' Hid) as (Ht & _).
    rewrite bool_decide_eq_false_2; [done|]. by rewrite Ht. }
  rewrite showOnPass_updates, applyUpdates_untouched; last first.
  { intros e' Hin' Hid. destruct (Hsole e' Hin' Hid) as (_ & Hs & _). by rewrite Hs. }
  rewrite screenPass_updates. apply applyUpdates_uniform.
  - intros e' Hin' Hid. destruct (Hsole e' Hin' Hid) as (Ht & _ & Hn).
    left. rewrite decide_True by done. by rewrite Hid, Hl, Hn.
  - exists e. split_and!; [done..|]. rewrite decide_True by done. by rewrite Hl.
Qed.

(** The entry of a screen element in the batch of a screen, when no later
    write goes to its layer: visible exactly when it bears the name of the
    screen, and no entry when the document lacks the layer. *)
Lemma screenOverrides_kept layers cfg screenName popups selected e :
  e ∈ elements cfg → type e = "screen" → screenEntryKept cfg e →
  screenOverrides layers cfg screenName popups selected !! layerId e =
  match PsdStore.find (layerId e) layers with
  | Some _ => Some (bool_decide (name e = Some screenName))
  | None => None
  end.
Proof.
  intros Hin Hty Hkept. unfold screenOverrides.
  rewrite popupPass_updates, applyUpdates_untouched; last first.
  { intros e' Hin' Hid. destruct (Hkept e' Hin' Hid) as (_ & _ & Hp & _).
    by rewrite bool_decide_eq_false_2. }
  rewrite highlightPass_updates, applyUpdates_untouched; last first.
  { intros e' Hin' Hid. destruct (Hkept e' Hin' Hid) as (_ & Hh & _).
    by rewrite bool_decide_eq_false_2. }
  rewrite showOnPass_updates, applyUpdates_untouched; last first.
  { intros e' Hin' Hid. destruct (Hkept e' Hin' Hid) as (Hs & _). by rewrite Hs. }
  rewrite screenPass_updates. destruct (PsdStore.find (layerId e) layers) as [l|] eqn:Hl.
  - apply applyUpdates_uniform.
    + intros e' Hin' Hid. destruct (Hkept e' Hin' Hid) as (_ & _ & _ & Hn).
      case_decide; [left|by right]. by rewrite Hid, Hl, Hn.
    + exists e. split_and!; [done..|]. rewrite decide_True by done. by rewrite Hl.
  - rewrite applyUpdates_untouched; [done|].
    intros e' Hin' Hid. case_decide; [|done]. by rewrite Hid, Hl.
Qed.

(** C6. In every world an execution reaches, an active screen timeout was
    armed on the current screen and no navigation has happened since; a
    navigation clears it before it arms new ones, so it cannot fire once
    its screen has been left, and this includes the navigation that an
    active timer performs as its own action, after which neither that
    timer nor any timer armed before remains. *)
Theorem screen_timer_confined_to_its_screen events id elem ms screenName armedAt :
  let w := run events in
  timers w !! id = Some (screenTimeout elem ms screenName armedAt) →
  (currentScreen (store w) = Some screenName ∧ armedAt = navigations w ∧
   triggersOn screenName elem) ∧
  (∀ destination, timers (navigateToScreen destination w) !! id = None) ∧
  (∀ now, timers (fireTimer id now w) !! id = None) ∧
  (∀ id' elem' ms' screenName' armedAt' destination now,
     timers w !! id' = Some (screenTimeout elem' ms' screenName' armedAt') →
     action elem' = Some "navigate" → truthy (target elem') = Some destination →
     timers (fireTimer id' now w) !! id = None).
Proof.
  intros w Hid. pose proof (run_tracked events) as Htracked. fold w in Htracked.
  pose proof Htracked as (Hscreen & Hfresh & Hlisted).
  destruct (Hscreen _ _ _ _ _ Hid) as (Hin & Hcur & Hep & Htr & [cfg Hcfg]).
  assert (id < nextTimerId w)%nat as Hlt by (apply Hfresh; eauto).
  assert (∀ w0 destination, timerView w0 = timerView w ∨
            (∃ i, w0 = clearTimer i w) →
            timers (navigateToScreen destination w0) !! id = None) as Hnavigate.
  { intros w0 destination Hw0.
    assert (config (store w0) = Some cfg ∧ nextTimerId w0 = nextTimerId w ∧
            screenTimerIds (store w0) = screenTimerIds (store w)) as (Hcfg0 & Hn0 & Hids0).
    { destruct Hw0 as [[= _ ? _ ? _ ?]|[i ->]]; [|done]. split_and!; congruence. }
    destruct (navigateToScreen_spec destination cfg w0 Hcfg0) as (_ & _ & _ & _ & Hlk & _).
    rewrite Hlk, Hn0, Hids0. case_decide; [lia|]. by rewrite decide_True. }
  split; [done|]. split_and!.
  - intros destination. apply Hnavigate. by left.
  - intros now. unfold fireTimer. rewrite Hid. unfold screenTimerFired.
    destruct (bool_decide _), (truthy (target elem)); simpl; try apply lookup_delete_eq.
    apply Hnavigate. right. by exists id.
  - intros id' elem' ms' scr' ep' destination now Hid' Hact Htgt.
    unfold fireTimer. rewrite Hid'. unfold screenTimerFired.
    rewrite bool_decide_eq_true_2 by done. rewrite Htgt.
    apply Hnavigate. right. by exists id'.
Qed.

(** C2, as the code has it. Without a config [navigateToScreen] does
    nothing. With one, it clears every listed screen timeout (no screen
    timeout active before stays active), sets [currentScreen], empties
    [activePopups] and keeps [selectedHighlights]; with a document loaded
    it issues exactly one batch, in which every screen element whose layer
    exists in the document and receives no later write (no element on
    that layer with a [showOn] list, no highlight, no popup, no screen
    element of another name; buttons and other elements may share it) is
    visible exactly when its name is the destination, and one whose layer
    the document lacks has no entry; with no document it issues no
    batch. *)
Theorem navigateToScreen_effect events screenName :
  let w := run events in
  let w' := navigateToScreen screenName w in
  (config (store w) = None → w' = w) ∧
  (∀ cfg, config (store w) = Some cfg →
     (∀ id, id ∈ screenTimerIds (store w) → timers w' !! id = None) ∧
     (∀ id elem ms screen armedAt,
        timers w !! id = Some (screenTimeout elem ms screen armedAt) →
        timers w' !! id = None) ∧
     currentScreen (store w') = Some screenName ∧
     activePopups (store w') = ∅ ∧
     selectedHighlights (store w') = selectedHighlights (store w) ∧
     (psd w = None → requests w' = requests w) ∧
     (∀ layers, psd w = Some layers →
        ∃ batch hidden shown,
          requests w' = (requests w ++ [reqSetMultipleVisibility batch;
                                        reqRenderComposite hidden shown])%list ∧
          ∀ e, e ∈ elements cfg → type e = "screen" → screenEntryKept cfg e →
            batch !! layerId e =
            match PsdStore.find (layerId e) layers with
            | Some _ => Some (bool_decide (name e = Some screenName))
            | None => None
            end)).
Proof.
  intros w w'. split.
  - intros Hnone. unfold w', navigateToScreen. by rewrite Hnone.
  - intros cfg Hcfg.
    destruct (run_tracked events) as (Hscreen & Hfresh & Hlisted).
    fold w in Hscreen, Hfresh, Hlisted.
    destruct (navigateToScreen_spec screenName cfg w Hcfg)
      as (Hst & _ & _ & _ & Hlk & Hreq). fold w' in Hst, Hlk, Hreq.
    assert (∀ id, id ∈ screenTimerIds (store w) → timers w' !! id = None) as Hcleared.
    { intros id Hin. rewrite Hlk. pose proof (Hlisted _ Hin).
      case_decide; [lia|]. by rewrite decide_True. }
    split_and!.
    + done.
    + intros id elem ms screen ep Hid. apply Hcleared.
      by destruct (Hscreen _ _ _ _ _ Hid) as (? & _).
    + by rewrite Hst.
    + by rewrite Hst.
    + by rewrite Hst.
    + intros Hp. rewrite Hp in Hreq. by destruct Hreq.
    + intros layers Hp. rewrite Hp in Hreq. destruct Hreq as [Hreq _].
      eexists _, _, _. split; [exact Hreq|].
      intros e Hin Hty Hkept. by apply screenOverrides_kept.
Qed.

(** C2, the counterexample. With no config loaded [navigateToScreen]
    leaves [currentScreen] unset; with a config but no document it issues
    no batch; for the config of screens a (layer 10) and b (layer 20) on a
    document without layer 10, the batch of [navigateToScreen "b"] has no
    entry for 10; when screen a also carries [showOn: ["b"]], the batch of
    [navigateToScreen "b"] sets its layer 10 to true; and when the layer
    10 of screen a is also the layer of a popup, of a highlight or of a
    screen element of another name, the batch of [navigateToScreen "a"]
    sets it to false. *)
Lemma navigateToScreen_guards :
  currentScreen (store (navigateToScreen "b" initialWorld)) = None ∧
  (let w := run [evSetConfig Samples.twoScreens] in
   config (store w) = Some Samples.twoScreens ∧
   requests (navigateToScreen "b" w) = requests w) ∧
  (let w := run [evLoadPsd Samples.oneScreenLayers; evSetConfig Samples.twoScreens] in
   ∃ batch hidden shown,
     requests (navigateToScreen "b" w) =
       (requests w ++ [reqSetMultipleVisibility batch;
                       reqRenderComposite hidden shown])%list ∧
     batch !! 10 = None ∧ batch !! 20 = Some true) ∧
  (let w := run [evLoadPsd Samples.twoScreenLayers;
                 evSetConfig Samples.overlappingScreens] in
   ∃ batch hidden shown,
     requests (navigateToScreen "b" w) =
       (requests w ++ [reqSetMultipleVisibility batch;
                       reqRenderComposite hidden shown])%list ∧
     batch !! 10 = Some true ∧ batch !! 20 = Some true) ∧
  (∀ cfg, cfg ∈ [Samples.screenWithPopup; Samples.screenWithHighlight;
                 Samples.screenRenamed] →
   let w := run [evLoadPsd Samples.twoScreenLayers; evSetConfig cfg] in
   Samples.screenA ∈ elements cfg ∧
   ∃ batch hidden shown,
     requests (navigateToScreen "a" w) =
       (requests w ++ [reqSetMultipleVisibility batch;
                       reqRenderComposite hidden shown])%list ∧
     batch !! 10 = Some false).
Proof.
  split_and!.
  - reflexivity.
  - split; reflexivity.
  - eexists _, _, _. split_and!; [vm_compute; reflexivity|by vm_compute..].
  - eexists _, _, _. split_and!; [vm_compute; reflexivity|by vm_compute..].
  - intros cfg Hcfg. apply list_elem_of_In in Hcfg. simpl in Hcfg.
    destruct Hcfg as [<-|[<-|[<-|[]]]].
    all: split; [apply list_elem_of_In; simpl; tauto|].
    all: eexists _, _, _; split; [vm_compute; reflexivity|by vm_compute].
Qed.

Lemma screenEntryKept_tabbedScreens e :
  e ∈ elements Samples.tabbedScreens → type e = "screen" →
  screenEntryKept Samples.tabbedScreens e.
Proof.
  intros He Hty e' He' Hid.
  apply list_elem_of_In in He, He'. simpl in He, He'.
  destruct He as [<-|[<-|[<-|[]]]], He' as [<-|[<-|[<-|[]]]]; done.
Qed.

(** The screen-exclusivity example, with the folder of screen a also a
    button: with both folders in the document, [navigateToScreen "b"]
    sets 10 to false and 20 to true. *)
Lemma navigateToScreen_twoScreens :
  let w := run [evLoadPsd Samples.twoScreenLayers; evSetConfig Samples.tabbedScreens] in
  let w' := navigateToScreen "b" w in
  currentScreen (store w') = Some "b" ∧ activePopups (store w') = ∅ ∧
  ∃ batch hidden shown,
    requests w' = (requests w ++ [reqSetMultipleVisibility batch;
                                  reqRenderComposite hidden shown])%list ∧
    batch !! 10 = Some false ∧ batch !! 20 = Some true.
Proof.
  intros w w'.
  destruct (navigateToScreen_effect
              [evLoadPsd Samples.twoScreenLayers; evSetConfig Samples.tabbedScreens] "b")
    as [_ H].
  destruct (H Samples.tabbedScreens eq_refl) as (_ & _ & Hcur & Hpop & _ & _ & Hbatch).
  destruct (Hbatch Samples.twoScreenLayers eq_refl) as (batch & hidden & shown & Hreq & Hb).
  split_and!; [done..|]. exists batch, hidden, shown. split_and!; [done| |].
  - apply (Hb Samples.screenA); [by left|done|].
    apply screenEntryKept_tabbedScreens; [by left|done].
  - apply (Hb Samples.screenB); [by right; left|done|].
    apply screenEntryKept_tabbedScreens; [by right; left|done].
Defined.

(** *** References that resolve to nothing *)

Lemma actionIs_other a b element :
  action element = Some a → a ≠ b → actionIs b element = false.
Proof.
  intros Ha Hne. unfold actionIs. rewrite Ha. apply bool_decide_eq_false_2. congruence.
Qed.

Lemma actionIs_same a element : action element = Some a → actionIs a element = true.
Proof. intros Ha. unfold actionIs. rewrite Ha. by apply bool_decide_eq_true_2. Qed.

(** Settles every guard of [executeAction] on the action name, given the
    action of the element. *)
Ltac settle_guards Hact :=
  repeat match goal with
  | |- context [actionIs ?b ?e] =>
    first [ rewrite (actionIs_same b e Hact)
          | rewrite (actionIs_other _ b e Hact) by done ]
  end.

Lemma findDisplay_Some cfg n d :
  findDisplay cfg n = Some d → d ∈ elements cfg ∧ isDisplay d ∧ name d = Some n.
Proof.
  unfold findDisplay. destruct (list_find _ _) as [[i d']|] eqn:Hf; [|done].
  intros [= <-]. apply list_find_Some in Hf as (Hi & [? ?] & _).
  split_and!; [|done..]. by eapply list_elem_of_lookup_2.
Qed.

Lemma displayElemsOf_elem cfg names d :
  d ∈ displayElemsOf cfg names → d ∈ elements cfg ∧ isDisplay d ∧
  ∃ n, n ∈ names ∧ name d = Some n.
Proof.
  unfold displayElemsOf. intros (n & Hn & Hf)%list_elem_of_omap.
  apply findDisplay_Some in Hf as (? & ? & ?). eauto.
Qed.

Lemma displayElemsOf_nil cfg names :
  (∀ n d, n ∈ names → d ∈ elements cfg → isDisplay d → name d ≠ Some n) →
  displayElemsOf cfg names = [].
Proof.
  intros Hno. destruct (displayElemsOf cfg names) as [|d ds] eqn:Hds; [done|].
  assert (d ∈ displayElemsOf cfg names) as Hd by (rewrite Hds; left).
  apply displayElemsOf_elem in Hd as (? & ? & n & ? & ?). by destruct (Hno n d).
Qed.

(** C7, as the code has it. With a config loaded, an action whose
    reference resolves to nothing (a highlight action naming no highlight
    with a group, [show_popup] naming no popup, [input_digit] or
    [clear_input] naming no display, [navigate_conditional] whose
    [targets] has no destination for the current screen, own or inherited
    from [Object.prototype]) is a silent no-op: [executeAction] returns
    the world it was given, so no state changes and no request is
    issued. *)
Theorem executeAction_unresolved cfg element w :
  config (store w) = Some cfg →
  unresolved cfg (store w) element →
  executeAction element w = w.
Proof.
  intros Hcfg [(tgt & Hact & Htgt & Hno)|[(tgt & Hact & Htgt & Hno)|
                [(Hact & Hno)|(tgts & Hact & Htgts & Hno)]]];
    unfold executeAction.
  - destruct Hact as [Hact|Hact]; settle_guards Hact; simpl; rewrite Htgt;
      unfold actHighlight; rewrite Hcfg.
    all: destruct (list_find _ _) as [[i h]|] eqn:Hf; simpl; [|done].
    all: apply list_find_Some in Hf as (Hi & [Hty Hname] & _).
    all: rewrite (Hno h); [done| |done..]; by eapply list_elem_of_lookup_2.
  - settle_guards Hact. simpl. rewrite Htgt.
    unfold actShowPopup. rewrite Hcfg.
    destruct (list_find _ _) as [[i p']|] eqn:Hf; simpl; [|done].
    apply list_find_Some in Hf as (Hi & [Hty Hname] & _).
    destruct (Hno p'); [by eapply list_elem_of_lookup_2|done..].
  - pose proof (displayElemsOf_nil _ _ Hno) as Hnil.
    destruct Hact as [[Hact [v Hv]]|Hact].
    + settle_guards Hact. rewrite Hv.
      destruct (truthy (target element)), (targets element);
        unfold actInputDigit; by rewrite Hcfg, Hnil.
    + settle_guards Hact. simpl.
      destruct (truthy (target element)), (targets element), (value element);
        unfold actClearInput; by rewrite Hcfg, Hnil.
  - settle_guards Hact. rewrite Htgts.
    destruct (truthy (target element));
      (destruct (truthy (currentScreen (store w))) as [screen|] eqn:Hs; [|done]);
      by destruct (Hno screen eq_refl) as [-> | ->].
Qed.

(** C7, the counterexample. A [navigate] action whose target names no
    screen of the config is carried out all the same: [currentScreen]
    becomes that name and a visibility batch is issued. And a [show_popup]
    of a popup whose layer id the document does not have records the
    popup as active and issues a batch for that id. *)
Lemma executeAction_unchecked_references :
  (let w := run [evLoadPsd Samples.twoScreenLayers; evSetConfig Samples.twoScreens] in
   let element := Samples.acting "navigate" "nowhere" (Samples.element 11 "button") in
   ("nowhere" ∉ screens Samples.twoScreens) ∧
   (∀ e, e ∈ elements Samples.twoScreens → name e ≠ Some "nowhere") ∧
   currentScreen (store w) = Some "a" ∧
   currentScreen (store (executeAction element w)) = Some "nowhere" ∧
   length (requests (executeAction element w)) = (length (requests w) + 2)%nat) ∧
  (let w := run [evLoadPsd Samples.twoScreenLayers; evSetConfig Samples.popupConfig] in
   let element := Samples.acting "show_popup" "confirm" (Samples.element 11 "button") in
   PsdStore.find 99 Samples.twoScreenLayers = None ∧
   activePopups (store w) = ∅ ∧
   activePopups (store (executeAction element w)) = {["confirm"]} ∧
   ∃ hidden shown,
     requests (executeAction element w) =
       (requests w ++ [reqSetMultipleVisibility {[99 := true]};
                       reqRenderComposite hidden shown])%list).
Proof.
  split; split_and!; try reflexivity.
  - intros Hin. apply list_elem_of_In in Hin. simpl in Hin.
    destruct Hin as [?|[?|[]]]; done.
  - intros e He. apply list_elem_of_In in He. simpl in He.
    destruct He as [<-|[<-|[]]]; done.
  - eexists _, _. vm_compute. reflexivity.
Qed.

(** *** Default texts *)

Lemma initialTextsOf_updates es :
  initialTextsOf es =
  applyUpdates (λ e, if decide (isDisplay e) then Some (nullish (value e) "--") else None)
    es ∅.
Proof.
  unfold initialTextsOf, applyUpdates. apply foldl_ext_gmap. intros m e.
  by case_decide.
Qed.

Lemma pushInitialTexts_requests es w :
  requests (pushInitialTexts es w) = (requests w ++ initialTextPushes es)%list.
Proof.
  unfold pushInitialTexts, initialTextPushes. revert w.
  induction es as [|e es IH]; intros w; simpl; [by rewrite app_nil_r|].
  rewrite IH. case_decide; simpl; [|done]. by rewrite <- app_assoc.
Qed.

(** The store and the requests after [setConfig]. *)
Lemma setConfig_spec cfg w :
  let w' := setConfig cfg w in
  config (store w') = Some cfg ∧
  currentScreen (store w') = Some (initialScreen cfg) ∧
  dynamicTexts (store w') = initialTextsOf (elements cfg) ∧
  sliderValues (store w') = ∅ ∧ activePopups (store w') = ∅ ∧
  selectedHighlights (store w') = ∅ ∧
  ∃ batch, requests w' = (requests w ++ initialTextPushes (elements cfg) ++ batch)%list.
Proof.
  cbv zeta. unfold setConfig.
  set (w1 := stopClocks w).
  set (w2 := stopScreenTimers (screenTimerIds (store w1)) w1).
  set (w3 := navigated (withStore _ w2)).
  set (w4 := pushInitialTexts (elements cfg) w3).
  set (w5 := applyScreenVisibility cfg (initialScreen cfg) ∅ ∅ w4).
  set (w6 := match filter (λ e, type e = "clock") (elements cfg) with
             | [] => w5
             | _ :: _ => (addTimer startClocksTimeout w5).2
             end).
  destruct (pushInitialTexts_rest (elements cfg) w3) as (Hst4 & _). fold w4 in Hst4.
  destruct (applyScreenVisibility_store cfg (initialScreen cfg) ∅ ∅ w4) as (Hst5 & _).
  fold w5 in Hst5.
  assert (store w6 = store w5 ∧ requests w6 = requests w5) as [Hst6 Hr6]
    by (unfold w6; by destruct (filter _ _)).
  destruct (startScreenTimers cfg (initialScreen cfg) w6) as [ids w7] eqn:Hstart.
  apply startScreenTimers_spec in Hstart as (_ & _ & (Hst7 & _ & _ & _ & Hr7) & _).
  simpl. rewrite Hst7, Hst6, Hst5, Hst4. simpl. split_and!; try done.
  rewrite Hr7, Hr6.
  assert (requests w4 = (requests w ++ initialTextPushes (elements cfg))%list) as Hr4.
  { unfold w4. rewrite pushInitialTexts_requests. simpl.
    destruct (stopScreenTimers_rest (screenTimerIds (store w1)) w1) as (_ & _ & _ & _ & _ & Hr2).
    fold w2 in Hr2. rewrite Hr2. unfold w1. rewrite stopClocks_unfold. simpl.
    by destruct (stopScreenTimers_rest (map_to_list (clockTimers (store w))).*2 w)
      as (_ & _ & _ & _ & _ & ->). }
  pose proof (applyScreenVisibility_requests cfg (initialScreen cfg) ∅ ∅ w4) as Hreq.
  cbv zeta in Hreq. fold w5 in Hreq. destruct (psd w4).
  - destruct Hreq as [-> _]. rewrite Hr4, <- app_assoc. eauto.
  - rewrite Hreq, Hr4. exists []. by rewrite app_nil_r.
Qed.

Lemma clearLoop_spec ds w :
  let w' := foldl (λ w d, setDynamicText (layerId d) (nullish (value d) "-") w) w ds in
  dynamicTexts (store w') =
    applyUpdates (λ d, Some (nullish (value d) "-")) ds (dynamicTexts (store w)) ∧
  requests w' = requests w.
Proof.
  cbv zeta. unfold applyUpdates. revert w. induction ds as [|d ds IH]; intros w; [done|].
  simpl. destruct (IH (setDynamicText (layerId d) (nullish (value d) "-") w)) as [-> ->].
  done.
Qed.

Lemma requestLoop_spec {A} (f : A → Request) (l : list A) w :
  let w' := foldl (λ w a, request (f a) w) w l in
  store w' = store w ∧ requests w' = (requests w ++ (f <$> l))%list.
Proof.
  cbv zeta. revert w. induction l as [|a l IH]; intros w; simpl.
  - by rewrite app_nil_r.
  - destruct (IH (request (f a) w)) as [-> ->]. simpl. by rewrite <- app_assoc.
Qed.

Lemma executeAction_clear_input element w :
  action element = Some "clear_input" →
  executeAction element w = actClearInput element w.
Proof.
  intros Hact. unfold executeAction. settle_guards Hact. simpl.
  by destruct (truthy (target element)), (targets element), (value element).
Qed.

(** C9, as the code has it. For a display or dynamic_text element without
    a [value] (no display on the same layer having one), [setConfig] seeds
    its entry of
    [dynamicTexts] and pushes its layer text as the two characters '--',
    while a [clear_input] that names it resets and pushes the single
    character '-': the text after [setConfig] differs from the text after
    [clear_input]. *)
Theorem default_text_asymmetry cfg e :
  e ∈ elements cfg → isDisplay e → value e = None →
  (∀ d, d ∈ elements cfg → isDisplay d → layerId d = layerId e → value d = None) →
  (∀ w, dynamicTexts (store (setConfig cfg w)) !! layerId e = Some "--" ∧
        reqSetLayerText (layerId e) "--" ∈ requests (setConfig cfg w)) ∧
  (∀ w element,
     config (store w) = Some cfg → action element = Some "clear_input" →
     e ∈ displayElemsOf cfg (targetNames element) →
     dynamicTexts (store (executeAction element w)) !! layerId e = Some "-" ∧
     reqSetLayerText (layerId e) "-" ∈ requests (executeAction element w)) ∧
  (∀ w element,
     action element = Some "clear_input" →
     e ∈ displayElemsOf cfg (targetNames element) →
     dynamicTexts (store (setConfig cfg w)) !! layerId e ≠
     dynamicTexts (store (executeAction element (setConfig cfg w))) !! layerId e).
Proof.
  intros Hin Hdisp Hval Hsame.
  assert (∀ w, dynamicTexts (store (setConfig cfg w)) !! layerId e = Some "--") as Hseed.
  { intros w. destruct (setConfig_spec cfg w) as (_ & _ & -> & _).
    rewrite initialTextsOf_updates. apply applyUpdates_uniform.
    - intros d Hd Hid. case_decide; [left|by right]. by rewrite (Hsame d).
    - exists e. split_and!; [done..|]. rewrite decide_True by done. by rewrite Hval. }
  assert (∀ w element,
     config (store w) = Some cfg → action element = Some "clear_input" →
     e ∈ displayElemsOf cfg (targetNames element) →
     dynamicTexts (store (executeAction element w)) !! layerId e = Some "-" ∧
     reqSetLayerText (layerId e) "-" ∈ requests (executeAction element w)) as Hclear.
  { intros w element Hcfg Hact He.
    rewrite (executeAction_clear_input _ _ Hact). unfold actClearInput. rewrite Hcfg.
    destruct (displayElemsOf cfg (targetNames element)) as [|d0 ds0] eqn:Hds;
      [by apply elem_of_nil in He|].
    rewrite <- Hds in *. clear Hds d0 ds0.
    set (ds := displayElemsOf cfg (targetNames element)) in *.
    destruct (clearLoop_spec ds w) as [Hdt Hr]. cbv zeta in Hdt, Hr.
    set (w1 := foldl (λ w d, setDynamicText (layerId d) (nullish (value d) "-") w) w ds) in *.
    destruct (requestLoop_spec (λ d, reqSetLayerText (layerId d) (nullish (value d) "-"))
                ds w1) as [Hst2 Hr2]. cbv zeta in Hst2, Hr2.
    simpl. rewrite Hst2, Hr2, Hdt. split.
    - apply applyUpdates_uniform.
      + intros d Hd Hid. left.
        apply displayElemsOf_elem in Hd as (? & ? & _). by rewrite (Hsame d).
      + exists e. by rewrite Hval.
    - rewrite !elem_of_app. left. right. apply list_elem_of_fmap.
      exists e. by rewrite Hval. }
  split_and!.
  - intros w. split; [done|].
    destruct (setConfig_spec cfg w) as (_ & _ & _ & _ & _ & _ & batch & ->).
    rewrite !elem_of_app. right. left. unfold initialTextPushes.
    apply list_elem_of_omap. exists e. split; [done|].
    rewrite decide_True by done. by rewrite Hval.
  - done.
  - intros w element Hact He. rewrite Hseed.
    destruct (Hclear (setConfig cfg w) element) as [-> _]; [|done..|done].
    by destruct (setConfig_spec cfg w) as (-> & _).
Qed.

(** C9, the counterexample. The display count has no [value] and shares
    layer 11 with the later display sign, whose [value] is '-': the text
    of the layer is '-' after [setConfig], the last one seeded and pushed
    for it, and '-' again after a [clear_input] of count, so the two texts
    do not differ. *)
Lemma default_text_shared_layer :
  let w := setConfig Samples.sharedDisplay initialWorld in
  let w' := executeAction (Samples.clearKey "count") w in
  Samples.counter ∈ elements Samples.sharedDisplay ∧
  isDisplay Samples.counter ∧ value Samples.counter = None ∧
  displayElemsOf Samples.sharedDisplay (targetNames (Samples.clearKey "count"))
  = [Samples.counter] ∧
  dynamicTexts (store w) !! layerId Samples.counter = Some "-" ∧
  requests w = [reqSetLayerText 11 "--"; reqSetLayerText 11 "-"] ∧
  dynamicTexts (store w') !! layerId Samples.counter = Some "-" ∧
  dynamicTexts (store w) !! layerId Samples.counter
  = dynamicTexts (store w') !! layerId Samples.counter.
Proof.
  split_and!; try (by vm_compute).
  - apply list_elem_of_In. simpl. tauto.
  - by left.
Qed.

(** *** Digit entry *)

Lemma executeAction_input_digit element digit w :
  action element = Some "input_digit" → value element = Some digit →
  executeAction element w = actInputDigit element digit w.
Proof.
  intros Hact Hv. unfold executeAction. settle_guards Hact. rewrite Hv.
  by destruct (truthy (target element)), (targets element).
Qed.

Lemma NoDup_layerId_lookup (ds : list InteractionElement) i j d d' :
  NoDup (layerId <$> ds) → ds !! i = Some d → ds !! j = Some d' →
  layerId d = layerId d' → i = j.
Proof.
  intros Hnd Hi Hj Heq. eapply NoDup_lookup; [done| |].
  - by rewrite list_lookup_fmap, Hi.
  - by rewrite list_lookup_fmap, Hj, Heq.
Qed.

(** The shift loop: display [j] receives the old value of display
    [j + 1]; nothing else is written. *)
Lemma shiftLeft_spec ds vs i count w :
  NoDup (layerId <$> ds) → length vs = length ds →
  (i + count < length ds)%nat →
  let w' := shiftLeft ds vs i count w in
  requests w' = requests w ∧
  (∀ j d v, (i ≤ j < i + count)%nat → ds !! j = Some d → vs !! S j = Some v →
     dynamicTexts (store w') !! layerId d = Some v) ∧
  (∀ k, (∀ j d, (i ≤ j < i + count)%nat → ds !! j = Some d → layerId d ≠ k) →
     dynamicTexts (store w') !! k = dynamicTexts (store w) !! k).
Proof.
  intros Hnd Hlen. cbv zeta. revert i w.
  induction count as [|count IH]; intros i w Hi; simpl.
  - split_and!; [done| |done]. intros j d v ?. lia.
  - destruct (lookup_lt_is_Some_2 ds i) as [d Hd]; [lia|].
    destruct (lookup_lt_is_Some_2 vs (S i)) as [v Hv]; [lia|].
    rewrite Hd, Hv.
    destruct (IH (S i) (setDynamicText (layerId d) v w)) as (Hr & Hset & Hkeep); [lia|].
    split_and!.
    + by rewrite Hr.
    + intros j d' v' Hj Hd' Hv'. destruct (decide (j = i)) as [->|Hne].
      * simplify_eq. rewrite Hkeep; [apply lookup_insert_eq|].
        intros j' d'' ? Hd'' Heq.
        assert (j' = i) by (by eapply NoDup_layerId_lookup). lia.
      * apply (Hset j); [lia|done..].
    + intros k Hk. rewrite Hkeep.
      * simpl. rewrite lookup_insert_ne; [done|]. apply (Hk i); [lia|done].
      * intros j d' ? ?. apply (Hk j); [lia|done].
Qed.

Lemma match_several {A B} (l : list A) (x : B) (f : A → B) (y : B) :
  (2 ≤ length l)%nat →
  match l with
  | [] => x
  | [a] => f a
  | _ :: _ :: _ => y
  end = y.
Proof. destruct l as [|? [|? ?]]; simpl; [lia..|done]. Qed.

Lemma nextSingle_two c1 c2 digit :
  let current := String c1 (String c2 EmptyString) in
  (c1 = "-"%char → c2 = "-"%char → nextSingle current digit = "-" +:+ digit) ∧
  (c1 = "-"%char → c2 ≠ "-"%char → nextSingle current digit = String c2 digit) ∧
  (c1 ≠ "-"%char → nextSingle current digit = current).
Proof.
  cbv zeta. unfold nextSingle, charAt. simpl. split_and!.
  - intros -> ->. done.
  - intros -> Hc2. rewrite bool_decide_eq_true_2 by done.
    rewrite bool_decide_eq_false_2 by congruence. done.
  - intros Hc1. rewrite (bool_decide_eq_false_2 (String c1 EmptyString = "-")) by congruence.
    done.
Qed.

(** C3, as the code has it. An [input_digit] action with digit [digit],
    with a config loaded. Single target, current text of two characters
    [c1 c2]: the new text is '-' followed by the digit when both are '-',
    [c2] followed by the digit when only [c1] is '-', and the old text
    when both are not '-' (saturated); it is stored and pushed, and a
    recomposite follows only if the push succeeds. Several targets: when
    every display holds a character other than '-' the action changes
    nothing; otherwise, for target displays on pairwise distinct layers,
    every display but the last receives the value its right neighbour
    held before the action, the last receives the digit, no other text
    changes, and the new texts are pushed in order, followed by one
    recomposite. *)
Theorem input_digit_shift_register cfg element digit w :
  config (store w) = Some cfg →
  action element = Some "input_digit" → value element = Some digit →
  let ds := displayElemsOf cfg (targetNames element) in
  let texts := dynamicTexts (store w) in
  let w' := executeAction element w in
  (∀ d c1 c2,
     ds = [d] →
     orElse (texts !! layerId d) "--" = String c1 (String c2 EmptyString) →
     ∃ next,
       dynamicTexts (store w') = <[layerId d := next]> texts ∧
       requests w' =
         (requests w ++ [reqSetLayerTextThenRecomposite (layerId d) next])%list ∧
       (c1 = "-"%char → c2 = "-"%char → next = "-" +:+ digit) ∧
       (c1 = "-"%char → c2 ≠ "-"%char → next = String c2 digit) ∧
       (c1 ≠ "-"%char → c2 ≠ "-"%char → next = String c1 (String c2 EmptyString))) ∧
  ((2 ≤ length ds)%nat → (∀ d, d ∈ ds → heldChar texts d ≠ "-") → w' = w) ∧
  ((2 ≤ length ds)%nat → (∃ d, d ∈ ds ∧ heldChar texts d = "-") →
   NoDup (layerId <$> ds) →
     (∀ i d d', ds !! i = Some d → ds !! S i = Some d' →
        dynamicTexts (store w') !! layerId d = Some (heldChar texts d')) ∧
     (∀ d, last ds = Some d → dynamicTexts (store w') !! layerId d = Some digit) ∧
     (∀ k, k ∉ layerId <$> ds → dynamicTexts (store w') !! k = texts !! k) ∧
     requests w' =
       (requests w
        ++ ((λ d, reqSetLayerText (layerId d) (heldChar (dynamicTexts (store w')) d)) <$> ds)
        ++ [reqRecomposite])%list).
Proof.
  intros Hcfg Hact Hv ds texts w'.
  assert (w' = actInputDigit element digit w) as Hw'
    by (by apply executeAction_input_digit).
  unfold actInputDigit in Hw'. rewrite Hcfg in Hw'. fold ds texts in Hw'.
  split_and!.
  - intros d c1 c2 Hds Hcur. rewrite Hds in Hw'. rewrite Hcur in Hw'.
    exists (nextSingle (String c1 (String c2 EmptyString)) digit).
    destruct (nextSingle_two c1 c2 digit) as (H1 & H2 & H3).
    rewrite Hw'. split_and!; [done..|by intros; apply H3].
  - intros Hlen Hfull. rewrite match_several in Hw' by done.
    rewrite Hw'. rewrite (proj2 (forallb_forall _ _)); [done|].
    intros d Hd%list_elem_of_In. apply negb_true_iff, bool_decide_eq_false_2.
    by apply Hfull.
  - intros Hlen (d0 & Hd0 & Hempty) Hnd.
    rewrite match_several in Hw' by done.
    assert (forallb (λ d, negb (bool_decide (orElse (texts !! layerId d) "-" = "-"))) ds
            = false) as Hnotfull.
    { apply not_true_is_false. intros Hall.
      rewrite forallb_forall in Hall. apply list_elem_of_In in Hd0.
      specialize (Hall _ Hd0). apply negb_true_iff, bool_decide_eq_false_1 in Hall.
      by destruct Hall. }
    assert (w' =
      let currentValues := heldChar texts <$> ds in
      let w1 := shiftLeft ds currentValues 0 (length ds - 1) w in
      let w2 := match last ds with
                | Some d => setDynamicText (layerId d) digit w1
                | None => w1
                end in
      request reqRecomposite
        (foldl (λ w d, request (reqSetLayerText (layerId d)
                                  (heldChar (dynamicTexts (store w2)) d)) w) w2 ds)) as Hw''.
    { rewrite Hw'. by rewrite Hnotfull. }
    clear Hw'. cbv zeta in Hw''.
    destruct (shiftLeft_spec ds (heldChar texts <$> ds) 0 (length ds - 1) w)
      as (Hr1 & Hset & Hkeep); [done|by rewrite length_fmap|lia|].
    set (w1 := shiftLeft ds (heldChar texts <$> ds) 0 (length ds - 1) w) in *.
    destruct (last ds) as [dl|] eqn:Hlast; last first.
    { apply last_None in Hlast. rewrite Hlast in Hlen. simpl in Hlen. lia. }
    assert (ds !! (length ds - 1)%nat = Some dl) as Hdl.
    { rewrite last_lookup in Hlast. by replace (length ds - 1)%nat with (pred (length ds)) by lia. }
    set (w2 := setDynamicText (layerId dl) digit w1) in *.
    destruct (requestLoop_spec
                (λ d, reqSetLayerText (layerId d) (heldChar (dynamicTexts (store w2)) d))
                ds w2) as [Hst3 Hr3]. cbv zeta in Hst3, Hr3.
    assert (store w' = store w2) as Hst by (rewrite Hw''; exact Hst3).
    split_and!.
    + intros i d d' Hd Hd'. rewrite Hst. simpl.
      pose proof (lookup_lt_Some _ _ _ Hd') as Hlt.
      rewrite lookup_insert_ne.
      * apply (Hset i); [lia|done|]. by rewrite list_lookup_fmap, Hd'.
      * intros Heq. assert ((length ds - 1)%nat = i) by (by eapply NoDup_layerId_lookup).
        lia.
    + intros d [= ->]. rewrite Hst. simpl. apply lookup_insert_eq.
    + intros k Hk. rewrite Hst. simpl.
      assert (∀ d, d ∈ ds → layerId d ≠ k) as Hne.
      { intros d Hd Heq. apply Hk, list_elem_of_fmap. by exists d. }
      rewrite lookup_insert_ne by (apply Hne; by eapply list_elem_of_lookup_2).
      apply Hkeep. intros j d _ Hd. apply Hne. by eapply list_elem_of_lookup_2.
    + rewrite Hst. rewrite Hw''.
      match goal with
      | |- requests (request ?r ?X) = _ => change (requests (request r X))
                                             with (requests X ++ [r])%list
      end.
      rewrite Hr3. change (requests w2) with (requests w1). rewrite Hr1.
      by rewrite <- app_assoc.
Qed.

(** C3, the counterexample. The target "d1,d1" names the display d1
    twice: both target displays lie on layer 12 and hold '-'. After the
    digit 1 the first of them does not hold the '-' that its right
    neighbour held before: the digit written for the last one is the text
    of both. *)
Lemma input_digit_repeated_target :
  let w := run [evSetConfig Samples.digitConfig] in
  let element := Samples.digitKey "d1,d1" "1" in
  let ds := displayElemsOf Samples.digitConfig (targetNames element) in
  let w' := executeAction element w in
  ds = [Samples.digit1; Samples.digit1] ∧
  (∀ d, d ∈ ds → heldChar (dynamicTexts (store w)) d = "-") ∧
  ds !! 0%nat = Some Samples.digit1 ∧ ds !! 1%nat = Some Samples.digit1 ∧
  dynamicTexts (store w') !! layerId Samples.digit1 = Some "1" ∧
  dynamicTexts (store w') !! layerId Samples.digit1
  ≠ Some (heldChar (dynamicTexts (store w)) Samples.digit1).
Proof.
  split_and!; try (by vm_compute).
  intros d Hd. apply list_elem_of_In in Hd. vm_compute in Hd.
  by destruct Hd as [<-|[<-|[]]].
Qed.

(** *** Highlight groups *)

Lemma setMultipleVisibility_requests overrides w :
  ∃ rest,
    requests (setMultipleVisibility overrides w) =
      (requests w ++ reqSetMultipleVisibility overrides :: rest)%list ∧
    (rest = [] ∨ ∃ hidden shown, rest = [reqRenderComposite hidden shown]).
Proof.
  unfold setMultipleVisibility. simpl. destruct (psd w).
  - destruct (PsdStore.visibilityLists _ _ _) as [h sh]. simpl.
    exists [reqRenderComposite h sh]. rewrite <- app_assoc. eauto.
  - exists []. eauto.
Qed.

Lemma executeAction_highlight element w :
  isHighlightAction element →
  executeAction element w =
  match truthy (target element) with
  | Some tgt => actHighlight element tgt w
  | None => w
  end.
Proof.
  intros Hact. unfold executeAction.
  destruct Hact as [Hact|Hact]; settle_guards Hact; simpl;
    by destruct (truthy (target element)), (targets element), (value element).
Qed.

Lemma truthy_Some o s : truthy o = Some s → o = Some s ∧ s ≠ EmptyString.
Proof. destruct o as [[|c s']|]; simpl; intros [= <-]; done. Qed.

(** A highlight action whose target names no highlight, or one without a
    group, does nothing. *)
Lemma actHighlight_miss cfg element tgt w :
  config (store w) = Some cfg →
  (∀ targetElem, targetHighlight cfg tgt = Some targetElem →
     truthy (group targetElem) = None) →
  actHighlight element tgt w = w.
Proof.
  intros Hcfg Hmiss. unfold actHighlight. rewrite Hcfg.
  fold (targetHighlight cfg tgt).
  destruct (targetHighlight cfg tgt) as [targetElem|] eqn:Hf; [|done].
  by rewrite (Hmiss targetElem).
Qed.

(** What a highlight action does when its target names a highlight with a
    group: it selects the target in that group, or clears the selection
    of the group, and issues one batch over the members of the group. *)
Lemma actHighlight_effect cfg element tgt targetElem grp w :
  config (store w) = Some cfg → membersApart cfg →
  targetHighlight cfg tgt = Some targetElem →
  truthy (group targetElem) = Some grp →
  let w' := actHighlight element tgt w in
  let selected := selectedHighlights (store w) in
  let isToggleOff :=
    actionIs "toggle_highlight" element && bool_decide (selected !! grp = Some tgt) in
  ∃ batch rest,
    targetElem ∈ groupMembers cfg grp ∧ name targetElem = Some tgt ∧
    store w' =
      setSelectedHighlights
        (if isToggleOff then delete grp selected else <[grp := tgt]> selected) (store w) ∧
    requests w' = (requests w ++ reqSetMultipleVisibility batch :: rest)%list ∧
    (rest = [] ∨ ∃ hidden shown, rest = [reqRenderComposite hidden shown]) ∧
    (∀ k, is_Some (batch !! k) ↔ ∃ h, h ∈ groupMembers cfg grp ∧ layerId h = k) ∧
    (∀ h, h ∈ groupMembers cfg grp →
       batch !! layerId h =
       Some (if isToggleOff then false else bool_decide (name h = Some tgt))).
Proof.
  intros Hcfg Hapart Hf Hg. cbv zeta. unfold actHighlight. rewrite Hcfg.
  fold (targetHighlight cfg tgt). rewrite Hf, Hg.
  unfold targetHighlight in Hf.
  destruct (list_find _ _) as [[i t]|] eqn:Hfind; simpl in Hf; [|done].
  injection Hf as ->.
  apply list_find_Some in Hfind as (Hi & [Hty Hname] & _).
  apply truthy_Some in Hg as [Hg Hne].
  set (isToggleOff := actionIs "toggle_highlight" element && _).
  set (upd := λ h : InteractionElement,
         Some (if isToggleOff then false else bool_decide (name h = Some tgt))).
  set (w1 := withStore _ w).
  change (foldl _ ∅ _) with (applyUpdates upd (groupMembers cfg grp) ∅).
  set (batch := applyUpdates upd (groupMembers cfg grp) ∅).
  destruct (setMultipleVisibility_requests batch w1) as (rest & Hreq & Hrest).
  destruct (setMultipleVisibility_store batch w1) as (Hst & _).
  assert (∀ h, h ∈ groupMembers cfg grp → batch !! layerId h = upd h) as Hbatch.
  { intros h Hh. apply applyUpdates_uniform; [|by exists h].
    intros h' Hh' Hid. left. by rewrite (Hapart grp h' h Hh' Hh (or_introl Hid)). }
  exists batch, rest. split_and!; try done.
  - apply list_elem_of_filter. split; [done|]. by eapply list_elem_of_lookup_2.
  - intros k. split.
    + intros Hk. destruct (decide (Exists (λ h, layerId h = k) (groupMembers cfg grp)))
        as [Hex|Hnex]; rewrite Exists_exists in *; [done|].
      unfold batch in Hk. rewrite applyUpdates_untouched in Hk; [by destruct Hk|].
      intros h ? ?. destruct Hnex. eauto.
    + intros (h & Hh & <-). rewrite Hbatch by done. by eexists.
Qed.

Lemma actHighlight_config element tgt w :
  config (store (actHighlight element tgt w)) = config (store w).
Proof.
  pose proof (actHighlight_view element tgt w) as [= _ _ _ _ _ H]. done.
Qed.

Lemma executeActions_snoc actions element w :
  executeActions (actions ++ [element]) w =
  executeAction element (executeActions actions w).
Proof. unfold executeActions. by rewrite foldl_app. Qed.

(** After highlight actions from an empty selection, the selection of a
    group names a member of that group. *)
Lemma highlight_selection_names_member cfg actions w0 :
  config (store w0) = Some cfg → selectedHighlights (store w0) = ∅ →
  membersApart cfg → Forall isHighlightAction actions →
  let w := executeActions actions w0 in
  config (store w) = Some cfg ∧
  ∀ grp n, selectedHighlights (store w) !! grp = Some n →
    ∃ h, h ∈ groupMembers cfg grp ∧ name h = Some n.
Proof.
  intros Hcfg Hempty Hapart. cbv zeta.
  induction actions as [|element actions IH] using rev_ind; intros Hall.
  - split; [done|]. intros grp n. simpl. rewrite Hempty. by rewrite lookup_empty.
  - apply Forall_app in Hall as [Hall Hel]. apply Forall_inv in Hel.
    destruct (IH Hall) as [Hcfg' Hsel]. rewrite executeActions_snoc.
    set (w := executeActions actions w0) in *.
    rewrite (executeAction_highlight _ _ Hel).
    destruct (truthy (target element)) as [tgt|]; [|done].
    split; [by rewrite actHighlight_config|].
    destruct (targetHighlight cfg tgt) as [targetElem|] eqn:Hf; last first.
    { rewrite (actHighlight_miss cfg); [done..|]. intros t Ht. congruence. }
    destruct (truthy (group targetElem)) as [g|] eqn:Hg; last first.
    { rewrite (actHighlight_miss cfg); [done..|]. intros t Ht. congruence. }
    destruct (actHighlight_effect cfg element tgt targetElem g w Hcfg' Hapart Hf Hg)
      as (batch & rest & Hmem & Hname & Hst & _).
    cbv zeta in Hst. rewrite Hst. simpl. intros grp n.
    destruct (_ && _).
    + intros [_ ?]%lookup_delete_Some. by apply Hsel.
    + intros [[<- <-]|[_ ?]]%lookup_insert_Some; [eauto|by apply Hsel].
Qed.

Lemma isSelected_true st grp h :
  isSelected st grp h = true ↔
  ∃ n, name h = Some n ∧ selectedHighlights st !! grp = Some n.
Proof.
  unfold isSelected. destruct (name h) as [n|].
  - rewrite bool_decide_eq_true. split; [eauto|]. by intros (? & [= <-] & ?).
  - split; [done|]. by intros (? & ? & ?).
Qed.

(** C4, as the code has it. For a config in which the members of a
    highlight group lie on distinct layers and bear distinct names, after
    any sequence of [show_highlight] and [toggle_highlight] actions from
    the empty selection: a group with a selection has a member that is
    selected, and no group has two selected members. A further such action
    whose target names a highlight with a group issues one batch, whose
    entries are exactly the layers of the members of that group, in which
    a member is true exactly when it is the selected one after the
    action, so at most one member is true. When the action is a
    [toggle_highlight] of the name currently selected in the group, the
    selection of the group is cleared and every member is set false;
    otherwise the target becomes the selection and its layer is set
    true. *)
Theorem highlight_group_exclusive cfg actions w0 :
  config (store w0) = Some cfg → selectedHighlights (store w0) = ∅ →
  membersApart cfg → Forall isHighlightAction actions →
  let w := executeActions actions w0 in
  (∀ grp n, selectedHighlights (store w) !! grp = Some n →
     ∃ h, h ∈ groupMembers cfg grp ∧ isSelected (store w) grp h = true) ∧
  (∀ grp h1 h2, h1 ∈ groupMembers cfg grp → h2 ∈ groupMembers cfg grp →
     isSelected (store w) grp h1 = true → isSelected (store w) grp h2 = true →
     h1 = h2) ∧
  (∀ element tgt targetElem grp,
     isHighlightAction element → truthy (target element) = Some tgt →
     targetHighlight cfg tgt = Some targetElem →
     truthy (group targetElem) = Some grp →
     let w' := executeAction element w in
     let off := bool_decide (action element = Some "toggle_highlight" ∧
                             selectedHighlights (store w) !! grp = Some tgt) in
     ∃ batch rest,
       requests w' = (requests w ++ reqSetMultipleVisibility batch :: rest)%list ∧
       (rest = [] ∨ ∃ hidden shown, rest = [reqRenderComposite hidden shown]) ∧
       selectedHighlights (store w') =
         (if off then delete grp (selectedHighlights (store w))
          else <[grp := tgt]> (selectedHighlights (store w))) ∧
       (∀ k, is_Some (batch !! k) ↔ ∃ h, h ∈ groupMembers cfg grp ∧ layerId h = k) ∧
       (∀ h, h ∈ groupMembers cfg grp →
          batch !! layerId h = Some (isSelected (store w') grp h)) ∧
       (∀ h1 h2, h1 ∈ groupMembers cfg grp → h2 ∈ groupMembers cfg grp →
          batch !! layerId h1 = Some true → batch !! layerId h2 = Some true →
          h1 = h2) ∧
       if off
       then selectedHighlights (store w') !! grp = None ∧
            ∀ h, h ∈ groupMembers cfg grp → batch !! layerId h = Some false
       else selectedHighlights (store w') !! grp = Some tgt ∧
            batch !! layerId targetElem = Some true).
Proof.
  intros Hcfg Hempty Hapart Hall. cbv zeta.
  destruct (highlight_selection_names_member cfg actions w0 Hcfg Hempty Hapart Hall)
    as [Hcfg' Hsel]. cbv zeta in Hcfg', Hsel.
  set (w := executeActions actions w0) in *.
  assert (∀ st grp h1 h2, h1 ∈ groupMembers cfg grp → h2 ∈ groupMembers cfg grp →
            isSelected st grp h1 = true → isSelected st grp h2 = true → h1 = h2)
    as Hunique.
  { intros st grp h1 h2 Hh1 Hh2 (n1 & Hn1 & Hs1)%isSelected_true
           (n2 & Hn2 & Hs2)%isSelected_true.
    apply (Hapart grp h1 h2 Hh1 Hh2). right. exists n1. split; [done|]. congruence. }
  split_and!.
  - intros grp n Hn. destruct (Hsel grp n Hn) as (h & Hh & Hname).
    exists h. split; [done|]. apply isSelected_true. eauto.
  - apply Hunique.
  - intros element tgt targetElem grp Hel Htgt Hf Hg.
    rewrite (executeAction_highlight _ _ Hel), Htgt.
    destruct (actHighlight_effect cfg element tgt targetElem grp w Hcfg' Hapart Hf Hg)
      as (batch & rest & Hmem & Hname & Hst & Hreq & Hrest & Hdom & Hbatch).
    cbv zeta in Hst, Hbatch. exists batch, rest.
    set (w' := actHighlight element tgt w) in *.
    assert (actionIs "toggle_highlight" element
            && bool_decide (selectedHighlights (store w) !! grp = Some tgt)
            = bool_decide (action element = Some "toggle_highlight" ∧
                           selectedHighlights (store w) !! grp = Some tgt)) as Hoff.
    { unfold actionIs. rewrite <- bool_decide_and. done. }
    rewrite Hoff in Hst, Hbatch. clear Hoff.
    set (off := bool_decide (action element = Some "toggle_highlight" ∧ _)) in *.
    assert (∀ h, h ∈ groupMembers cfg grp →
              batch !! layerId h = Some (isSelected (store w') grp h)) as Hsem.
    { intros h Hh. rewrite (Hbatch h Hh). f_equal. rewrite Hst. unfold isSelected. simpl.
      destruct off.
      - rewrite lookup_delete_eq. by destruct (name h).
      - rewrite lookup_insert_eq. destruct (name h) as [n|]; [|done].
        apply bool_decide_ext. split; congruence. }
    split_and!; try done.
    + by rewrite Hst.
    + intros h1 h2 Hh1 Hh2 H1 H2. rewrite Hsem in H1, H2 by done.
      apply (Hunique (store w') grp h1 h2); [done..|congruence|congruence].
    + rewrite Hst. simpl. destruct off.
      * split; [apply lookup_delete_eq|]. intros h Hh. by rewrite (Hbatch h Hh).
      * split; [apply lookup_insert_eq|]. rewrite (Hbatch _ Hmem).
        by rewrite bool_decide_eq_true_2.
Qed.

(** C4, the counterexample. In the group vote of [Samples.twinVote] two
    members on the layers 31 and 32 bear the name yes: after
    [show_highlight] of yes both are selected and the batch sets both
    layers true. In [Samples.stackedVote] the members yes and no share
    layer 31: after [show_highlight] of yes the batch sets the layer of
    the selected member false. *)
Lemma highlight_members_not_apart :
  (let w := run [evSetConfig Samples.twinVote] in
   let w' := executeAction (Samples.select "yes") w in
   selectedHighlights (store w) = ∅ ∧
   groupMembers Samples.twinVote "vote" = [Samples.voteYes; Samples.voteYesTwin] ∧
   Samples.voteYes ≠ Samples.voteYesTwin ∧
   isSelected (store w') "vote" Samples.voteYes = true ∧
   isSelected (store w') "vote" Samples.voteYesTwin = true ∧
   ∃ batch,
     requests w' = (requests w ++ [reqSetMultipleVisibility batch])%list ∧
     batch !! 31 = Some true ∧ batch !! 32 = Some true) ∧
  (let w := run [evSetConfig Samples.stackedVote] in
   let w' := executeAction (Samples.select "yes") w in
   selectedHighlights (store w) = ∅ ∧
   groupMembers Samples.stackedVote "vote" = [Samples.voteYes; Samples.voteNoStacked] ∧
   isSelected (store w') "vote" Samples.voteYes = true ∧
   isSelected (store w') "vote" Samples.voteNoStacked = false ∧
   ∃ batch,
     requests w' = (requests w ++ [reqSetMultipleVisibility batch])%list ∧
     batch !! layerId Samples.voteYes = Some false).
Proof.
  split; split_and!; try (by vm_compute).
  - eexists. split_and!; [vm_compute; reflexivity|by vm_compute..].
  - eexists. split_and!; [vm_compute; reflexivity|by vm_compute..].
Qed.

(** *** The properties at sample inputs *)

(** A timer without a delay, armed on entering screen a, is scheduled at
    5000 ms. *)
Lemma startScreenTimers_default_delay :
  let '(ids, w') := startScreenTimers Samples.timedScreens "a" initialWorld in
  ∃ id task, id ∈ ids ∧ timers w' !! id = Some task ∧
    task = screenTimeout Samples.idleTimer 5000 "a" (navigations initialWorld).
Proof.
  apply (startScreenTimers_delay Samples.timedScreens "a" initialWorld Samples.idleTimer).
  - apply list_elem_of_In. simpl. tauto.
  - reflexivity.
  - exists ["a"]. split; [reflexivity|]. left.
Defined.

(** After [setConfig] the idle timer of screen a is active; any navigation
    clears it. *)
Lemma idle_timer_cleared_by_navigation :
  let w := run [evSetConfig Samples.timedScreens] in
  timers w !! 1%nat = Some (screenTimeout Samples.idleTimer 5000 "a" 1) ∧
  currentScreen (store w) = Some "a" ∧
  ∀ destination, timers (navigateToScreen destination w) !! 1%nat = None.
Proof.
  intros w.
  destruct (screen_timer_confined_to_its_screen [evSetConfig Samples.timedScreens]
              1%nat Samples.idleTimer 5000 "a" 1%nat eq_refl)
    as ((Hcur & _) & Hnav & _).
  split_and!; [reflexivity|exact Hcur|exact Hnav].
Defined.

(** A [show_popup] that names no popup changes nothing. *)
Lemma show_unknown_popup_is_noop :
  let w := run [evLoadPsd Samples.twoScreenLayers; evSetConfig Samples.twoScreens] in
  let element := Samples.acting "show_popup" "missing" (Samples.element 11 "button") in
  executeAction element w = w.
Proof.
  intros w element.
  apply (executeAction_unresolved Samples.twoScreens element w); [reflexivity|].
  right. left. exists "missing". split_and!; [reflexivity..|].
  intros p' Hp. apply list_elem_of_In in Hp. simpl in Hp.
  destruct Hp as [<-|[<-|[]]]; done.
Defined.

Lemma displayElemsOf_count :
  displayElemsOf Samples.digitConfig (targetNames (Samples.digitKey "count" "1"))
  = [Samples.counter].
Proof. by vm_compute. Qed.

(** Single display, from '--': the first digit gives '-1'. *)
Lemma input_digit_first :
  let w := run [evSetConfig Samples.digitConfig] in
  dynamicTexts (store w) !! 11 = Some "--" ∧
  dynamicTexts (store (executeAction (Samples.digitKey "count" "1") w)) !! 11
  = Some "-1".
Proof.
  intros w. split; [reflexivity|].
  destruct (input_digit_shift_register Samples.digitConfig
              (Samples.digitKey "count" "1") "1" w eq_refl eq_refl eq_refl)
    as (Hsingle & _).
  destruct (Hsingle Samples.counter "-"%char "-"%char displayElemsOf_count eq_refl)
    as (next & Htexts & _ & Hnext & _).
  rewrite Htexts, (Hnext eq_refl eq_refl). apply lookup_insert_eq.
Defined.

Lemma membersApart_voteConfig : membersApart Samples.voteConfig.
Proof.
  intros grp h1 h2 [_ H1]%list_elem_of_filter [_ H2]%list_elem_of_filter.
  apply list_elem_of_In in H1, H2. simpl in H1, H2.
  destruct H1 as [<-|[<-|[<-|[]]]], H2 as [<-|[<-|[<-|[]]]];
    intros [?|(? & ? & ?)]; by simplify_eq/=.
Qed.

(** Selecting yes and then no in the group vote leaves no selected;
    toggling no then clears the selection of the group and sets the
    layers 31 and 32 of its members false. *)
Lemma vote_toggle_clears :
  let w0 := run [evSetConfig Samples.voteConfig] in
  let w := executeActions [Samples.select "yes"; Samples.select "no"] w0 in
  let w' := executeAction (Samples.toggle "no") w in
  selectedHighlights (store w) !! "vote" = Some "no" ∧
  selectedHighlights (store w') !! "vote" = None ∧
  ∃ batch rest,
    requests w' = (requests w ++ reqSetMultipleVisibility batch :: rest)%list ∧
    batch !! 31 = Some false ∧ batch !! 32 = Some false.
Proof.
  intros w0 w w'.
  assert (selectedHighlights (store w) !! "vote" = Some "no") as Hsel by (by vm_compute).
  split; [exact Hsel|].
  destruct (highlight_group_exclusive Samples.voteConfig
              [Samples.select "yes"; Samples.select "no"] w0 eq_refl eq_refl
              membersApart_voteConfig) as (_ & _ & Hact).
  - repeat constructor.
  - destruct (Hact (Samples.toggle "no") "no" Samples.voteNo "vote")
      as (batch & rest & Hreq & _ & _ & _ & _ & _ & Hoff);
      [by right|reflexivity|by vm_compute|reflexivity|].
    fold w in Hreq, Hoff. fold w' in Hreq, Hoff.
    rewrite bool_decide_eq_true_2 in Hoff by (split; [reflexivity|exact Hsel]).
    destruct Hoff as [Hnone Hfalse]. split; [exact Hnone|].
    exists batch, rest. split_and!; [exact Hreq| |].
    + apply (Hfalse Samples.voteYes). apply list_elem_of_In. vm_compute. tauto.
    + apply (Hfalse Samples.voteNo). apply list_elem_of_In. vm_compute. tauto.
Defined.

(** The display count has no configured value: '--' after [setConfig],
    '-' after [clear_input]. *)
Lemma counter_default_texts :
  let w := setConfig Samples.digitConfig initialWorld in
  dynamicTexts (store w) !! 11 = Some "--" ∧
  dynamicTexts (store (executeAction (Samples.clearKey "count") w)) !! 11 = Some "-".
Proof.
  intros w.
  destruct (default_text_asymmetry Samples.digitConfig Samples.counter)
    as (Hseed & Hclear & _).
  - apply list_elem_of_In. simpl. tauto.
  - by left.
  - reflexivity.
  - intros d Hd Hdisp Hid. apply list_elem_of_In in Hd. simpl in Hd.
    destruct Hd as [<-|[<-|[<-|[<-|[]]]]]; done.
  - split; [apply Hseed|].
    apply (Hclear w (Samples.clearKey "count")); [reflexivity..|].
    by vm_compute; left.
Defined.

(** *** The digit-entry examples *)

Example single_display_saturates :
  let w0 := run [evSetConfig Samples.digitConfig] in
  let w1 := executeAction (Samples.digitKey "count" "1") w0 in
  let w2 := executeAction (Samples.digitKey "count" "2") w1 in
  let w3 := executeAction (Samples.digitKey "count" "3") w2 in
  dynamicTexts (store w0) !! 11 = Some "--" ∧
  dynamicTexts (store w1) !! 11 = Some "-1" ∧
  dynamicTexts (store w2) !! 11 = Some "12" ∧
  dynamicTexts (store w3) !! 11 = Some "12".
Proof. by vm_compute. Qed.

Example two_displays_shift :
  let w0 := run [evSetConfig Samples.digitConfig] in
  let w1 := executeAction (Samples.digitKey "d1,d2" "1") w0 in
  let w2 := executeAction (Samples.digitKey "d1,d2" "2") w1 in
  let w3 := executeAction (Samples.digitKey "d1,d2" "3") w2 in
  (dynamicTexts (store w1) !! 12, dynamicTexts (store w1) !! 13) = (Some "-", Some "1") ∧
  (dynamicTexts (store w2) !! 12, dynamicTexts (store w2) !! 13) = (Some "1", Some "2") ∧
  w3 = w2.
Proof. by vm_compute. Qed.

End InteractionFacts.

(** ** psd-store: group bounds *)

Module BoundsFacts.
Import PsdStore.

Lemma boundGroup_length layers i : length (boundGroup layers i) = length layers.
Proof.
  unfold boundGroup. destruct (layers !! i) as [g|]; [|done].
  destruct (negb _); [done|]. destruct (hasArea g); [done|].
  destruct (boundsScan _ _ _) as [[[[minX minY] maxX] maxY]|]; [|done].
  by rewrite length_insert.
Qed.

(** An iteration writes index [i] only. *)
Lemma boundGroup_other layers i j :
  i ≠ j → boundGroup layers i !! j = layers !! j.
Proof.
  intros Hij. unfold boundGroup. destruct (layers !! i) as [g|]; [|done].
  destruct (negb _); [done|]. destruct (hasArea g); [done|].
  destruct (boundsScan _ _ _) as [[[[minX minY] maxX] maxY]|]; [|done].
  by rewrite list_lookup_insert_ne.
Qed.

Lemma boundGroup_at layers i :
  boundGroup layers i !! i
  = (λ l, boundedLayer l (drop (S i) layers)) <$> layers !! i.
Proof.
  unfold boundGroup, boundedLayer. destruct (layers !! i) as [g|] eqn:Hg; [|by rewrite Hg].
  simpl. destruct (bool_decide (type g = group)); simpl; [|done].
  destruct (hasArea g); simpl; [done|].
  destruct (boundsScan _ _ _) as [[[[minX minY] maxX] maxY]|]; [|done].
  rewrite list_lookup_insert_eq; [done|]. by eapply lookup_lt_Some.
Qed.

(** The invariant of the outer loop: after [n] iterations the first [n]
    layers are final, computed from the layers that follow them in the
    array as it was given, and the others are as given. *)
Lemma boundLoop_spec layers n i :
  foldl boundGroup layers (seq 0 n) !! i
  = if decide (i < n)%nat
    then (λ l, boundedLayer l (drop (S i) layers)) <$> layers !! i
    else layers !! i.
Proof.
  revert i. induction n as [|n IH]; intros i; [done|].
  rewrite seq_S, foldl_app. simpl.
  set (cur := foldl boundGroup layers (seq 0 n)) in *.
  destruct (decide (i = n)) as [->|Hne].
  - rewrite boundGroup_at, decide_True by lia.
    rewrite IH, decide_False by lia.
    destruct (layers !! n) as [l|]; [|done]. simpl. do 2 f_equal.
    apply list_eq. intros k. rewrite !lookup_drop, IH.
    by rewrite decide_False by lia.
  - rewrite boundGroup_other by done. rewrite IH.
    destruct (decide (i < n)%nat), (decide (i < S n)%nat); try done; lia.
Qed.

Lemma computeGroupBounds_lookup layers i :
  computeGroupBounds layers !! i
  = (λ l, boundedLayer l (drop (S i) layers)) <$> layers !! i.
Proof.
  unfold computeGroupBounds. rewrite boundLoop_spec.
  destruct (decide (i < length layers)%nat) as [|Hge]; [done|].
  rewrite (lookup_ge_None_2 layers i); [done|lia].
Qed.

Lemma computeGroupBounds_length layers :
  length (computeGroupBounds layers) = length layers.
Proof.
  unfold computeGroupBounds. generalize (seq 0 (length layers)). intros ns.
  revert layers. induction ns as [|n ns IH]; intros layers; [done|].
  simpl. by rewrite IH, boundGroup_length.
Qed.

Lemma boundedLayer_fields l later :
  id (boundedLayer l later) = id l ∧ name (boundedLayer l later) = name l ∧
  type (boundedLayer l later) = type l ∧ visible (boundedLayer l later) = visible l.
Proof.
  unfold boundedLayer. destruct (_ && _); [|done].
  by destruct (boundsScan _ _ _) as [[[[minX minY] maxX] maxY]|].
Qed.

Lemma computeGroupBounds_sameButRects layers :
  sameButRects layers (computeGroupBounds layers).
Proof.
  apply Forall2_same_length_lookup. split.
  - by rewrite computeGroupBounds_length.
  - intros i l l' Hl Hl'. rewrite computeGroupBounds_lookup, Hl in Hl'.
    simplify_eq/=. apply boundedLayer_fields.
Qed.

(** The inner loop folds the members of the group. *)
Lemma boundsScan_groupSpan children depth b :
  boundsScan children depth b
  = foldl (λ b c, if hasArea c then Some (extendBounds b c) else b) b
      (groupSpan children depth).
Proof.
  revert depth b. induction children as [|child rest IH]; intros depth b; [done|].
  simpl. destruct (type child); simpl; [apply IH|apply IH|].
  destruct depth; [done|apply IH].
Qed.

Lemma foldBounds_None cs :
  foldl (λ b c, if hasArea c then Some (extendBounds b c) else b) None cs = None ↔
  ∀ c, c ∈ cs → hasArea c = false.
Proof.
  assert (∀ cs b, foldl (λ b c, if hasArea c then Some (extendBounds b c) else b)
                    (Some b) cs ≠ None) as Hsome.
  { clear cs. induction cs as [|c cs IH]; intros b; [done|]. simpl.
    destruct (hasArea c); apply IH. }
  induction cs as [|c cs IH]; simpl.
  - split; [|done]. by intros _ c ?%elem_of_nil.
  - destruct (hasArea c) eqn:Hc.
    + split; [by intros ?%Hsome|]. intros H. specialize (H c (list_elem_of_here _ _)).
      congruence.
    + rewrite IH. split.
      * intros H c' [->|?]%elem_of_cons; [done|by apply H].
      * intros H c' ?. apply H. by right.
Qed.

Lemma foldBounds_Some cs b bx :
  foldl (λ b c, if hasArea c then Some (extendBounds b c) else b) (Some b) cs = Some bx →
  boundsLe b bx ∧ ∀ c, c ∈ cs → hasArea c = true → inBounds bx c.
Proof.
  revert b. induction cs as [|c cs IH]; intros b; simpl.
  - intros [= <-]. split; [|by intros c ?%elem_of_nil].
    destruct b as [[[minX minY] maxX] maxY]. simpl. lia.
  - destruct (hasArea c) eqn:Hc.
    + intros [Hle Hin]%IH.
      destruct b as [[[minX minY] maxX] maxY], bx as [[[minX' minY'] maxX'] maxY'].
      simpl in *. split; [lia|].
      intros c' [->|?]%elem_of_cons ?; [lia|by apply Hin].
    + intros [Hle Hin]%IH. split; [done|].
      intros c' [->|?]%elem_of_cons ?; [congruence|by apply Hin].
Qed.

Lemma foldBounds_attained cs b bx :
  foldl (λ b c, if hasArea c then Some (extendBounds b c) else b) (Some b) cs = Some bx →
  ∀ cs0, attained b cs0 → attained bx (cs0 ++ cs)%list.
Proof.
  revert b. induction cs as [|c cs IH]; intros b; simpl.
  - intros [= <-] cs0 H. by rewrite app_nil_r.
  - intros Hf cs0 Hb. rewrite (cons_middle c cs0 cs), app_assoc.
    destruct (hasArea c) eqn:Hc; last first.
    { apply (IH _ Hf). destruct b as [[[minX minY] maxX] maxY]. simpl in *.
      destruct Hb as ((c1 & ? & ? & ?) & (c2 & ? & ? & ?) & (c3 & ? & ? & ?)
                      & (c4 & ? & ? & ?)).
      split_and!; [exists c1|exists c2|exists c3|exists c4];
        (split_and!; [|done..]); apply elem_of_app; by left. }
    apply (IH _ Hf). destruct b as [[[minX minY] maxX] maxY]. simpl in *.
    destruct Hb as ((c1 & ? & ? & ?) & (c2 & ? & ? & ?) & (c3 & ? & ? & ?)
                    & (c4 & ? & ? & ?)).
    assert (c ∈ (cs0 ++ [c])%list) as Hin by (apply elem_of_app; right; by left).
    split_and!.
    + destruct (Z.min_spec minX (x c)) as [[_ ->]|[_ ->]];
        [exists c1|exists c]; (split_and!; [|done..]); [apply elem_of_app; by left|done].
    + destruct (Z.min_spec minY (y c)) as [[_ ->]|[_ ->]];
        [exists c2|exists c]; (split_and!; [|done..]); [apply elem_of_app; by left|done].
    + destruct (Z.max_spec maxX (x c + width c)) as [[_ ->]|[_ ->]];
        [exists c|exists c3]; (split_and!; [|done..]); [done|apply elem_of_app; by left].
    + destruct (Z.max_spec maxY (y c + height c)) as [[_ ->]|[_ ->]];
        [exists c|exists c4]; (split_and!; [|done..]); [done|apply elem_of_app; by left].
Qed.

(** The bounds that the fold reaches from the initial ones. *)
Lemma foldBounds_box cs bx :
  foldl (λ b c, if hasArea c then Some (extendBounds b c) else b) None cs = Some bx →
  (∀ c, c ∈ cs → hasArea c = true → inBounds bx c) ∧ attained bx cs.
Proof.
  induction cs as [|c cs IH]; [done|]. simpl.
  destruct (hasArea c) eqn:Hc.
  - intros Hf. pose proof (foldBounds_Some _ _ _ Hf) as [Hle Hin].
    pose proof (foldBounds_attained _ _ _ Hf [c]) as Hatt. split.
    + intros c' [->|?]%elem_of_cons ?; [|by apply Hin].
      destruct bx as [[[minX minY] maxX] maxY]. simpl in *. lia.
    + apply Hatt. simpl.
      split_and!; exists c; split_and!; try done; by left.
  - intros [Hin Hatt]%IH. split.
    + intros c' [->|?]%elem_of_cons ?; [congruence|by apply Hin].
    + destruct bx as [[[minX minY] maxX] maxY]. simpl in *.
      destruct Hatt as ((c1 & ? & ? & ?) & (c2 & ? & ? & ?) & (c3 & ? & ? & ?)
                        & (c4 & ? & ? & ?)).
      split_and!; [exists c1|exists c2|exists c3|exists c4];
        (split_and!; [|done..]); by right.
Qed.

Lemma sameButRects_list_find layers layers' layerId :
  sameButRects layers layers' →
  fst <$> list_find (λ l, id l = layerId) layers'
  = fst <$> list_find (λ l, id l = layerId) layers ∧
  (visible ∘ snd) <$> list_find (λ l, id l = layerId) layers'
  = (visible ∘ snd) <$> list_find (λ l, id l = layerId) layers.
Proof.
  induction 1 as [|l l' layers layers' (Hid & _ & _ & Hv) _ IH]; [done|].
  simpl. rewrite Hid.
  destruct (decide (id l = layerId)); simpl; [by rewrite Hv|].
  destruct IH as [IH1 IH2].
  destruct (list_find _ layers) as [[? ?]|], (list_find _ layers') as [[? ?]|];
    simpl in *; simplify_eq; split; congruence.
Qed.

Lemma sameButRects_lookup layers layers' i :
  sameButRects layers layers' →
  match layers !! i, layers' !! i with
  | Some l, Some l' => id l' = id l ∧ type l' = type l ∧ visible l' = visible l
  | None, None => True
  | _, _ => False
  end.
Proof.
  intros H. destruct (layers !! i) as [l|] eqn:Hl.
  - destruct (Forall2_lookup_l _ _ _ _ _ H Hl) as (l' & -> & ? & ? & ? & ?). done.
  - apply lookup_ge_None in Hl. rewrite (Forall2_length _ _ _ H) in Hl.
    by rewrite (lookup_ge_None_2 layers' i).
Qed.

Lemma sameButRects_ancestorScan layers layers' i depth acc :
  sameButRects layers layers' →
  ancestorScan layers' i depth acc = ancestorScan layers i depth acc.
Proof.
  intros H. revert depth acc. induction i as [|i IH]; intros depth acc; [done|].
  simpl. pose proof (sameButRects_lookup layers layers' i H) as Hi.
  destruct (layers !! i) as [l|], (layers' !! i) as [l'|]; try done.
  destruct Hi as (-> & -> & _). destruct (type l); [done| |done]. by destruct depth.
Qed.

Lemma sameButRects_ancestorsVisible layers layers' overrides ancestorIds :
  sameButRects layers layers' →
  ancestorsVisible layers' overrides ancestorIds
  = ancestorsVisible layers overrides ancestorIds.
Proof.
  intros H. induction ancestorIds as [|a rest IH]; [done|]. simpl.
  destruct (sameButRects_list_find layers layers' a H) as [_ Hv]. unfold find.
  destruct (list_find _ layers) as [[? ?]|], (list_find _ layers') as [[? ?]|];
    simpl in *; simplify_eq; [|done]. by rewrite Hv, IH.
Qed.

(** Visibility resolution reads ids, types and flags only. *)
Lemma sameButRects_computeEffectiveVisibility layers layers' layerId overrides :
  sameButRects layers layers' →
  computeEffectiveVisibility layers' layerId overrides
  = computeEffectiveVisibility layers layerId overrides.
Proof.
  intros H. unfold computeEffectiveVisibility, findIndex.
  destruct (sameButRects_list_find layers layers' layerId H) as [-> _].
  destruct (fst <$> _) as [i|]; [|done].
  pose proof (sameButRects_lookup layers layers' i H) as Hi.
  destruct (layers !! i) as [l|], (layers' !! i) as [l'|]; try done.
  destruct Hi as (_ & _ & ->). destruct (negb _); [done|]. unfold getAncestorGroupIds.
  rewrite (sameButRects_ancestorScan layers layers') by done.
  by apply sameButRects_ancestorsVisible.
Qed.

Lemma sameButRects_visibilityLists all all' ls ls' overrides :
  sameButRects all all' → sameButRects ls ls' →
  visibilityLists all' ls' overrides = visibilityLists all ls overrides.
Proof.
  intros Hall. induction 1 as [|l l' ls ls' (Hid & _ & Ht & Hv) _ IH]; [done|].
  simpl. rewrite IH, Ht, Hid, Hv.
  by rewrite (sameButRects_computeEffectiveVisibility _ _ _ _ Hall).
Qed.

(** X1. [computeGroupBounds] updates the array in place while it scans
    it, yet every layer is computed from the array as it was given: a
    layer other than a group, or a group with an area, is kept, and a
    group without area receives the bounds that the inner loop reaches on
    the given layers that follow it (and is kept when the loop finds no
    layer with an area). *)
Theorem computeGroupBounds_spec layers :
  computeGroupBounds layers
  = imap (λ i l, boundedLayer l (drop (S i) layers)) layers.
Proof.
  apply list_eq. intros i.
  by rewrite computeGroupBounds_lookup, list_lookup_imap.
Qed.

(** X2. [computeGroupBounds] keeps the length of the sequence and the id,
    name, type and flag of every layer, so visibility resolution gives the
    same answers on the sequence that [loadPsd] installs as on the parsed
    one: [computeEffectiveVisibility], [getAncestorGroupIds] and the
    hidden/shown lists are unchanged. *)
Theorem computeGroupBounds_visibility layers layerId overrides i :
  sameButRects layers (computeGroupBounds layers) ∧
  computeEffectiveVisibility (computeGroupBounds layers) layerId overrides
  = computeEffectiveVisibility layers layerId overrides ∧
  getAncestorGroupIds (computeGroupBounds layers) i = getAncestorGroupIds layers i ∧
  visibilityLists (computeGroupBounds layers) (computeGroupBounds layers) overrides
  = visibilityLists layers layers overrides.
Proof.
  pose proof (computeGroupBounds_sameButRects layers) as H. split_and!; [done|..].
  - by apply sameButRects_computeEffectiveVisibility.
  - by apply sameButRects_ancestorScan.
  - by apply sameButRects_visibilityLists.
Qed.

(** X3. A group without area at index [i] ends up with the bounding box
    of its members that have an area (the layers up to the marker that
    closes it, at any depth, with the rectangles they were given): the
    new rectangle contains each of them, each of its sides is a side of
    one of them, and it has an area; if no member has an area the group
    is left as it was. *)
Theorem computeGroupBounds_encloses layers i g g' :
  layers !! i = Some g → type g = group → hasArea g = false →
  computeGroupBounds layers !! i = Some g' →
  let members := groupSpan (drop (S i) layers) O in
  ((∀ c, c ∈ members → hasArea c = false) → g' = g) ∧
  ((∃ c, c ∈ members ∧ hasArea c = true) →
     hasArea g' = true ∧
     (∀ c, c ∈ members → hasArea c = true → encloses g' c) ∧
     attained (x g', y g', x g' + width g', y g' + height g')%Z members).
Proof.
  intros Hg Ht Ha Hg' members.
  rewrite computeGroupBounds_lookup, Hg in Hg'. simplify_eq/=.
  unfold boundedLayer. rewrite Ht, Ha, bool_decide_eq_true_2 by done. simpl.
  rewrite boundsScan_groupSpan. fold members.
  destruct (foldl _ None members) as [[[[minX minY] maxX] maxY]|] eqn:Hf.
  - apply foldBounds_box in Hf as [Hin Hatt]. split.
    + intros Hnone. destruct Hatt as ((c & Hc & Hca & _) & _).
      rewrite (Hnone c Hc) in Hca. done.
    + intros _. simpl in Hatt.
      destruct Hatt as ((c1 & Hc1 & Ha1 & Hx1) & (c2 & Hc2 & Ha2 & Hy2)
                        & (c3 & Hc3 & Ha3 & Hx3) & (c4 & Hc4 & Ha4 & Hy4)).
      split; [|split].
      * pose proof (Hin c1 Hc1 Ha1) as Hb1. pose proof (Hin c2 Hc2 Ha2) as Hb2.
        unfold hasArea in *. simpl in *.
        apply andb_true_iff in Ha1 as [?%Z.ltb_lt ?%Z.ltb_lt].
        apply andb_true_iff in Ha2 as [?%Z.ltb_lt ?%Z.ltb_lt].
        apply andb_true_iff. split; apply Z.ltb_lt; lia.
      * intros c Hc Hca. specialize (Hin c Hc Hca). unfold encloses. simpl in *. lia.
      * simpl.
        replace (minX + (maxX - minX))%Z with maxX by lia.
        replace (minY + (maxY - minY))%Z with maxY by lia.
        split_and!; [by exists c1|by exists c2|by exists c3|by exists c4].
  - pose proof (proj1 (foldBounds_None members) Hf) as Hnone. split; [done|].
    intros (c & Hc & Hca). rewrite (Hnone c Hc) in Hca. done.
Qed.

(** In [Samples.panelLayers] the folder 1 receives the rectangle
    [(5, 20)-(40, 60)], the union of the layers 2 and 4; the layer 5, after
    its closing marker, does not count. *)
Lemma computeGroupBounds_panel :
  let g' := Samples.placed 1 group 5 20 35 40 in
  computeGroupBounds Samples.panelLayers !! 0%nat = Some g' ∧
  hasArea g' = true ∧
  encloses g' (Samples.placed 2 layer 10 20 30 40) ∧
  encloses g' (Samples.placed 4 layer 5 50 10 10).
Proof.
  pose proof (computeGroupBounds_encloses Samples.panelLayers 0
                (Samples.placed 1 group 0 0 0 0) (Samples.placed 1 group 5 20 35 40)
                eq_refl eq_refl eq_refl eq_refl) as [_ H].
  cbv zeta in H. destruct H as (Harea & Hin & _).
  { exists (Samples.placed 2 layer 10 20 30 40). split; [|done]. simpl. by left. }
  split_and!; [done|done|..].
  - apply Hin; [|done]. simpl. by left.
  - apply Hin; [|done]. simpl. right. right. by left.
Defined.

End BoundsFacts.

(** ** psd-store: overrides and render lists *)

Module OverrideFacts.
Import PsdStore VisibilityFacts.

Lemma findIndex_find layers layerId i :
  findIndex layerId layers = Some i →
  ∃ l, layers !! i = Some l ∧ find layerId layers = Some l.
Proof.
  unfold findIndex, find. destruct (list_find _ layers) as [[i' l]|] eqn:E; [|done].
  intros [= <-]. exists l. split; [|done]. by apply list_find_Some in E as (? & _).
Qed.

Lemma ancestorsVisible_agree layers ov1 ov2 ancestorIds :
  (∀ a l, a ∈ ancestorIds → find a layers = Some l →
     overrideOr ov1 a (visible l) = overrideOr ov2 a (visible l)) →
  ancestorsVisible layers ov1 ancestorIds = ancestorsVisible layers ov2 ancestorIds.
Proof.
  induction ancestorIds as [|a rest IH]; intros H; [done|]. simpl.
  destruct (find a layers) as [l|] eqn:Hf.
  - rewrite (H a l) by (done || by left). rewrite IH; [done|].
    intros a' l' ? ?. apply H; [by right|done].
  - apply IH. intros a' l' ? ?. apply H; [by right|done].
Qed.

(** The resolver reads the override map through the own visibility of
    the layer and of its ancestors only. *)
Lemma computeEffectiveVisibility_agree layers layerId ov1 ov2 :
  (∀ i a l, findIndex layerId layers = Some i →
     a = layerId ∨ a ∈ getAncestorGroupIds layers i →
     find a layers = Some l →
     overrideOr ov1 a (visible l) = overrideOr ov2 a (visible l)) →
  computeEffectiveVisibility layers layerId ov1
  = computeEffectiveVisibility layers layerId ov2.
Proof.
  intros H. unfold computeEffectiveVisibility.
  destruct (findIndex layerId layers) as [i|] eqn:Hi; [|done].
  destruct (findIndex_find _ _ _ Hi) as (l & -> & Hf).
  rewrite (H i layerId l) by (done || by left).
  destruct (negb _); [done|]. apply ancestorsVisible_agree.
  intros a l' ? ?. apply (H i); [done|by right|done].
Qed.

Lemma overrideOr_agree (ov1 ov2 : gmap Z bool) a b :
  ov1 !! a = ov2 !! a → overrideOr ov1 a b = overrideOr ov2 a b.
Proof. unfold overrideOr. by intros ->. Qed.

(** Effective visibility implies own visibility. *)
Lemma computeEffectiveVisibility_own layers layerId overrides :
  computeEffectiveVisibility layers layerId overrides = true →
  ∃ l, find layerId layers = Some l ∧ overrideOr overrides layerId (visible l) = true.
Proof.
  unfold computeEffectiveVisibility.
  destruct (findIndex layerId layers) as [i|] eqn:Hi; [|done].
  destruct (findIndex_find _ _ _ Hi) as (l & -> & Hf).
  destruct (overrideOr overrides layerId (visible l)) eqn:Hown; [|done].
  intros _. by exists l.
Qed.

Lemma visibilityLists_hidden all ls overrides a :
  a ∈ (visibilityLists all ls overrides).1 ↔
  ∃ l, l ∈ ls ∧ type l ≠ groupEnd ∧ id l = a ∧ visible l = true ∧
       computeEffectiveVisibility all a overrides = false.
Proof.
  induction ls as [|l ls IH]; simpl.
  - split; [by intros ?%elem_of_nil|]. by intros (? & ?%elem_of_nil & _).
  - destruct (visibilityLists all ls overrides) as [hidden shown]. simpl in IH.
    assert ((∃ l', l' ∈ l :: ls ∧ type l' ≠ groupEnd ∧ id l' = a ∧ visible l' = true ∧
                computeEffectiveVisibility all a overrides = false) ↔
            (type l ≠ groupEnd ∧ id l = a ∧ visible l = true ∧
               computeEffectiveVisibility all a overrides = false) ∨ a ∈ hidden) as ->.
    { rewrite IH. split.
      - intros (l' & [->|?]%elem_of_cons & ?); [by left|right; by exists l'].
      - intros [?|(l' & ? & ?)]; [exists l; split; [by left|done]|].
        exists l'. split; [by right|done]. }
    destruct (type l) eqn:Ht;
      [ | |simpl; split; [by right|by intros [(? & _)|?]]];
      (destruct (computeEffectiveVisibility all (id l) overrides) eqn:He,
               (visible l) eqn:Hv; simpl;
       [split; [by right|intros [(_ & <- & _ & ?)|?]; [congruence|done]]
       |split; [by right|intros [(_ & <- & ? & _)|?]; [congruence|done]]
       |rewrite elem_of_cons; split;
          [intros [->|?]; [left; by rewrite He|by right]
          |intros [(_ & <- & _)|?]; [by left|by right]]
       |split; [by right|intros [(_ & <- & ? & _)|?]; [congruence|done]]]).
Qed.

Lemma visibilityLists_shown all ls overrides a :
  a ∈ (visibilityLists all ls overrides).2 ↔
  ∃ l, l ∈ ls ∧ type l ≠ groupEnd ∧ id l = a ∧ visible l = false ∧
       computeEffectiveVisibility all a overrides = true.
Proof.
  induction ls as [|l ls IH]; simpl.
  - split; [by intros ?%elem_of_nil|]. by intros (? & ?%elem_of_nil & _).
  - destruct (visibilityLists all ls overrides) as [hidden shown]. simpl in IH.
    assert ((∃ l', l' ∈ l :: ls ∧ type l' ≠ groupEnd ∧ id l' = a ∧ visible l' = false ∧
                computeEffectiveVisibility all a overrides = true) ↔
            (type l ≠ groupEnd ∧ id l = a ∧ visible l = false ∧
               computeEffectiveVisibility all a overrides = true) ∨ a ∈ shown) as ->.
    { rewrite IH. split.
      - intros (l' & [->|?]%elem_of_cons & ?); [by left|right; by exists l'].
      - intros [?|(l' & ? & ?)]; [exists l; split; [by left|done]|].
        exists l'. split; [by right|done]. }
    destruct (type l) eqn:Ht;
      [ | |simpl; split; [by right|by intros [(? & _)|?]]];
      (destruct (computeEffectiveVisibility all (id l) overrides) eqn:He,
               (visible l) eqn:Hv; simpl;
       [split; [by right|intros [(_ & <- & ? & _)|?]; [congruence|done]]
       |rewrite elem_of_cons; split;
          [intros [->|?]; [left; by rewrite He|by right]
          |intros [(_ & <- & _)|?]; [by left|by right]]
       |split; [by right|intros [(_ & <- & ? & _)|?]; [congruence|done]]
       |split; [by right|intros [(_ & <- & _ & ?)|?]; [congruence|done]]]).
Qed.

Lemma idsResolve_twoScreenLayers : idsResolve Samples.twoScreenLayers.
Proof.
  intros l Hl Ht. unfold Samples.twoScreenLayers in Hl.
  repeat (apply elem_of_cons in Hl as [->|Hl]); try done.
  by apply elem_of_nil in Hl.
Qed.

(** X4. The effective visibility of a layer depends on the override map
    only at the id of the layer and at the ids of the groups its backward
    scan collects: two maps that agree there give the same answer, so an
    override set on, or removed from, any other layer does not change it. *)
Theorem computeEffectiveVisibility_frame layers layerId i ov1 ov2 :
  findIndex layerId layers = Some i →
  ov1 !! layerId = ov2 !! layerId →
  (∀ a, a ∈ getAncestorGroupIds layers i → ov1 !! a = ov2 !! a) →
  computeEffectiveVisibility layers layerId ov1
  = computeEffectiveVisibility layers layerId ov2.
Proof.
  intros Hi Hown Hanc. apply computeEffectiveVisibility_agree.
  intros i' a l Hi' [->|Ha] _; apply overrideOr_agree; [done|].
  rewrite Hi in Hi'. simplify_eq. by apply Hanc.
Qed.

(** Hiding the folder 20 does not change the visibility of the layer 11,
    which lies in the folder 10, and hiding the folder 10 does. *)
Lemma computeEffectiveVisibility_sibling :
  computeEffectiveVisibility Samples.twoScreenLayers 11 {[20 := false]}
  = computeEffectiveVisibility Samples.twoScreenLayers 11 ∅ ∧
  computeEffectiveVisibility Samples.twoScreenLayers 11 ∅ = true ∧
  computeEffectiveVisibility Samples.twoScreenLayers 11 {[10 := false]} = false.
Proof.
  split; [|by vm_compute].
  apply (computeEffectiveVisibility_frame Samples.twoScreenLayers 11 1); [done..|].
  intros a Ha. change (a ∈ [10]) in Ha. apply list_elem_of_singleton in Ha as ->. done.
Defined.

(** X6. The two lists that [toggleLayerVisibility],
    [setMultipleVisibility] and [recomposite] hand to the renderer are
    the difference between effective and authored visibility: an id is
    listed as hidden exactly when a layer (not a marker) that carries it
    is authored visible while the id resolves to invisible, as shown
    exactly when such a layer is authored invisible while the id resolves
    to visible; no id is on both lists. *)
Theorem visibilityLists_spec layers overrides a :
  let lists := visibilityLists layers layers overrides in
  (a ∈ lists.1 ↔
     ∃ l, l ∈ layers ∧ type l ≠ groupEnd ∧ id l = a ∧ visible l = true ∧
          computeEffectiveVisibility layers a overrides = false) ∧
  (a ∈ lists.2 ↔
     ∃ l, l ∈ layers ∧ type l ≠ groupEnd ∧ id l = a ∧ visible l = false ∧
          computeEffectiveVisibility layers a overrides = true) ∧
  ¬ (a ∈ lists.1 ∧ a ∈ lists.2).
Proof.
  cbv zeta. split_and!.
  - apply visibilityLists_hidden.
  - apply visibilityLists_shown.
  - rewrite visibilityLists_hidden, visibilityLists_shown.
    intros [(? & _ & _ & _ & _ & ?) (? & _ & _ & _ & _ & ?)]. congruence.
Qed.

(** X7. When every layer other than a marker is the first to carry its
    id, a layer is reported as shown only if the override map sets its
    own id to true; with no overrides nothing is reported as shown. *)
Theorem visibilityLists_shown_overridden layers overrides :
  idsResolve layers →
  (∀ a, a ∈ (visibilityLists layers layers overrides).2 → overrides !! a = Some true) ∧
  (overrides = ∅ → (visibilityLists layers layers overrides).2 = []).
Proof.
  intros Hres.
  assert (∀ a, a ∈ (visibilityLists layers layers overrides).2 →
               overrides !! a = Some true) as Hshown.
  { intros a (l & Hl & Ht & Hid & Hv & He)%visibilityLists_shown.
    apply computeEffectiveVisibility_own in He as (l' & Hf & Hown).
    rewrite <- Hid, (Hres l Hl Ht) in Hf. simplify_eq.
    unfold overrideOr in Hown. rewrite Hv in Hown.
    destruct (overrides !! id l') as [[]|]; done. }
  split; [done|]. intros ->.
  destruct (visibilityLists layers layers ∅).2 as [|a shown] eqn:E; [done|].
  specialize (Hshown a (list_elem_of_here _ _)). by rewrite lookup_empty in Hshown.
Qed.

(** With the folder 10 of [Samples.twoScreenLayers] hidden by an
    override, the folder and its layer are reported as hidden and nothing
    as shown. *)
Lemma visibilityLists_hidden_folder :
  idsResolve Samples.twoScreenLayers ∧
  visibilityLists Samples.twoScreenLayers Samples.twoScreenLayers {[10 := false]}
  = ([10; 11], []) ∧
  (visibilityLists Samples.twoScreenLayers Samples.twoScreenLayers ∅).2 = [].
Proof.
  split; [apply idsResolve_twoScreenLayers|]. split; [by vm_compute|].
  by apply (visibilityLists_shown_overridden Samples.twoScreenLayers ∅
              idsResolve_twoScreenLayers).
Defined.

End OverrideFacts.

(** ** psd-store: its actions *)

Module PsdActionFacts.
Import Js Interaction.

Lemma toggleLayerVisibility_overrides w layerId0 layers l :
  psd w = Some layers → PsdStore.find layerId0 layers = Some l →
  let w' := toggleLayerVisibility layerId0 w in
  visibilityOverrides w' =
    <[layerId0 := negb (PsdStore.overrideOr (visibilityOverrides w) layerId0
                          (PsdStore.visible l))]> (visibilityOverrides w) ∧
  psd w' = psd w ∧ store w' = store w ∧ timers w' = timers w ∧
  nextTimerId w' = nextTimerId w ∧ navigations w' = navigations w ∧
  ∃ hidden shown, requests w' = (requests w ++ [reqRenderComposite hidden shown])%list.
Proof.
  intros Hpsd Hf. unfold toggleLayerVisibility. rewrite Hpsd, Hf. cbv zeta.
  destruct (PsdStore.visibilityLists _ _ _) as [hidden shown]. simpl.
  split_and!; try done. by exists hidden, shown.
Qed.

Lemma overrideOr_insert (ov : gmap Z bool) a b c :
  PsdStore.overrideOr (<[a := b]> ov) a c = b.
Proof. unfold PsdStore.overrideOr. by rewrite lookup_insert_eq. Qed.

Lemma overrideOr_insert_ne (ov : gmap Z bool) a a' b c :
  a ≠ a' → PsdStore.overrideOr (<[a := b]> ov) a' c = PsdStore.overrideOr ov a' c.
Proof. intros. unfold PsdStore.overrideOr. by rewrite lookup_insert_ne. Qed.

(** X5. A layer that the psd store reports as effectively visible is
    visible by its own flag or override; without a document both
    queries answer false. *)
Theorem getEffectiveVisibility_own layerId0 w :
  (getEffectiveVisibility layerId0 w = true → getOwnVisibility layerId0 w = true) ∧
  (psd w = None →
   getEffectiveVisibility layerId0 w = false ∧ getOwnVisibility layerId0 w = false).
Proof.
  unfold getEffectiveVisibility, getOwnVisibility. split.
  - destruct (psd w) as [layers|]; [|done].
    intros (l & -> & Hown)%OverrideFacts.computeEffectiveVisibility_own. done.
  - by intros ->.
Qed.

(** X8. With a document loaded, toggling a layer of the document flips
    its own visibility, leaves the override of every other layer and the
    interaction store and timers untouched and issues one render; if the
    layer was visible it is not effectively visible afterwards; toggling
    it twice gives back the own and the effective visibility of every
    layer. *)
Theorem toggleLayerVisibility_twice w layerId0 layers l :
  psd w = Some layers → PsdStore.find layerId0 layers = Some l →
  let w1 := toggleLayerVisibility layerId0 w in
  let w2 := toggleLayerVisibility layerId0 w1 in
  getOwnVisibility layerId0 w1 = negb (getOwnVisibility layerId0 w) ∧
  (getOwnVisibility layerId0 w = true → getEffectiveVisibility layerId0 w1 = false) ∧
  (∀ a, a ≠ layerId0 →
     visibilityOverrides w1 !! a = visibilityOverrides w !! a ∧
     getOwnVisibility a w1 = getOwnVisibility a w) ∧
  store w1 = store w ∧ timers w1 = timers w ∧
  (∃ hidden shown, requests w1 = (requests w ++ [reqRenderComposite hidden shown])%list) ∧
  (∀ a, getOwnVisibility a w2 = getOwnVisibility a w ∧
        getEffectiveVisibility a w2 = getEffectiveVisibility a w).
Proof.
  intros Hpsd Hf w1 w2.
  destruct (toggleLayerVisibility_overrides w layerId0 layers l Hpsd Hf)
    as (Hov1 & Hpsd1 & Hst1 & Htm1 & _ & _ & Hreq1).
  fold w1 in Hov1, Hpsd1, Hst1, Htm1, Hreq1. rewrite Hpsd in Hpsd1.
  destruct (toggleLayerVisibility_overrides w1 layerId0 layers l Hpsd1 Hf)
    as (Hov2 & Hpsd2 & _).
  fold w2 in Hov2, Hpsd2. rewrite Hpsd1 in Hpsd2.
  rewrite Hov1, overrideOr_insert, negb_involutive, insert_insert_eq in Hov2.
  unfold getOwnVisibility, getEffectiveVisibility.
  rewrite Hpsd, Hpsd1, Hpsd2, Hf, Hov1, Hov2.
  set (ov := visibilityOverrides w) in *.
  set (own := PsdStore.overrideOr ov layerId0 (PsdStore.visible l)) in *.
  split_and!; [by rewrite overrideOr_insert| | |done..| ].
  - intros Hown.
    destruct (PsdStore.computeEffectiveVisibility layers layerId0 _) eqn:He; [|done].
    apply OverrideFacts.computeEffectiveVisibility_own in He as (l' & Hf' & He).
    rewrite overrideOr_insert, Hown in He. done.
  - intros a Hne. rewrite lookup_insert_ne by done. split; [done|].
    destruct (PsdStore.find a layers); [|done]. by rewrite overrideOr_insert_ne.
  - assert (∀ a l', PsdStore.find a layers = Some l' →
              PsdStore.overrideOr (<[layerId0 := own]> ov) a (PsdStore.visible l')
              = PsdStore.overrideOr ov a (PsdStore.visible l')) as Hsame.
    { intros a l' Hf'. destruct (decide (a = layerId0)) as [->|Hne].
      - rewrite overrideOr_insert. rewrite Hf in Hf'. by simplify_eq.
      - by rewrite overrideOr_insert_ne. }
    intros a. split.
    + destruct (PsdStore.find a layers) as [l'|] eqn:Hf'; [|done]. by apply Hsame.
    + apply OverrideFacts.computeEffectiveVisibility_agree.
      intros i a' l' _ _ Hf'. by apply Hsame.
Qed.

(** In [Samples.twoScreenLayers] the folder 10 is visible; one toggle
    hides it and its layer 11, a second one shows both again. *)
Lemma toggleLayerVisibility_folder :
  let w := run [evLoadPsd Samples.twoScreenLayers] in
  let w1 := toggleLayerVisibility 10 w in
  let w2 := toggleLayerVisibility 10 w1 in
  getOwnVisibility 10 w = true ∧ getEffectiveVisibility 11 w = true ∧
  getOwnVisibility 10 w1 = false ∧ getEffectiveVisibility 11 w1 = false ∧
  getOwnVisibility 10 w2 = true ∧ getEffectiveVisibility 11 w2 = true.
Proof.
  cbv zeta.
  pose proof (toggleLayerVisibility_twice (run [evLoadPsd Samples.twoScreenLayers]) 10
                Samples.twoScreenLayers (Samples.layerOf 10 PsdStore.group)
                eq_refl eq_refl) as H.
  cbv zeta in H. destruct H as (H1 & _ & _ & _ & _ & _ & H2).
  split_and!; [by vm_compute|by vm_compute| |by vm_compute| |].
  - by rewrite H1.
  - by rewrite (proj1 (H2 10)).
  - by rewrite (proj2 (H2 11)).
Defined.

End PsdActionFacts.

(** ** interaction-store: the screen an element belongs to *)

Module ScreenMapFacts.
Import Js Interaction.

(** The scan of [findAncestorScreen] stops at the first id that the scan
    of [getAncestorGroupIds] collects and that is a screen layer. *)
Lemma ancestorScreenScan_first layers i depth screenLayerIds :
  ancestorScreenScan layers i depth screenLayerIds
  = snd <$> list_find (λ a, a ∈ screenLayerIds)
              (PsdStore.ancestorScan layers i depth []).
Proof.
  revert depth. induction i as [|i IH]; intros depth; [done|]. simpl.
  destruct (layers !! i) as [l|]; [|apply IH].
  destruct (PsdStore.type l); [apply IH| |apply IH].
  destruct depth as [|d]; [|apply IH].
  rewrite VisibilityFacts.ancestorScan_acc. simpl.
  destruct (decide (PsdStore.id l ∈ screenLayerIds)) as [Hin|Hout].
  - by rewrite bool_decide_eq_true_2.
  - rewrite bool_decide_eq_false_2 by done. rewrite IH.
    by destruct (list_find _ _) as [[? ?]|].
Qed.

(** X9. [findAncestorScreen] returns the nearest ancestor group that is a
    screen layer: the first id, in the nearest-first list that
    [getAncestorGroupIds] computes for the first layer carrying
    [layerId], that belongs to [screenLayerIds]; it returns nothing when
    no layer carries the id or no ancestor is a screen layer. *)
Theorem findAncestorScreen_nearest layers layerId0 screenLayerIds :
  findAncestorScreen layers layerId0 screenLayerIds
  = match PsdStore.findIndex layerId0 layers with
    | None => None
    | Some layerIndex =>
      snd <$> list_find (λ a, a ∈ screenLayerIds)
                (PsdStore.getAncestorGroupIds layers layerIndex)
    end.
Proof.
  unfold findAncestorScreen, PsdStore.getAncestorGroupIds.
  destruct (PsdStore.findIndex layerId0 layers); [|done].
  apply ancestorScreenScan_first.
Qed.

Lemma screenNameById_updates (es : list InteractionElement) :
  foldl (λ m e, <[layerId e := name e]> m) (∅ : gmap Z (option string))
    (filter (λ e, type e = "screen") es)
  = applyUpdates (λ e, if decide (type e = "screen") then Some (name e) else None) es ∅.
Proof.
  rewrite InteractionFacts.foldl_filter_upd. unfold applyUpdates.
  apply InteractionFacts.foldl_ext_gmap. intros ov e. by destruct (decide _).
Qed.

Lemma buildElementScreenMap_updates layers es :
  buildElementScreenMap layers es
  = applyUpdates
      (λ elem,
         if bool_decide (type elem = "screen") then None
         else (λ screenId,
                 default None
                   (applyUpdates (λ e, if decide (type e = "screen")
                                       then Some (name e) else None) es ∅
                      !! screenId))
              <$> findAncestorScreen layers (layerId elem)
                    (list_to_set (layerId <$> filter (λ e, type e = "screen") es)))
      es ∅.
Proof.
  unfold buildElementScreenMap. cbv zeta. rewrite screenNameById_updates.
  unfold applyUpdates at 2. apply InteractionFacts.foldl_ext_gmap. intros ov e.
  destruct (bool_decide _); [done|]. by destruct (findAncestorScreen _ _ _).
Qed.

Lemma setConfig_elementScreenMap_eq cfg w :
  elementScreenMap (store (setConfig cfg w))
  = buildElementScreenMap (default [] (psd w)) (elements cfg).
Proof.
  unfold setConfig.
  set (w1 := stopClocks w).
  set (w2 := stopScreenTimers (screenTimerIds (store w1)) w1).
  assert (psd w2 = psd w) as Hpsd.
  { destruct (InteractionFacts.stopScreenTimers_rest (screenTimerIds (store w1)) w1)
      as (_ & Hp2 & _).
    fold w2 in Hp2. rewrite Hp2. unfold w1. rewrite InteractionFacts.stopClocks_unfold.
    simpl.
    by destruct (InteractionFacts.stopScreenTimers_rest
                   (map_to_list (clockTimers (store w))).*2 w) as (_ & -> & _). }
  rewrite Hpsd.
  set (w3 := navigated (withStore _ w2)).
  set (w4 := pushInitialTexts (elements cfg) w3).
  set (w5 := applyScreenVisibility cfg (initialScreen cfg) ∅ ∅ w4).
  set (w6 := match filter (λ e, type e = "clock") (elements cfg) with
             | [] => w5
             | _ :: _ => (addTimer startClocksTimeout w5).2
             end).
  destruct (InteractionFacts.pushInitialTexts_rest (elements cfg) w3) as (Hst4 & _).
  fold w4 in Hst4.
  destruct (InteractionFacts.applyScreenVisibility_store cfg (initialScreen cfg) ∅ ∅ w4)
    as (Hst5 & _).
  fold w5 in Hst5.
  assert (store w6 = store w5) as Hst6 by (unfold w6; by destruct (filter _ _)).
  destruct (startScreenTimers cfg (initialScreen cfg) w6) as [ids w7] eqn:Hstart.
  apply InteractionFacts.startScreenTimers_spec in Hstart
    as (_ & _ & (Hst7 & _) & _).
  simpl. by rewrite Hst7, Hst6, Hst5, Hst4.
Qed.

Lemma findAncestorScreen_nil layerId0 screenLayerIds :
  findAncestorScreen [] layerId0 screenLayerIds = None.
Proof. done. Qed.

(** X10. The element-to-screen map that [setConfig] builds: an element
    other than a screen whose layer has a nearest ancestor screen layer
    is mapped to the name of the screen element on that layer (when the
    screen elements on that layer agree on it); a layer id borne only by
    screen elements or whose layer has no ancestor screen layer gets no
    entry; and when [setConfig] runs before a document is loaded the map
    is empty. *)
Theorem setConfig_elementScreenMap cfg w :
  let m := elementScreenMap (store (setConfig cfg w)) in
  let layers := default [] (psd w) in
  (psd w = None → m = ∅) ∧
  (∀ e screenId s,
     e ∈ elements cfg → type e ≠ "screen" →
     findAncestorScreen layers (layerId e) (screenLayerIdsOf cfg) = Some screenId →
     s ∈ elements cfg → type s = "screen" → layerId s = screenId →
     (∀ s', s' ∈ elements cfg → type s' = "screen" → layerId s' = screenId →
        name s' = name s) →
     m !! layerId e = Some (name s)) ∧
  (∀ key,
     (∀ e, e ∈ elements cfg → layerId e = key →
        type e = "screen" ∨
        findAncestorScreen layers key (screenLayerIdsOf cfg) = None) →
     m !! key = None).
Proof.
  cbv zeta. rewrite setConfig_elementScreenMap_eq, buildElementScreenMap_updates.
  fold (screenLayerIdsOf cfg). split_and!.
  - intros ->. simpl. apply map_eq. intros key. rewrite lookup_empty.
    rewrite InteractionFacts.applyUpdates_untouched; [done|].
    intros e _ _. by destruct (bool_decide _).
  - intros e screenId s He Hte Hfind Hs Hts Hls Hsame.
    assert (applyUpdates (λ e0, if decide (type e0 = "screen")
                                then Some (name e0) else None)
              (elements cfg) ∅ !! screenId = Some (name s)) as Hname.
    { apply InteractionFacts.applyUpdates_uniform.
      - intros s' Hs' Hls'. destruct (decide (type s' = "screen")); [|by right].
        left. f_equal. by apply Hsame.
      - exists s. split_and!; [done..|]. by rewrite decide_True. }
    apply InteractionFacts.applyUpdates_uniform.
    + intros e' He' Hle'. destruct (bool_decide (type e' = "screen")); [by right|].
      left. rewrite Hle', Hfind. simpl. by rewrite Hname.
    + exists e. split_and!; [done..|].
      rewrite bool_decide_eq_false_2 by done. rewrite Hfind. simpl. by rewrite Hname.
  - intros key Hkey. rewrite InteractionFacts.applyUpdates_untouched; [done|].
    intros e He Hle. destruct (Hkey e He Hle) as [Hs|Hnone].
    + by rewrite bool_decide_eq_true_2.
    + destruct (bool_decide _); [done|]. by rewrite Hle, Hnone.
Qed.

(** In [Samples.twoScreens] on [Samples.twoScreenLayers] a button on the
    layer 21, inside the folder 20 of screen ["b"], would belong to
    ["b"]; here no element other than the screens exists, so the map is
    empty, as it is without a document. *)
Lemma setConfig_elementScreenMap_samples :
  elementScreenMap (store (run [evSetConfig Samples.buttonOnB])) = ∅ ∧
  elementScreenMap
    (store (run [evLoadPsd Samples.twoScreenLayers; evSetConfig Samples.buttonOnB]))
    !! 21 = Some (Some "b").
Proof.
  split.
  - by apply (setConfig_elementScreenMap Samples.buttonOnB initialWorld).
  - pose proof (setConfig_elementScreenMap Samples.buttonOnB
                  (run [evLoadPsd Samples.twoScreenLayers])) as H.
    cbv zeta in H. destruct H as (_ & H & _).
    apply (H Samples.backButton 20 Samples.screenB).
    + apply list_elem_of_In. simpl. tauto.
    + done.
    + by vm_compute.
    + apply list_elem_of_In. simpl. tauto.
    + done.
    + done.
    + intros s' Hs' Ht Hl. unfold Samples.buttonOnB in Hs'. simpl in Hs'.
      repeat (apply elem_of_cons in Hs' as [->|Hs']); try done.
      by apply elem_of_nil in Hs'.
Defined.

End ScreenMapFacts.

(** ** interaction-store: what actions leave alone, popups, clocks *)

Module RuntimeFacts.
Import Js Interaction InteractionFacts.

Lemma setMultipleVisibility_configView overrides w :
  configView (setMultipleVisibility overrides w) = configView w.
Proof.
  destruct (setMultipleVisibility_store overrides w) as (Hst & _ & _ & _ & Hpsd).
  unfold configView. by rewrite Hst, Hpsd.
Qed.

Lemma applyScreenVisibility_configView cfg screenName popups selected w :
  configView (applyScreenVisibility cfg screenName popups selected w) = configView w.
Proof.
  destruct (applyScreenVisibility_store cfg screenName popups selected w)
    as (Hst & _ & _ & _ & Hpsd).
  unfold configView. by rewrite Hst, Hpsd.
Qed.

Lemma navigateToScreen_configView screenName w :
  configView (navigateToScreen screenName w) = configView w.
Proof.
  destruct (config (store w)) as [cfg|] eqn:Hcfg.
  - destruct (navigateToScreen_spec screenName cfg w Hcfg) as (Hst & _ & _ & Hpsd & _).
    unfold configView. by rewrite Hst, Hpsd.
  - unfold navigateToScreen. by rewrite Hcfg.
Qed.

Lemma shiftLeft_configView ds vs i count w :
  configView (shiftLeft ds vs i count w) = configView w.
Proof.
  revert i w. induction count as [|count IH]; intros i w; simpl; [done|].
  destruct (ds !! i), (vs !! S i); try done. by rewrite IH.
Qed.

Lemma foldl_configView {A} (f : World → A → World) (l : list A) w :
  (∀ w a, configView (f w a) = configView w) →
  configView (foldl f w l) = configView w.
Proof.
  intros Hf. revert w. induction l as [|a l IH]; intros w; simpl; [done|].
  by rewrite IH, Hf.
Qed.

Lemma actInputDigit_configView element digit w :
  configView (actInputDigit element digit w) = configView w.
Proof.
  unfold actInputDigit. destruct (config (store w)) as [cfg|]; [|done].
  destruct (displayElemsOf cfg (targetNames element)) as [|d1 [|d2 ds]]; [done..|].
  destruct (forallb _ _); [done|].
  set (w1 := shiftLeft _ _ _ _ w).
  set (w2 := match last _ with Some d => _ | None => _ end).
  assert (configView w2 = configView w) as Hw2.
  { unfold w2. destruct (last _); [|apply shiftLeft_configView].
    transitivity (configView w1); [done|apply shiftLeft_configView]. }
  transitivity (configView w2); [|done].
  match goal with
  | |- configView (request _ ?x) = _ => transitivity (configView x); [done|]
  end.
  by apply foldl_configView.
Qed.

Lemma actHighlight_configView element tgt w :
  configView (actHighlight element tgt w) = configView w.
Proof.
  unfold actHighlight. destruct (config (store w)) as [cfg|]; [|done].
  destruct (snd <$> list_find _ _) as [targetElem|]; [|done].
  destruct (truthy (group targetElem)) as [grp|]; [|done].
  by rewrite setMultipleVisibility_configView.
Qed.

Lemma actShowPopup_configView tgt w :
  configView (actShowPopup tgt w) = configView w.
Proof.
  unfold actShowPopup. destruct (config (store w)) as [cfg|]; [|done].
  destruct (snd <$> list_find _ _) as [popupElem|]; [|done].
  by rewrite setMultipleVisibility_configView.
Qed.

Lemma actClearInput_configView element w :
  configView (actClearInput element w) = configView w.
Proof.
  unfold actClearInput. destruct (config (store w)) as [cfg|]; [|done].
  destruct (displayElemsOf cfg (targetNames element)) as [|d ds] eqn:Hds; [done|].
  match goal with
  | |- configView (request _ ?x) = _ => transitivity (configView x); [done|]
  end.
  rewrite foldl_configView by done. by rewrite foldl_configView by done.
Qed.

Lemma actHidePopup_configView element w :
  configView (actHidePopup element w) = configView w.
Proof.
  unfold actHidePopup. destruct (truthy (target element)) as [tgt|].
  - by rewrite navigateToScreen_configView.
  - destruct (config (store w)); [|done]. simpl.
    destruct (truthy (currentScreen (store w))); [|done].
    by rewrite applyScreenVisibility_configView.
Qed.

(** X11. Whatever the element, [executeAction] leaves the loaded config,
    the element-to-screen map, the slider values, the clock handles and
    the document as they are. *)
Theorem executeAction_frame element w :
  let w' := executeAction element w in
  config (store w') = config (store w) ∧
  elementScreenMap (store w') = elementScreenMap (store w) ∧
  sliderValues (store w') = sliderValues (store w) ∧
  clockTimers (store w') = clockTimers (store w) ∧
  psd w' = psd w.
Proof.
  cbv zeta.
  assert (configView (executeAction element w) = configView w) as Hview.
  { unfold executeAction.
    destruct (actionIs "navigate" element), (truthy (target element)) as [tgt|];
      try apply navigateToScreen_configView.
    all: destruct (actionIs "navigate_conditional" element),
           (targets element) as [tgts|].
    all: try (destruct (truthy (currentScreen (store w))) as [screen|]; [|done];
              destruct (destinationFor tgts screen) as [dest| |]; [|done..];
              destruct (truthy (Some dest)) as [dest'|];
              [apply navigateToScreen_configView|done]).
    all: destruct (actionIs "input_digit" element), (value element) as [v|];
      try apply actInputDigit_configView.
    all: destruct (actionIs "show_highlight" element
                   || actionIs "toggle_highlight" element);
      try apply actHighlight_configView.
    all: destruct (actionIs "show_popup" element); try apply actShowPopup_configView.
    all: destruct (actionIs "hide_popup" element
                   || actionIs "navigate_from_popup" element);
      try apply actHidePopup_configView.
    all: destruct (actionIs "clear_input" element);
      [apply actClearInput_configView|done]. }
  unfold configView in Hview. by simplify_eq.
Qed.

(** An override to false makes the layer invisible, whatever else holds. *)
Lemma override_false_invisible layers (overrides : gmap Z bool) a :
  overrides !! a = Some false →
  PsdStore.computeEffectiveVisibility layers a overrides = false.
Proof.
  intros Hov.
  destruct (PsdStore.computeEffectiveVisibility layers a overrides) eqn:He; [|done].
  apply OverrideFacts.computeEffectiveVisibility_own in He as (l & _ & Hown).
  unfold PsdStore.overrideOr in Hown. by rewrite Hov in Hown.
Qed.

(** The last pass of [applyScreenVisibility] decides the layers of popup
    elements: with no popup active each of them is set invisible. *)
Lemma screenOverrides_popup_closed layers cfg screenName selected p :
  p ∈ elements cfg → type p = "popup" →
  screenOverrides layers cfg screenName ∅ selected !! layerId p = Some false.
Proof.
  intros Hp Ht. unfold screenOverrides. rewrite popupPass_updates.
  apply applyUpdates_uniform.
  - intros e _ _. destruct (bool_decide (type e = "popup")); [left|by right].
    destruct (name e) as [n|]; [|done]. by rewrite bool_decide_eq_false_2.
  - exists p. split_and!; [done..|]. rewrite bool_decide_eq_true_2 by done.
    destruct (name p) as [n|]; [|done]. by rewrite bool_decide_eq_false_2.
Qed.

Lemma setConfig_overrides cfg w :
  psd (setConfig cfg w) = psd w ∧
  visibilityOverrides (setConfig cfg w)
  = match psd w with
    | Some layers =>
      screenOverrides layers cfg (initialScreen cfg) ∅ ∅ ∪ visibilityOverrides w
    | None => visibilityOverrides w
    end.
Proof.
  unfold setConfig.
  set (w1 := stopClocks w).
  set (w2 := stopScreenTimers (screenTimerIds (store w1)) w1).
  assert (psd w2 = psd w ∧ visibilityOverrides w2 = visibilityOverrides w) as [Hp2 Hv2].
  { destruct (stopScreenTimers_rest (screenTimerIds (store w1)) w1)
      as (_ & Hp & Hv & _).
    fold w2 in Hp, Hv. rewrite Hp, Hv. unfold w1. rewrite stopClocks_unfold. simpl.
    by destruct (stopScreenTimers_rest (map_to_list (clockTimers (store w))).*2 w)
      as (_ & -> & -> & _). }
  set (w3 := navigated (withStore _ w2)).
  set (w4 := pushInitialTexts (elements cfg) w3).
  set (w5 := applyScreenVisibility cfg (initialScreen cfg) ∅ ∅ w4).
  set (w6 := match filter (λ e, type e = "clock") (elements cfg) with
             | [] => w5
             | _ :: _ => (addTimer startClocksTimeout w5).2
             end).
  destruct (pushInitialTexts_rest (elements cfg) w3) as (_ & _ & _ & _ & Hp4 & Hv4).
  fold w4 in Hp4, Hv4. simpl in Hp4, Hv4.
  destruct (applyScreenVisibility_store cfg (initialScreen cfg) ∅ ∅ w4)
    as (_ & _ & _ & _ & Hp5).
  fold w5 in Hp5.
  pose proof (applyScreenVisibility_requests cfg (initialScreen cfg) ∅ ∅ w4) as Hv5.
  cbv zeta in Hv5. fold w5 in Hv5.
  assert (psd w6 = psd w5 ∧ visibilityOverrides w6 = visibilityOverrides w5) as [Hp6 Hv6]
    by (unfold w6; by destruct (filter _ _)).
  destruct (startScreenTimers cfg (initialScreen cfg) w6) as [ids w7] eqn:Hstart.
  apply startScreenTimers_spec in Hstart as (_ & _ & (_ & Hp7 & Hv7 & _) & _).
  simpl. rewrite Hp7, Hv7, Hp6, Hv6, Hp5, Hp4, Hp2. split; [done|].
  rewrite Hp4, Hp2 in Hv5. destruct (psd w) as [layers|].
  - destruct Hv5 as [_ ->]. by rewrite Hv4, Hv2.
  - by rewrite Hv5, Hv4, Hv2.
Qed.

(** X12. With a document loaded, entering a screen closes every popup:
    after [navigateToScreen], and after [setConfig], no popup is active,
    the layer of every popup element of the config is overridden to
    invisible and is not effectively visible. *)
Theorem popups_closed_on_entry cfg layers p w :
  psd w = Some layers → p ∈ elements cfg → type p = "popup" →
  (∀ screenName, config (store w) = Some cfg →
     let w' := navigateToScreen screenName w in
     activePopups (store w') = ∅ ∧
     visibilityOverrides w' !! layerId p = Some false ∧
     getEffectiveVisibility (layerId p) w' = false) ∧
  (let w' := setConfig cfg w in
   activePopups (store w') = ∅ ∧
   visibilityOverrides w' !! layerId p = Some false ∧
   getEffectiveVisibility (layerId p) w' = false).
Proof.
  intros Hpsd Hp Ht. split.
  - intros screenName Hcfg w'.
    destruct (navigateToScreen_spec screenName cfg w Hcfg)
      as (Hst & _ & _ & Hpsd' & _ & Hreq).
    fold w' in Hst, Hpsd', Hreq. rewrite Hpsd in Hreq, Hpsd'. cbv zeta in Hreq.
    destruct Hreq as [_ Hov].
    assert (visibilityOverrides w' !! layerId p = Some false) as Hfalse.
    { rewrite Hov. apply lookup_union_Some_l.
      by apply screenOverrides_popup_closed. }
    split_and!; [by rewrite Hst|done|].
    unfold getEffectiveVisibility. rewrite Hpsd'.
    by apply override_false_invisible.
  - intros w'. destruct (setConfig_spec cfg w) as (_ & _ & _ & _ & Hpop & _).
    destruct (setConfig_overrides cfg w) as [Hpsd' Hov].
    fold w' in Hpop, Hpsd', Hov. rewrite Hpsd in Hpsd', Hov.
    assert (visibilityOverrides w' !! layerId p = Some false) as Hfalse.
    { rewrite Hov. apply lookup_union_Some_l.
      by apply screenOverrides_popup_closed. }
    split_and!; [done..|].
    unfold getEffectiveVisibility. rewrite Hpsd'.
    by apply override_false_invisible.
Qed.

(** After [show_popup] then navigation in [Samples.dialogConfig] the
    popup on layer 21 is closed again. *)
Lemma popup_closed_by_navigation :
  let w := run [evLoadPsd Samples.twoScreenLayers; evSetConfig Samples.dialogConfig;
                evExecuteAction Samples.openConfirm] in
  let w' := navigateToScreen "b" w in
  activePopups (store w) = {["confirm"]} ∧
  visibilityOverrides w !! 21 = Some true ∧
  activePopups (store w') = ∅ ∧
  visibilityOverrides w' !! 21 = Some false ∧
  getEffectiveVisibility 21 w' = false.
Proof.
  intros w w'. split; [by vm_compute|]. split; [by vm_compute|].
  destruct (popups_closed_on_entry Samples.dialogConfig Samples.twoScreenLayers
              Samples.confirmPopup w) as [H _]; [done| |done|].
  { apply list_elem_of_In. simpl. tauto. }
  apply (H "b"). reflexivity.
Defined.

Lemma setMultipleVisibility_overrides overrides layers w :
  psd w = Some layers →
  visibilityOverrides (setMultipleVisibility overrides w)
  = overrides ∪ visibilityOverrides w.
Proof.
  intros Hpsd. unfold setMultipleVisibility. simpl. rewrite Hpsd.
  by destruct (PsdStore.visibilityLists _ _ _).
Qed.

Lemma executeAction_show_popup element tgt w :
  action element = Some "show_popup" → truthy (target element) = Some tgt →
  executeAction element w = actShowPopup tgt w.
Proof.
  intros Hact Htgt. unfold executeAction. settle_guards Hact. rewrite Htgt. simpl.
  by destruct (targets element), (value element).
Qed.

Lemma executeAction_hide_popup element w :
  action element = Some "hide_popup" ∨ action element = Some "navigate_from_popup" →
  executeAction element w = actHidePopup element w.
Proof.
  intros Hact. unfold executeAction.
  destruct Hact as [Hact|Hact]; settle_guards Hact; simpl;
    by destruct (truthy (target element)), (targets element), (value element).
Qed.

(** X13. With a config and a document loaded and a current screen set,
    [show_popup] of a declared popup adds its name to the active popups
    and overrides the popup's layer to visible, leaving every other
    override, the current screen and the timers as they are; a following
    [hide_popup] (or [navigate_from_popup]) without target empties the
    active popups and overrides the popup's layer to invisible again,
    without navigating and without touching the timers. *)
Theorem show_then_hide_popup cfg layers p tgt screen show hide w :
  config (store w) = Some cfg → psd w = Some layers →
  truthy (currentScreen (store w)) = Some screen →
  action show = Some "show_popup" → truthy (target show) = Some tgt →
  snd <$> list_find (λ e, type e = "popup" ∧ name e = Some tgt) (elements cfg)
    = Some p →
  action hide = Some "hide_popup" ∨ action hide = Some "navigate_from_popup" →
  truthy (target hide) = None →
  let w1 := executeAction show w in
  let w2 := executeAction hide w1 in
  (activePopups (store w1) = activePopups (store w) ∪ {[tgt]} ∧
   visibilityOverrides w1 !! layerId p = Some true ∧
   (∀ a, a ≠ layerId p → visibilityOverrides w1 !! a = visibilityOverrides w !! a) ∧
   currentScreen (store w1) = currentScreen (store w) ∧
   navigations w1 = navigations w ∧ timers w1 = timers w) ∧
  (activePopups (store w2) = ∅ ∧
   visibilityOverrides w2 !! layerId p = Some false ∧
   getEffectiveVisibility (layerId p) w2 = false ∧
   currentScreen (store w2) = currentScreen (store w) ∧
   navigations w2 = navigations w ∧ timers w2 = timers w).
Proof.
  intros Hcfg Hpsd Hscreen Hshow Htgt Hfind Hhide Hnone w1 w2.
  assert (p ∈ elements cfg ∧ type p = "popup") as [Hp Htp].
  { destruct (list_find _ (elements cfg)) as [[i p']|] eqn:E; simplify_eq/=.
    apply list_find_Some in E as (Hl & [? _] & _). split; [|done].
    by eapply list_elem_of_lookup_2. }
  assert (w1 = setMultipleVisibility (<[layerId p := true]> ∅)
                 (withStore (setActivePopups (activePopups (store w) ∪ {[tgt]})) w))
    as Hw1.
  { unfold w1. rewrite (executeAction_show_popup show tgt w Hshow Htgt).
    unfold actShowPopup. by rewrite Hcfg, Hfind. }
  set (w0 := withStore (setActivePopups (activePopups (store w) ∪ {[tgt]})) w) in Hw1.
  destruct (setMultipleVisibility_store (<[layerId p := true]> ∅) w0)
    as (Hst1 & Htm1 & _ & Hnav1 & Hpsd1).
  pose proof (setMultipleVisibility_overrides (<[layerId p := true]> ∅) layers w0 Hpsd)
    as Hov1.
  rewrite <- Hw1 in Hst1, Htm1, Hnav1, Hpsd1, Hov1. simpl in Hov1, Hpsd1.
  assert (w2 = applyScreenVisibility cfg screen ∅ (selectedHighlights (store w1))
                 (withStore (setActivePopups ∅) w1)) as Hw2.
  { unfold w2. rewrite (executeAction_hide_popup hide w1 Hhide).
    unfold actHidePopup. rewrite Hnone. simpl. rewrite !Hst1. simpl.
    by rewrite Hcfg, Hscreen. }
  set (w1' := withStore (setActivePopups ∅) w1) in Hw2.
  destruct (applyScreenVisibility_store cfg screen ∅ (selectedHighlights (store w1)) w1')
    as (Hst2 & Htm2 & _ & Hnav2 & Hpsd2).
  pose proof (applyScreenVisibility_requests cfg screen ∅
                (selectedHighlights (store w1)) w1') as Hov2.
  cbv zeta in Hov2. rewrite <- Hw2 in Hst2, Htm2, Hnav2, Hpsd2, Hov2.
  simpl in Hov2, Hpsd2. rewrite Hpsd1, Hpsd in Hov2, Hpsd2. destruct Hov2 as [_ Hov2].
  assert (visibilityOverrides w2 !! layerId p = Some false) as Hfalse.
  { rewrite Hov2. apply lookup_union_Some_l. by apply screenOverrides_popup_closed. }
  split; split_and!.
  - by rewrite Hst1.
  - rewrite Hov1. apply lookup_union_Some_l. by rewrite lookup_insert_eq.
  - intros a Hne. rewrite Hov1, lookup_union_r; [done|].
    rewrite lookup_insert_ne by done. apply lookup_empty.
  - by rewrite Hst1.
  - by rewrite Hnav1.
  - by rewrite Htm1.
  - by rewrite Hst2.
  - done.
  - unfold getEffectiveVisibility. rewrite Hpsd2. by apply override_false_invisible.
  - rewrite Hst2. simpl. by rewrite Hst1.
  - rewrite Hnav2. simpl. by rewrite Hnav1.
  - rewrite Htm2. simpl. by rewrite Htm1.
Qed.

(** In [Samples.dialogConfig] the confirm popup opens on layer 21 and is
    closed again by [hide_popup], on screen ["a"] throughout. *)
Lemma confirm_popup_round_trip :
  let w := run [evLoadPsd Samples.twoScreenLayers; evSetConfig Samples.dialogConfig] in
  let w1 := executeAction Samples.openConfirm w in
  let w2 := executeAction Samples.closeConfirm w1 in
  activePopups (store w1) = activePopups (store w) ∪ {["confirm"]} ∧
  visibilityOverrides w1 !! 21 = Some true ∧
  activePopups (store w2) = ∅ ∧
  visibilityOverrides w2 !! 21 = Some false ∧
  currentScreen (store w2) = Some "a".
Proof.
  intros w w1 w2.
  assert (config (store w) = Some Samples.dialogConfig) as Hcfg by (by vm_compute).
  assert (psd w = Some Samples.twoScreenLayers) as Hpsd by (by vm_compute).
  assert (truthy (currentScreen (store w)) = Some "a") as Hscreen by (by vm_compute).
  assert (snd <$> list_find (λ e, type e = "popup" ∧ name e = Some "confirm")
                    (elements Samples.dialogConfig) = Some Samples.confirmPopup)
    as Hfind by (by vm_compute).
  destruct (show_then_hide_popup Samples.dialogConfig Samples.twoScreenLayers
              Samples.confirmPopup "confirm" "a" Samples.openConfirm
              Samples.closeConfirm w Hcfg Hpsd Hscreen eq_refl eq_refl Hfind
              (or_introl eq_refl) eq_refl)
    as ((H1 & H2 & _) & (H3 & H4 & _ & H5 & _)).
  fold w1 in H1, H2. fold w2 in H3, H4, H5.
  split_and!; [exact H1|exact H2|exact H3|exact H4|].
  transitivity (currentScreen (store w)); [exact H5|by vm_compute].
Defined.

Lemma clockHandles_elem (m : gmap Z nat) id :
  id ∈ (map_to_list m).*2 ↔ ∃ lid, m !! lid = Some id.
Proof.
  rewrite list_elem_of_fmap. split.
  - intros ([lid id'] & -> & Hin%elem_of_map_to_list). by exists lid.
  - intros (lid & Hlid). exists (lid, id). split; [done|]. by apply elem_of_map_to_list.
Qed.

Lemma stopClocks_timers w id :
  timers (stopClocks w) !! id =
  if decide (id ∈ (map_to_list (clockTimers (store w))).*2) then None
  else timers w !! id.
Proof. rewrite stopClocks_unfold. simpl. apply stopScreenTimers_timers. Qed.

Lemma stopClocks_rest w :
  store (stopClocks w) = setClockTimers ∅ (store w) ∧ psd (stopClocks w) = psd w ∧
  visibilityOverrides (stopClocks w) = visibilityOverrides w ∧
  nextTimerId (stopClocks w) = nextTimerId w ∧
  navigations (stopClocks w) = navigations w ∧ requests (stopClocks w) = requests w.
Proof.
  rewrite stopClocks_unfold. simpl.
  destruct (stopScreenTimers_rest (map_to_list (clockTimers (store w))).*2 w)
    as (-> & -> & -> & -> & -> & ->). done.
Qed.

(** X14. [clear], in any state the store can reach: the store is back to
    its initial state, no screen timeout is active, every handle listed
    in [screenTimerIds] or [clockTimers] is cancelled and every other
    timer is as before; the document, the visibility overrides of the psd
    store and the requests issued are untouched (no render is asked
    for). *)
Theorem clear_resets events :
  let w := run events in
  let w' := clear w in
  store w' = initialState ∧
  noScreenTimeout w' ∧
  (∀ id, id ∈ screenTimerIds (store w) → timers w' !! id = None) ∧
  (∀ lid id, clockTimers (store w) !! lid = Some id → timers w' !! id = None) ∧
  (∀ id, id ∉ screenTimerIds (store w) →
     (∀ lid, clockTimers (store w) !! lid ≠ Some id) →
     timers w' !! id = timers w !! id) ∧
  psd w' = psd w ∧ visibilityOverrides w' = visibilityOverrides w ∧
  requests w' = requests w.
Proof.
  intros w w'.
  pose proof (run_tracked events) as Htracked. fold w in Htracked.
  apply stopClocks_tracked in Htracked.
  destruct (stopClocks_rest w) as (Hst1 & Hpsd1 & Hov1 & _ & _ & Hreq1).
  set (w1 := stopClocks w) in *.
  destruct (stopScreenTimers_noScreenTimeout w1 Htracked) as [Hnone _].
  destruct (stopScreenTimers_rest (screenTimerIds (store w1)) w1)
    as (_ & Hpsd2 & Hov2 & _ & _ & Hreq2).
  assert (∀ id, timers w' !! id =
            if decide (id ∈ screenTimerIds (store w)) then None
            else if decide (id ∈ (map_to_list (clockTimers (store w))).*2) then None
            else timers w !! id) as Htimers.
  { intros id.
    change (timers w') with (timers (stopScreenTimers (screenTimerIds (store w1)) w1)).
    rewrite stopScreenTimers_timers. rewrite Hst1. simpl.
    case_decide; [done|]. apply stopClocks_timers. }
  split_and!.
  - done.
  - intros id elem ms scr ep. apply (Hnone id elem ms scr ep).
  - intros id Hid. rewrite Htimers. by rewrite decide_True.
  - intros lid id Hlid. rewrite Htimers. case_decide; [done|].
    rewrite decide_True; [done|]. apply clockHandles_elem. by exists lid.
  - intros id Hid Hclock. rewrite Htimers. rewrite decide_False by done.
    rewrite decide_False; [done|]. intros (lid & Hlid)%clockHandles_elem.
    by apply (Hclock lid).
  - change (psd w') with (psd (stopScreenTimers (screenTimerIds (store w1)) w1)).
    by rewrite Hpsd2, Hpsd1.
  - change (visibilityOverrides w')
      with (visibilityOverrides (stopScreenTimers (screenTimerIds (store w1)) w1)).
    by rewrite Hov2, Hov1.
  - change (requests w')
      with (requests (stopScreenTimers (screenTimerIds (store w1)) w1)).
    by rewrite Hreq2, Hreq1.
Qed.

(** The map of handles that the loop of [startClocks] builds, when the
    clock elements lie on distinct layers. *)
Lemma startClock_handles l m0 w0 m w' :
  foldl startClock (m0, w0) l = (m, w') →
  NoDup (layerId <$> l) →
  (∀ i e, l !! i = Some e → m !! layerId e = Some (nextTimerId w0 + i)%nat) ∧
  (∀ lid, lid ∉ layerId <$> l → m !! lid = m0 !! lid).
Proof.
  revert m0 w0. induction l as [|e l IH]; intros m0 w0.
  - simpl. intros [= <- <-] _. split; [by intros i e ?|done].
  - change (foldl startClock (m0, w0) (e :: l))
      with (foldl startClock (<[layerId e := nextTimerId w0]> m0,
                              (addTimer (clockInterval e) w0).2) l).
    intros H. rewrite fmap_cons. intros [Hnotin Hnodup]%NoDup_cons.
    destruct (IH _ _ H Hnodup) as [Hin Hout]. simpl in Hin. split.
    + intros [|i] e' He'; simpl in He'.
      * simplify_eq. rewrite Hout by done. rewrite lookup_insert_eq. f_equal. lia.
      * rewrite (Hin i e' He'). f_equal. lia.
    + intros lid [Hne Hlid]%not_elem_of_cons. rewrite Hout by done.
      by rewrite lookup_insert_ne.
Qed.

(** X15. With a config loaded whose clock elements lie on distinct
    layers, [startClocks] starts one interval per clock element, on a
    fresh handle recorded under the element's layer id, and a following
    [stopClocks] cancels exactly those: the active timers are again the
    ones before [startClocks] (intervals that were already running stay,
    no longer recorded), and [clockTimers] is empty. *)
Theorem startClocks_then_stopClocks cfg w :
  config (store w) = Some cfg → handlesIssued w →
  NoDup (layerId <$> filter (λ e, type e = "clock") (elements cfg)) →
  let w1 := startClocks w in
  let w2 := stopClocks w1 in
  (∀ e, e ∈ elements cfg → type e = "clock" →
     ∃ id, clockTimers (store w1) !! layerId e = Some id ∧
           timers w1 !! id = Some (clockInterval e) ∧ timers w !! id = None) ∧
  timers w2 = timers w ∧ clockTimers (store w2) = ∅.
Proof.
  intros Hcfg Hissued Hnodup w1 w2.
  set (clocks := filter (λ e, type e = "clock") (elements cfg)) in *.
  destruct (foldl startClock (∅, w) clocks) as [m w'] eqn:E.
  assert (w1 = withStore (setClockTimers m) w') as Hw1.
  { unfold w1, startClocks. rewrite Hcfg. fold clocks. by rewrite E. }
  destruct (startClock_loop _ _ _ _ _ E) as (Hn & _ & Hlk).
  destruct (startClock_handles _ _ _ _ _ E Hnodup) as [Hin Hout].
  assert (∀ id, (nextTimerId w ≤ id)%nat → timers w !! id = None) as Hfresh.
  { intros id Hle. destruct (timers w !! id) eqn:Hid; [|done].
    assert (id < nextTimerId w)%nat by (apply Hissued; eauto). lia. }
  assert (∀ id, id ∈ (map_to_list m).*2 ↔
                (nextTimerId w ≤ id < nextTimerId w + length clocks)%nat) as Hrange.
  { intros id. rewrite clockHandles_elem. split.
    - intros (lid & Hlid).
      destruct (decide (lid ∈ layerId <$> clocks)) as [Hl|Hl].
      + apply list_elem_of_fmap in Hl as (e & -> & (i & Hi)%list_elem_of_lookup_1).
        rewrite (Hin i e Hi) in Hlid. simplify_eq.
        apply lookup_lt_Some in Hi. lia.
      + rewrite (Hout lid Hl), lookup_empty in Hlid. done.
    - intros Hid.
      destruct (lookup_lt_is_Some_2 clocks (id - nextTimerId w)%nat) as [e He]; [lia|].
      exists (layerId e). rewrite (Hin _ e He). f_equal. lia. }
  split_and!.
  - intros e He Ht.
    assert (e ∈ clocks) as (i & Hi)%list_elem_of_lookup_1.
    { unfold clocks. by apply list_elem_of_filter. }
    pose proof (lookup_lt_Some _ _ _ Hi) as Hlt.
    exists (nextTimerId w + i)%nat. rewrite Hw1. simpl. split_and!.
    + by apply Hin.
    + rewrite Hlk, decide_True by lia.
      replace (nextTimerId w + i - nextTimerId w)%nat with i by lia. by rewrite Hi.
    + apply Hfresh. lia.
  - apply map_eq. intros id. unfold w2. rewrite stopClocks_timers, Hw1. simpl.
    destruct (decide (id ∈ (map_to_list m).*2)) as [Hid|Hid].
    + apply Hrange in Hid. symmetry. apply Hfresh. lia.
    + rewrite Hlk. rewrite decide_False; [done|]. intros ?. by apply Hid, Hrange.
  - unfold w2. by destruct (stopClocks_rest w1) as (-> & _).
Qed.

Lemma handlesIssued_run events : handlesIssued (run events).
Proof. by destruct (run_tracked events) as (_ & ? & _). Qed.

(** In [Samples.clockConfig] the clocks on the layers 11 and 21 get two
    intervals, which [stopClocks] cancels. *)
Lemma clocks_start_and_stop :
  let w := run [evSetConfig Samples.clockConfig] in
  let w1 := startClocks w in
  (∃ id, clockTimers (store w1) !! 11 = Some id ∧
         timers w1 !! id = Some (clockInterval Samples.clockA)) ∧
  timers (stopClocks w1) = timers w ∧ clockTimers (store (stopClocks w1)) = ∅.
Proof.
  intros w w1.
  destruct (startClocks_then_stopClocks Samples.clockConfig w) as (H1 & H2 & H3).
  - by vm_compute.
  - apply handlesIssued_run.
  - apply (bool_decide_unpack _). by vm_compute.
  - fold w1 in H1, H2, H3. split_and!; [|done..].
    destruct (H1 Samples.clockA) as (id & ? & ? & _); [|done|by exists id].
    apply list_elem_of_In. simpl. tauto.
Defined.

(** [padStart(2, '0')] of a number below 100: two decimal digits. *)
Lemma pad2_digits n :
  (n < 100)%nat →
  ∃ c1 c2, pad2 n = String c1 (String c2 EmptyString) ∧
           ChatStore.isDigit c1 = true ∧ ChatStore.isDigit c2 = true.
Proof.
  intros Hn.
  assert (forallb (λ n, match pad2 n with
                        | String c1 (String c2 EmptyString) =>
                          ChatStore.isDigit c1 && ChatStore.isDigit c2
                        | _ => false
                        end) (seq 0 100) = true) as Hall by (by vm_compute).
  rewrite forallb_forall in Hall. specialize (Hall n).
  destruct (pad2 n) as [|c1 [|c2 [|? ?]]];
    try (by discriminate Hall; apply in_seq; lia).
  exists c1, c2. split; [done|]. apply andb_true_iff, Hall, in_seq. lia.
Qed.

Lemma replaceFirst_skip a pat rep c s :
  a ≠ c →
  replaceFirst (String a pat) rep (String c s)
  = String c (replaceFirst (String a pat) rep s).
Proof.
  intros Hne. cbn [replaceFirst]. by rewrite ChatFacts.prefix_head_differs.
Qed.

Lemma isDigit_not_letter c (l : ascii) :
  ChatStore.isDigit c = true → ChatStore.isDigit l = false → l ≠ c.
Proof. intros Hc Hl ->. congruence. Qed.

(** [formatTime] on the default format. *)
Lemma formatTime_default now :
  (getHours now < 100)%nat → (getMinutes now < 100)%nat → (getSeconds now < 100)%nat →
  formatTime now "HH:mm:ss"
  = pad2 (getHours now) +:+ ":" +:+ pad2 (getMinutes now) +:+ ":"
    +:+ pad2 (getSeconds now) ∧
  String.length (formatTime now "HH:mm:ss") = 8%nat.
Proof.
  intros (a1 & a2 & Hh & Ha1 & Ha2)%pad2_digits (b1 & b2 & Hm & Hb1 & Hb2)%pad2_digits
         (c1 & c2 & Hs & Hc1 & Hc2)%pad2_digits.
  unfold formatTime. rewrite Hh, Hm, Hs. cbv zeta.
  change (replaceFirst "HH" (String a1 (String a2 EmptyString)) "HH:mm:ss")
    with (String a1 (String a2 ":mm:ss")).
  rewrite (replaceFirst_skip "m" "m" _ a1) by (by apply isDigit_not_letter).
  rewrite (replaceFirst_skip "m" "m" _ a2) by (by apply isDigit_not_letter).
  rewrite (replaceFirst_skip "m" "m" _ ":") by done.
  change (replaceFirst "mm" (String b1 (String b2 EmptyString)) "mm:ss")
    with (String b1 (String b2 ":ss")).
  rewrite (replaceFirst_skip "s" "s" _ a1) by (by apply isDigit_not_letter).
  rewrite (replaceFirst_skip "s" "s" _ a2) by (by apply isDigit_not_letter).
  rewrite (replaceFirst_skip "s" "s" _ ":") by done.
  rewrite (replaceFirst_skip "s" "s" _ b1) by (by apply isDigit_not_letter).
  rewrite (replaceFirst_skip "s" "s" _ b2) by (by apply isDigit_not_letter).
  rewrite (replaceFirst_skip "s" "s" _ ":") by done.
  change (replaceFirst "ss" (String c1 (String c2 EmptyString)) "ss")
    with (String c1 (String c2 EmptyString)).
  done.
Qed.

(** X16. A tick of a clock element without [format] (or with an empty
    one) at a time of day [h:m:s] writes the eight characters
    [HH:mm:ss], each field padded to two digits, as the dynamic text of
    the element's layer and pushes that text to the renderer, in the one
    call that is followed by a recomposite only if the push succeeds; it
    issues nothing else and changes no timer, no visibility override and
    not the current screen. *)
Theorem clockTick_default elem now w :
  truthy (format elem) = None →
  (getHours now < 24)%nat → (getMinutes now < 60)%nat → (getSeconds now < 60)%nat →
  let text := pad2 (getHours now) +:+ ":" +:+ pad2 (getMinutes now) +:+ ":"
              +:+ pad2 (getSeconds now) in
  let w' := clockTick elem now w in
  String.length text = 8%nat ∧
  dynamicTexts (store w') = <[layerId elem := text]> (dynamicTexts (store w)) ∧
  requests w' =
    (requests w ++ [reqSetLayerTextThenRecomposite (layerId elem) text])%list ∧
  timers w' = timers w ∧ visibilityOverrides w' = visibilityOverrides w ∧
  currentScreen (store w') = currentScreen (store w).
Proof.
  intros Hfmt Hh Hm Hs text w'.
  destruct (formatTime_default now) as [Htext Hlen]; [lia..|]. fold text in Htext.
  unfold w', clockTick. unfold orElse. rewrite Hfmt. cbv zeta. rewrite Htext.
  split_and!; [by rewrite <- Htext|done..].
Qed.

(** At 09:05:59 a clock without format shows ["09:05:59"]; with no
    document loaded the push is still made, and it is the last request:
    no recomposite is asked for on its own. *)
Lemma clockTick_morning :
  let w := run [evSetConfig Samples.clockConfig] in
  let w' := clockTick Samples.clockA (mkDate 9 5 59) w in
  dynamicTexts (store w') !! 11 = Some "09:05:59" ∧
  last (requests w') = Some (reqSetLayerTextThenRecomposite 11 "09:05:59").
Proof.
  intros w w'.
  destruct (clockTick_default Samples.clockA (mkDate 9 5 59) w)
    as (_ & Htexts & Hreq & _); [done|simpl; lia..|].
  fold w' in Htexts, Hreq. rewrite Htexts, Hreq. split.
  - by rewrite lookup_insert_eq.
  - by rewrite last_app.
Defined.

End RuntimeFacts.

(** ** Preview: overlays and the current screen *)

Module PreviewFacts.
Import Js Interaction Preview InteractionFacts.

Lemma find_is_Some layers j g :
  layers !! j = Some g → is_Some (PsdStore.find (PsdStore.id g) layers).
Proof.
  intros Hg. unfold PsdStore.find.
  destruct (list_find _ layers) as [[? ?]|] eqn:E; [by eexists|].
  apply list_find_None in E. rewrite Forall_forall in E.
  destruct (E g); [by eapply list_elem_of_lookup_2|done].
Qed.

(** A layer below a group whose override is false is invisible. *)
Lemma hidden_ancestor_invisible layers overrides layerId0 i l j g :
  PsdStore.firstWithId layers layerId0 i l →
  PsdStore.scanAncestor layers i j g →
  overrides !! PsdStore.id g = Some false →
  PsdStore.computeEffectiveVisibility layers layerId0 overrides = false.
Proof.
  intros Hfirst Hanc Hov.
  destruct (PsdStore.computeEffectiveVisibility layers layerId0 overrides) eqn:He;
    [|done].
  apply VisibilityFacts.computeEffectiveVisibility_true in He
    as (i' & l' & Hfirst' & _ & Hall).
  destruct (VisibilityFacts.firstWithId_unique _ _ _ _ _ _ Hfirst Hfirst') as [<- <-].
  pose proof Hanc as (_ & Hg & _).
  destruct (find_is_Some _ _ _ Hg) as [g' Hg'].
  specialize (Hall j g g' Hanc Hg'). unfold PsdStore.overrideOr in Hall.
  by rewrite Hov in Hall.
Qed.

(** X17. Overlays are confined to the current screen by visibility
    alone: with a config and a document loaded, after navigating to a
    screen, an element whose layer lies (at any depth) inside the folder
    of a screen element of another name, that folder's layer being shared
    with no other element, is not offered as a click overlay, whatever
    its type and whether or not the element-to-screen map knows it. *)
Theorem overlay_confined_to_screen cfg layers w screenName other e i l j g :
  config (store w) = Some cfg → psd w = Some layers →
  other ∈ elements cfg → type other = "screen" → soleScreen cfg other →
  name other ≠ Some screenName →
  PsdStore.firstWithId layers (layerId e) i l →
  PsdStore.scanAncestor layers i j g → PsdStore.id g = layerId other →
  let w' := navigateToScreen screenName w in
  getEffectiveVisibility (layerId e) w' = false ∧ isOverlay w' e = false ∧
  e ∉ overlayElements w'.
Proof.
  intros Hcfg Hpsd Hother Htype Hsole Hname Hfirst Hanc Hid w'.
  destruct (navigateToScreen_spec screenName cfg w Hcfg)
    as (Hst & _ & _ & Hpsd' & _ & Hreq).
  fold w' in Hst, Hpsd', Hreq. rewrite Hpsd in Hreq, Hpsd'. cbv zeta in Hreq.
  destruct Hreq as [_ Hov].
  pose proof Hanc as (_ & Hg & _).
  assert (visibilityOverrides w' !! PsdStore.id g = Some false) as Hfalse.
  { rewrite Hov, Hid. apply lookup_union_Some_l.
    rewrite (screenOverrides_screen layers cfg screenName ∅ _ other);
      [by rewrite bool_decide_eq_false_2|done..| |done].
    rewrite <- Hid. by eapply find_is_Some. }
  assert (getEffectiveVisibility (layerId e) w' = false) as Hinv.
  { unfold getEffectiveVisibility. rewrite Hpsd'.
    by eapply hidden_ancestor_invisible. }
  assert (isOverlay w' e = false) as Hno.
  { unfold isOverlay. cbv zeta. rewrite Hinv. by repeat case_match. }
  split_and!; [done..|].
  unfold overlayElements. destruct (config (store w')); [|by apply not_elem_of_nil].
  rewrite list_elem_of_filter. intros [? _]. congruence.
Qed.

Lemma firstWithId_layer21 :
  PsdStore.firstWithId Samples.twoScreenLayers 21 4
    (Samples.layerOf 21 PsdStore.layer).
Proof.
  split_and!; [done..|]. intros k l' Hl' Hlt.
  destruct k as [|[|[|[|k]]]]; simpl in Hl'; simplify_eq; [done..|lia].
Qed.

(** In [Samples.buttonOnB] the button on layer 21, in the folder of
    screen ["b"], is an overlay on ["b"] and not on ["a"]. *)
Lemma back_button_overlay :
  let w := run [evLoadPsd Samples.twoScreenLayers; evSetConfig Samples.buttonOnB] in
  isOverlay (navigateToScreen "b" w) Samples.backButton = true ∧
  isOverlay (navigateToScreen "a" w) Samples.backButton = false.
Proof.
  intros w. split; [by vm_compute|].
  assert (config (store w) = Some Samples.buttonOnB) as Hcfg by (by vm_compute).
  assert (psd w = Some Samples.twoScreenLayers) as Hpsd by (by vm_compute).
  destruct (overlay_confined_to_screen Samples.buttonOnB Samples.twoScreenLayers w "a"
              Samples.screenB Samples.backButton 4 (Samples.layerOf 21 PsdStore.layer)
              3 (Samples.layerOf 20 PsdStore.group) Hcfg Hpsd)
    as (_ & H & _); [| | | | | | |exact H].
  - apply list_elem_of_In. simpl. tauto.
  - done.
  - intros e' He' Hl. apply list_elem_of_In in He'. simpl in He'.
    destruct He' as [<-|[<-|[<-|[]]]]; done.
  - done.
  - apply firstWithId_layer21.
  - split_and!; [constructor|done..].
  - done.
Defined.

(** X18. A click on an overlay has the effect of [executeAction] on its
    element: the shortcut that the handler takes for [navigate] buttons
    is the branch that [executeAction] takes for them. *)
Theorem onClick_executeAction element w :
  onClick element w = executeAction element w.
Proof.
  unfold onClick, executeAction, actionIs.
  by destruct (bool_decide (action element = Some "navigate")),
       (truthy (target element)).
Qed.

End PreviewFacts.

(** ** The layer list of a document and its tree *)

Module TreeFacts.
Import PsdStore QtModule LayerTree.

(** Induction on rows, with the property at hand for the child rows. *)
Lemma Row_ind (P : Row → Prop) :
  (∀ rowId rowName rowX rowY rowWidth rowHeight rowVisible rows,
     Forall P rows →
     P (mkRow rowId rowName rowX rowY rowWidth rowHeight rowVisible rows)) →
  ∀ r, P r.
Proof.
  intros H. fix IH 1.
  intros [rowId rowName rowX rowY rowWidth rowHeight rowVisible rows].
  apply H. induction rows as [|r rows IHrows]; constructor; [apply IH|apply IHrows].
Qed.

Lemma buildLoop_rows_from rows :
  Forall (λ r, ∀ rest top stack,
            buildLoop (rev (traverseRow r) ++ rest)%list (top :: stack)
            = buildLoop rest ((top ++ [nodeOfRow r])%list :: stack)) rows →
  ∀ rest top stack,
    buildLoop (rev (flat_map traverseRow rows) ++ rest)%list (top :: stack)
    = buildLoop rest ((top ++ rev (map nodeOfRow rows))%list :: stack).
Proof.
  induction 1 as [|r rows Hr _ IH]; intros rest top stack.
  - simpl. by rewrite app_nil_r.
  - simpl. rewrite rev_app_distr, <- app_assoc, IH, Hr. by rewrite <- app_assoc.
Qed.

(** The loop of [buildLayerTree] consumes the objects of a row, last one
    first, and leaves the node of the row on the array at the top of the
    stack. *)
Lemma buildLoop_row r rest top stack :
  buildLoop (rev (traverseRow r) ++ rest)%list (top :: stack)
  = buildLoop rest ((top ++ [nodeOfRow r])%list :: stack).
Proof.
  revert rest top stack.
  induction r as [rowId rowName rowX rowY rowWidth rowHeight rowVisible rows IH]
    using Row_ind.
  intros rest top stack. destruct rows as [|r1 rows]; [done|].
  pose proof (buildLoop_rows_from _ IH) as Hrows.
  set (g := layerObject rowId rowName rowX rowY rowWidth rowHeight rowVisible true).
  set (L := flat_map traverseRow (r1 :: rows)) in *.
  change (buildLoop (rev (g :: L ++ [groupEndObject rowId]) ++ rest)%list (top :: stack)
          = buildLoop rest
              ((top ++ [mkNode g (rev (map nodeOfRow (r1 :: rows))) true])%list
                 :: stack)).
  change (rev (g :: L ++ [groupEndObject rowId]))
    with (rev (L ++ [groupEndObject rowId]) ++ [g])%list.
  rewrite rev_app_distr, <- app_assoc.
  change (buildLoop ((rev [groupEndObject rowId] ++ rev L) ++ [g] ++ rest)%list
            (top :: stack))
    with (buildLoop (rev L ++ [g] ++ rest)%list ([] :: top :: stack)).
  by rewrite Hrows.
Qed.

Lemma buildLoop_rows rows rest top stack :
  buildLoop (rev (traverseModel rows) ++ rest)%list (top :: stack)
  = buildLoop rest ((top ++ rev (map nodeOfRow rows))%list :: stack).
Proof.
  apply buildLoop_rows_from. apply Forall_forall. intros r _. apply buildLoop_row.
Qed.

(** X19. [buildLayerTree] inverts the flattening of [traverseModel]: on
    the layer list that the loader emits for the rows of a document it
    returns, without error, the tree of those rows with the rows of each
    level in reverse order (last row first), folders expanded and leaves
    not, the closing markers consumed. *)
Theorem buildLayerTree_traverseModel rows :
  buildLayerTree (traverseModel rows) = Some (rev (map nodeOfRow rows)).
Proof.
  unfold buildLayerTree.
  rewrite <- (app_nil_r (rev (traverseModel rows))), buildLoop_rows. done.
Qed.

(** The backward scan looks at the layers below its start only. *)
Lemma ancestorScan_app_l l1 l2 i depth acc :
  (i ≤ length l1)%nat →
  ancestorScan (l1 ++ l2) i depth acc = ancestorScan l1 i depth acc.
Proof.
  revert depth acc. induction i as [|i IH]; intros depth acc Hle; [done|]. simpl.
  rewrite lookup_app_l by lia.
  destruct (l1 !! i) as [l|]; [|apply IH; lia].
  destruct (type l); [apply IH; lia| |apply IH; lia].
  destruct depth; apply IH; lia.
Qed.

(** One step of the scan, started above the last layer. *)
Lemma ancestorScan_snoc pre l depth acc :
  ancestorScan (pre ++ [l]) (length (pre ++ [l])) depth acc
  = match type l with
    | groupEnd => ancestorScan pre (length pre) (S depth) acc
    | group =>
      match depth with
      | O => ancestorScan pre (length pre) O (acc ++ [id l])%list
      | S d => ancestorScan pre (length pre) d acc
      end
    | layer => ancestorScan pre (length pre) depth acc
    end.
Proof.
  rewrite length_app, Nat.add_1_r. simpl. rewrite list_lookup_middle by done.
  destruct (type l); [| |]; try (by rewrite ancestorScan_app_l).
  destruct depth; by rewrite ancestorScan_app_l.
Qed.

Lemma ancestorScan_skip_rows_from rows :
  Forall (λ r, ∀ pre depth acc,
            ancestorScan (pre ++ traverseRow r) (length (pre ++ traverseRow r)) depth acc
            = ancestorScan pre (length pre) depth acc) rows →
  ∀ pre depth acc,
    ancestorScan (pre ++ flat_map traverseRow rows)
      (length (pre ++ flat_map traverseRow rows)) depth acc
    = ancestorScan pre (length pre) depth acc.
Proof.
  induction 1 as [|r rows Hr _ IH]; intros pre depth acc.
  - simpl. by rewrite app_nil_r.
  - simpl. rewrite app_assoc, IH. apply Hr.
Qed.

(** The objects of a row are transparent to a scan that passes over all
    of them: the marker raises the counter and the folder lowers it. *)
Lemma ancestorScan_skip_row r pre depth acc :
  ancestorScan (pre ++ traverseRow r) (length (pre ++ traverseRow r)) depth acc
  = ancestorScan pre (length pre) depth acc.
Proof.
  revert pre depth acc.
  induction r as [rowId rowName rowX rowY rowWidth rowHeight rowVisible rows IH]
    using Row_ind.
  intros pre depth acc. destruct rows as [|r1 rows].
  - simpl traverseRow. by rewrite ancestorScan_snoc.
  - pose proof (ancestorScan_skip_rows_from _ IH) as Hrows.
    set (g := layerObject rowId rowName rowX rowY rowWidth rowHeight rowVisible true).
    set (L := flat_map traverseRow (r1 :: rows)) in *.
    change (traverseRow (mkRow rowId rowName rowX rowY rowWidth rowHeight rowVisible
                           (r1 :: rows)))
      with ([g] ++ L ++ [groupEndObject rowId])%list.
    rewrite !app_assoc, ancestorScan_snoc. simpl.
    by rewrite Hrows, ancestorScan_snoc.
Qed.

Lemma ancestorScan_skip_rows rows pre depth acc :
  ancestorScan (pre ++ traverseModel rows) (length (pre ++ traverseModel rows)) depth acc
  = ancestorScan pre (length pre) depth acc.
Proof.
  apply ancestorScan_skip_rows_from. apply Forall_forall. intros r _ pre' depth' acc'.
  apply ancestorScan_skip_row.
Qed.

Lemma rowPaths_from rows :
  Forall (λ r, ∀ pre post path,
            ancestorScan pre (length pre) O [] = path →
            (λ i, ancestorScan (pre ++ traverseRow r ++ post) i O [])
              <$> seq (length pre) (length (traverseRow r))
            = rowPaths path r) rows →
  ∀ pre post path,
    ancestorScan pre (length pre) O [] = path →
    (λ i, ancestorScan (pre ++ flat_map traverseRow rows ++ post) i O [])
      <$> seq (length pre) (length (flat_map traverseRow rows))
    = flat_map (rowPaths path) rows.
Proof.
  induction 1 as [|r rows Hr _ IH]; intros pre post path Hpath; [done|].
  simpl. rewrite length_app, seq_app, fmap_app. f_equal.
  - rewrite <- app_assoc. by apply Hr.
  - rewrite <- app_assoc, (app_assoc pre), <- length_app. apply IH.
    by rewrite ancestorScan_skip_row.
Qed.

(** The scan started at an object of a row, the scan of the layers before
    the row giving [path]. *)
Lemma rowPaths_row r pre post path :
  ancestorScan pre (length pre) O [] = path →
  (λ i, ancestorScan (pre ++ traverseRow r ++ post) i O [])
    <$> seq (length pre) (length (traverseRow r))
  = rowPaths path r.
Proof.
  revert pre post path.
  induction r as [rowId rowName rowX rowY rowWidth rowHeight rowVisible rows IH]
    using Row_ind.
  intros pre post path Hpath. destruct rows as [|r1 rows].
  - simpl. rewrite ancestorScan_app_l by lia. by rewrite Hpath.
  - pose proof (rowPaths_from _ IH) as Hrows.
    assert (Forall (λ r, ∀ pre depth acc,
                      ancestorScan (pre ++ traverseRow r)
                        (length (pre ++ traverseRow r)) depth acc
                      = ancestorScan pre (length pre) depth acc) (r1 :: rows)) as Hskip.
    { apply Forall_forall. intros r _ pre' depth' acc'. apply ancestorScan_skip_row. }
    set (g := layerObject rowId rowName rowX rowY rowWidth rowHeight rowVisible true).
    set (L := flat_map traverseRow (r1 :: rows)) in *.
    change (traverseRow (mkRow rowId rowName rowX rowY rowWidth rowHeight rowVisible
                           (r1 :: rows)))
      with ([g] ++ L ++ [groupEndObject rowId])%list.
    change (rowPaths path (mkRow rowId rowName rowX rowY rowWidth rowHeight rowVisible
                             (r1 :: rows)))
      with ([path] ++ flat_map (rowPaths (rowId :: path)) (r1 :: rows)
              ++ [rowId :: path])%list.
    assert (ancestorScan (pre ++ [g]) (length (pre ++ [g])) O [] = rowId :: path)
      as Hinner.
    { rewrite ancestorScan_snoc. simpl.
      by rewrite (VisibilityFacts.ancestorScan_acc pre (length pre) O [rowId]), Hpath. }
    rewrite !length_app, !seq_app, !fmap_app. simpl length. f_equal; [|f_equal].
    + simpl. rewrite ancestorScan_app_l by lia. by rewrite Hpath.
    + rewrite <- !app_assoc, (app_assoc pre [g]).
      replace (length pre + 1)%nat with (length (pre ++ [g]))
        by (rewrite length_app; done).
      by apply Hrows.
    + simpl. f_equal.
      replace (pre ++ g :: (L ++ [groupEndObject rowId]) ++ post)%list
        with (((pre ++ [g]) ++ L) ++ ([groupEndObject rowId] ++ post))%list
        by (by rewrite <- !app_assoc).
      replace (length pre + 1 + length L)%nat with (length ((pre ++ [g]) ++ L))
        by (rewrite !length_app; simpl; lia).
      rewrite ancestorScan_app_l by lia.
      by rewrite (ancestorScan_skip_rows_from _ Hskip), Hinner.
Qed.

(** X20. On the layer list of a document the backward scan of
    [getAncestorGroupIds] finds the tree: started at the object of a row
    it returns the ids of the rows that contain that row, nearest first,
    and nothing else, whatever lies between them in the list (started at
    a closing marker, the id of its own row comes first). *)
Theorem getAncestorGroupIds_traverseModel rows :
  getAncestorGroupIds (traverseModel rows) <$> seq 0 (length (traverseModel rows))
  = flat_map (rowPaths []) rows.
Proof.
  assert (Forall (λ r, ∀ pre post path,
                    ancestorScan pre (length pre) O [] = path →
                    (λ i, ancestorScan (pre ++ traverseRow r ++ post) i O [])
                      <$> seq (length pre) (length (traverseRow r))
                    = rowPaths path r) rows) as Hrows.
  { apply Forall_forall. intros r _ pre post path. apply rowPaths_row. }
  pose proof (rowPaths_from rows Hrows [] [] [] eq_refl) as H.
  simpl in H. by rewrite app_nil_r in H.
Qed.

Lemma headers_from rows :
  Forall (λ r, id <$> filter (λ l, type l ≠ groupEnd) (traverseRow r) = rowIds r) rows →
  id <$> filter (λ l, type l ≠ groupEnd) (flat_map traverseRow rows)
  = flat_map rowIds rows.
Proof.
  induction 1 as [|r rows Hr _ IH]; [done|].
  simpl. by rewrite filter_app, fmap_app, Hr, IH.
Qed.

(** The objects other than markers carry the ids of the rows, in
    pre-order. *)
Lemma headers_row r :
  id <$> filter (λ l, type l ≠ groupEnd) (traverseRow r) = rowIds r.
Proof.
  induction r as [rowId rowName rowX rowY rowWidth rowHeight rowVisible rows IH]
    using Row_ind.
  destruct rows as [|r1 rows]; [done|].
  pose proof (headers_from _ IH) as Hrows.
  set (L := flat_map traverseRow (r1 :: rows)) in *.
  change (traverseRow (mkRow rowId rowName rowX rowY rowWidth rowHeight rowVisible
                         (r1 :: rows)))
    with (layerObject rowId rowName rowX rowY rowWidth rowHeight rowVisible true
            :: L ++ [groupEndObject rowId])%list.
  rewrite filter_cons_True by done. rewrite filter_app, fmap_cons, fmap_app, Hrows.
  rewrite filter_cons_False by (simpl; auto). simpl.
  by rewrite app_nil_r.
Qed.

Lemma headers_rows rows :
  id <$> filter (λ l, type l ≠ groupEnd) (traverseModel rows) = flat_map rowIds rows.
Proof. apply headers_from, Forall_forall. intros r _. apply headers_row. Qed.

Lemma marker_after_header_from rows :
  Forall (λ r, ∀ k m, traverseRow r !! k = Some m → type m = groupEnd →
            ∃ k' h, (k' < k)%nat ∧ traverseRow r !! k' = Some h ∧
                    type h ≠ groupEnd ∧ id h = id m) rows →
  ∀ k m, flat_map traverseRow rows !! k = Some m → type m = groupEnd →
    ∃ k' h, (k' < k)%nat ∧ flat_map traverseRow rows !! k' = Some h ∧
            type h ≠ groupEnd ∧ id h = id m.
Proof.
  induction 1 as [|r rows Hr _ IH]; intros k m Hk Hm; [done|]. simpl in *.
  apply lookup_app_Some in Hk as [Hk|[Hge Hk]].
  - destruct (Hr k m Hk Hm) as (k' & h & ? & Hh & ? & ?).
    exists k', h. split_and!; [done| |done..]. by apply lookup_app_l_Some.
  - destruct (IH _ m Hk Hm) as (k' & h & ? & Hh & ? & ?).
    exists (length (traverseRow r) + k')%nat, h. split_and!; [lia| |done..].
    rewrite lookup_app_r by lia.
    by replace (length (traverseRow r) + k' - length (traverseRow r))%nat with k' by lia.
Qed.

(** A closing marker comes after an object of its id that is not a
    marker. *)
Lemma marker_after_header_row r k m :
  traverseRow r !! k = Some m → type m = groupEnd →
  ∃ k' h, (k' < k)%nat ∧ traverseRow r !! k' = Some h ∧
          type h ≠ groupEnd ∧ id h = id m.
Proof.
  revert k m.
  induction r as [rowId rowName rowX rowY rowWidth rowHeight rowVisible rows IH]
    using Row_ind.
  intros k m. destruct rows as [|r1 rows].
  - destruct k; simpl; [by intros [= <-]|done].
  - pose proof (marker_after_header_from _ IH) as Hrows.
    set (g := layerObject rowId rowName rowX rowY rowWidth rowHeight rowVisible true).
    set (L := flat_map traverseRow (r1 :: rows)) in *.
    change (traverseRow (mkRow rowId rowName rowX rowY rowWidth rowHeight rowVisible
                           (r1 :: rows)))
      with (g :: L ++ [groupEndObject rowId])%list.
    destruct k as [|k]; [by intros [= <-]|]. simpl.
    intros [Hk|[Hge Hk]]%lookup_app_Some Hm.
    + destruct (Hrows k m Hk Hm) as (k' & h & ? & Hh & ? & ?).
      exists (S k'), h. split_and!; [lia| |done..]. simpl. by apply lookup_app_l_Some.
    + exists O, g. split_and!; [lia|done|done|].
      destruct (k - length L)%nat; simpl in Hk; by simplify_eq.
Qed.

Lemma marker_after_header rows k m :
  traverseModel rows !! k = Some m → type m = groupEnd →
  ∃ k' h, (k' < k)%nat ∧ traverseModel rows !! k' = Some h ∧
          type h ≠ groupEnd ∧ id h = id m.
Proof.
  apply marker_after_header_from, Forall_forall. intros r _ k' m'.
  apply marker_after_header_row.
Qed.

Lemma NoDup_filter_index (layers : list LayerInfo) a b l1 l2 :
  NoDup (id <$> filter (λ l, type l ≠ groupEnd) layers) →
  layers !! a = Some l1 → layers !! b = Some l2 →
  type l1 ≠ groupEnd → type l2 ≠ groupEnd → id l1 = id l2 → a = b.
Proof.
  revert a b. induction layers as [|z layers IH]; intros a b Hnd Ha Hb H1 H2 Hid; [done|].
  assert (∀ c l, layers !! c = Some l → type l ≠ groupEnd →
            id l ∈ id <$> filter (λ l, type l ≠ groupEnd) layers) as Hin.
  { intros c l Hc Hl. apply list_elem_of_fmap. exists l. split; [done|].
    apply list_elem_of_filter. split; [done|]. by eapply list_elem_of_lookup_2. }
  destruct a as [|a], b as [|b]; simpl in Ha, Hb; simplify_eq; [done| | |].
  - rewrite filter_cons_True, fmap_cons in Hnd by done.
    apply NoDup_cons in Hnd as [Hnotin _]. destruct Hnotin. rewrite Hid. by eapply Hin.
  - rewrite filter_cons_True, fmap_cons in Hnd by done.
    apply NoDup_cons in Hnd as [Hnotin _]. destruct Hnotin. rewrite <- Hid. by eapply Hin.
  - f_equal. apply IH; [|done..].
    destruct (decide (type z ≠ groupEnd)).
    + rewrite filter_cons_True, fmap_cons in Hnd by done. by apply NoDup_cons in Hnd as [_ ?].
    + by rewrite filter_cons_False in Hnd by done.
Qed.

Lemma first_with_id rows j l :
  NoDup (flat_map rowIds rows) →
  traverseModel rows !! j = Some l → type l ≠ groupEnd →
  ∀ k l', traverseModel rows !! k = Some l' → (k < j)%nat → id l' ≠ id l.
Proof.
  intros Hnd Hj Hl k l' Hk Hlt Hid. rewrite <- headers_rows in Hnd.
  destruct (decide (type l' = groupEnd)) as [Hm|Hh].
  - destruct (marker_after_header rows k l' Hk Hm) as (k' & h & ? & Hh & ? & Hidh).
    assert (k' = j); [|lia].
    eapply NoDup_filter_index; [done..|]. congruence.
  - assert (k = j); [|lia]. by eapply NoDup_filter_index.
Qed.

(** X21. When the rows of a document bear distinct ids, the layer list
    that the loader emits obeys the id discipline that visibility
    resolution relies on: every folder, and every layer other than a
    closing marker, is the first layer of the list that carries its id
    (a marker repeats the id of its folder, after it). *)
Theorem traverseModel_ids_resolve rows :
  NoDup (flat_map rowIds rows) →
  groupsResolve (traverseModel rows) ∧ idsResolve (traverseModel rows).
Proof.
  intros Hnd. split.
  - intros j g Hg Ht k l Hk Hlt.
    assert (type g ≠ groupEnd) as Hne by (by rewrite Ht).
    exact (first_with_id rows j g Hnd Hg Hne k l Hk Hlt).
  - intros l (j & Hj)%list_elem_of_lookup_1 Ht.
    apply VisibilityFacts.find_Some. exists j. split_and!; [done..|].
    intros k l' Hk Hlt. exact (first_with_id rows j l Hnd Hj Ht k l' Hk Hlt).
Qed.

(** [Samples.documentRows] has the ids 1 to 5. *)
Lemma documentRows_ids_resolve :
  groupsResolve (traverseModel Samples.documentRows) ∧
  idsResolve (traverseModel Samples.documentRows).
Proof.
  apply traverseModel_ids_resolve. apply (bool_decide_unpack _). by vm_compute.
Defined.

Lemma groupSpan_rows_from rows :
  Forall (λ r, ∀ rest depth,
            groupSpan (traverseRow r ++ rest) depth
            = (filter (λ l, type l ≠ groupEnd) (traverseRow r)
                 ++ groupSpan rest depth)%list) rows →
  ∀ rest depth,
    groupSpan (flat_map traverseRow rows ++ rest) depth
    = (filter (λ l, type l ≠ groupEnd) (flat_map traverseRow rows)
         ++ groupSpan rest depth)%list.
Proof.
  induction 1 as [|r rows Hr _ IH]; intros rest depth; [done|].
  simpl. by rewrite <- app_assoc, Hr, IH, filter_app, <- app_assoc.
Qed.

(** The forward scan passes over the objects of a row with its counter
    back where it was. *)
Lemma groupSpan_row r rest depth :
  groupSpan (traverseRow r ++ rest) depth
  = (filter (λ l, type l ≠ groupEnd) (traverseRow r) ++ groupSpan rest depth)%list.
Proof.
  revert rest depth.
  induction r as [rowId rowName rowX rowY rowWidth rowHeight rowVisible rows IH]
    using Row_ind.
  intros rest depth. destruct rows as [|r1 rows]; [done|].
  pose proof (groupSpan_rows_from _ IH) as Hrows.
  set (g := layerObject rowId rowName rowX rowY rowWidth rowHeight rowVisible true).
  set (L := flat_map traverseRow (r1 :: rows)) in *.
  change (traverseRow (mkRow rowId rowName rowX rowY rowWidth rowHeight rowVisible
                         (r1 :: rows)))
    with (g :: L ++ [groupEndObject rowId])%list.
  rewrite filter_cons_True by done. rewrite filter_app.
  rewrite (filter_cons_False _ (groupEndObject rowId)) by (simpl; auto).
  rewrite filter_nil, app_nil_r.
  change (groupSpan ((g :: L ++ [groupEndObject rowId]) ++ rest) depth)
    with (g :: groupSpan ((L ++ [groupEndObject rowId]) ++ rest) (S depth)).
  by rewrite <- app_assoc, Hrows.
Qed.

Lemma groupSpan_rows rows rest depth :
  groupSpan (traverseModel rows ++ rest) depth
  = (filter (λ l, type l ≠ groupEnd) (traverseModel rows) ++ groupSpan rest depth)%list.
Proof.
  apply groupSpan_rows_from, Forall_forall. intros r _ rest' depth'.
  apply groupSpan_row.
Qed.

(** X22. In the layer list of a document the members that
    [computeGroupBounds] scans for a folder are exactly the layers of the
    rows below that folder, at any depth and in list order: the scan
    stops at the folder's own closing marker and takes nothing that
    follows it. A folder without area therefore receives the bounds that
    the inner loop reaches on its descendants alone. *)
Theorem computeGroupBounds_folder pre post rowId rowName rowX rowY rowWidth rowHeight
    rowVisible r1 rows :
  let r := mkRow rowId rowName rowX rowY rowWidth rowHeight rowVisible (r1 :: rows) in
  let g := layerObject rowId rowName rowX rowY rowWidth rowHeight rowVisible true in
  let layers := (pre ++ traverseRow r ++ post)%list in
  let descendants :=
    filter (λ l, type l ≠ groupEnd) (traverseModel (r1 :: rows)) in
  layers !! length pre = Some g ∧
  groupSpan (drop (S (length pre)) layers) O = descendants ∧
  computeGroupBounds layers !! length pre
  = Some (if hasArea g then g
          else match foldl (λ b c, if hasArea c then Some (extendBounds b c) else b)
                       None descendants with
               | Some (minX, minY, maxX, maxY) =>
                 withRect g minX minY (maxX - minX) (maxY - minY)
               | None => g
               end).
Proof.
  intros r g layers descendants.
  set (L := traverseModel (r1 :: rows)).
  assert (layers = pre ++ g :: L ++ groupEndObject rowId :: post)%list as Hlayers.
  { unfold layers, r.
    change (traverseRow (mkRow rowId rowName rowX rowY rowWidth rowHeight rowVisible
                           (r1 :: rows)))
      with (g :: L ++ [groupEndObject rowId])%list.
    by rewrite <- app_comm_cons, <- app_assoc. }
  assert (layers !! length pre = Some g) as Hg.
  { rewrite Hlayers. by apply list_lookup_middle. }
  assert (drop (S (length pre)) layers = L ++ groupEndObject rowId :: post)%list
    as Hdrop.
  { rewrite Hlayers. rewrite (cons_middle g), app_assoc.
    rewrite drop_app_length'; [done|]. rewrite length_app. simpl. lia. }
  assert (groupSpan (drop (S (length pre)) layers) O = descendants) as Hspan.
  { rewrite Hdrop. unfold L. rewrite groupSpan_rows. simpl. by rewrite app_nil_r. }
  split_and!; [done..|].
  rewrite BoundsFacts.computeGroupBounds_lookup, Hg. simpl. f_equal.
  unfold boundedLayer. rewrite bool_decide_eq_true_2 by done. simpl.
  destruct (hasArea g); [done|]. simpl.
  by rewrite BoundsFacts.boundsScan_groupSpan, Hspan.
Qed.

(** X23. The render request carries effective visibility to the scene:
    with the hidden and shown lists that the psd store computes, the
    flag that [renderCompositeWithQt] gives the scene item of a layer of
    the document (its authored flag, then false if its id is listed as
    hidden, then true if listed as shown) is the effective visibility of
    the layer's id under the overrides. *)
Theorem sceneVisible_effective layers overrides l :
  l ∈ layers → type l ≠ groupEnd →
  let lists := visibilityLists layers layers overrides in
  sceneVisible lists.1 lists.2 l
  = computeEffectiveVisibility layers (id l) overrides.
Proof.
  intros Hl Ht lists. unfold sceneVisible. cbv zeta.
  destruct (computeEffectiveVisibility layers (id l) overrides) eqn:He,
           (visible l) eqn:Hv.
  - case_bool_decide as Hshown; [done|].
    case_bool_decide as Hhidden; [|done].
    apply OverrideFacts.visibilityLists_hidden in Hhidden as (? & _ & _ & _ & _ & ?).
    congruence.
  - rewrite bool_decide_eq_true_2; [done|].
    apply OverrideFacts.visibilityLists_shown. by exists l.
  - case_bool_decide as Hshown.
    + apply OverrideFacts.visibilityLists_shown in Hshown as (? & _ & _ & _ & _ & ?).
      congruence.
    + rewrite bool_decide_eq_true_2; [done|].
      apply OverrideFacts.visibilityLists_hidden. by exists l.
  - case_bool_decide as Hshown.
    + apply OverrideFacts.visibilityLists_shown in Hshown as (? & _ & _ & _ & _ & ?).
      congruence.
    + by case_bool_decide.
Qed.

(** With the folder 10 of [Samples.twoScreenLayers] hidden by an
    override, the scene item of its layer 11 is hidden and the one of the
    layer 21 is shown. *)
Lemma sceneVisible_hidden_folder :
  let lists := visibilityLists Samples.twoScreenLayers Samples.twoScreenLayers
                 {[10 := false]} in
  sceneVisible lists.1 lists.2 (Samples.layerOf 11 layer) = false ∧
  sceneVisible lists.1 lists.2 (Samples.layerOf 21 layer) = true.
Proof.
  intros lists. split.
  - transitivity (computeEffectiveVisibility Samples.twoScreenLayers 11
                    {[10 := false]}); [|by vm_compute].
    apply (sceneVisible_effective Samples.twoScreenLayers {[10 := false]}
             (Samples.layerOf 11 layer)); [|done].
    apply list_elem_of_In. simpl. tauto.
  - by vm_compute.
Defined.

End TreeFacts.

(** ** LayerTree: the search filter *)

Module FilterFacts.
Import PsdStore LayerTree.

(** Induction on nodes, with the property at hand for the children. *)
Lemma LayerTreeNode_ind (P : LayerTreeNode → Prop) :
  (∀ l children expanded, Forall P children → P (mkNode l children expanded)) →
  ∀ node, P node.
Proof.
  intros H. fix IH 1. intros [l children expanded].
  apply H. induction children as [|c children IHc]; constructor; [apply IH|apply IHc].
Qed.

Lemma omap_fixed (f : LayerTreeNode → option LayerTreeNode) nodes :
  Forall (λ n, ∀ n', f n = Some n' → f n' = Some n') nodes →
  omap f (omap f nodes) = omap f nodes.
Proof.
  induction 1 as [|n nodes Hn _ IH]; [done|]. simpl.
  destruct (f n) as [n'|] eqn:E; [|done]. simpl. rewrite (Hn n' eq_refl).
  f_equal. apply IH.
Qed.

(** A node that the filter keeps is kept as it is by a second pass. *)
Lemma filterNode_fixed lower node node' :
  filterNode lower node = Some node' → filterNode lower node' = Some node'.
Proof.
  revert node'. induction node as [l children expanded IH] using LayerTreeNode_ind.
  intros node'. simpl.
  destruct (includes (toLowerCase (name l)) lower
            || (0 <? length (omap (filterNode lower) children))%nat) eqn:Hkeep; [|done].
  intros [= <-]. simpl. rewrite (omap_fixed _ _ IH). by rewrite Hkeep.
Qed.

Lemma lowerChar_idemp c : lowerChar (lowerChar c) = lowerChar c.
Proof. by destruct c as [[] [] [] [] [] [] [] []]. Qed.

Lemma toLowerCase_idemp s : toLowerCase (toLowerCase s) = toLowerCase s.
Proof. induction s as [|c s IH]; simpl; [done|]. by rewrite lowerChar_idemp, IH. Qed.

Lemma toLowerCase_empty s : toLowerCase s = EmptyString ↔ s = EmptyString.
Proof. by destruct s. Qed.

(** X24. [filterTree] is idempotent, and it reads its query through
    [toLowerCase] only: filtering a filtered tree with the same query
    changes nothing, a query and its lower-case form give the same
    result, and the empty query gives the tree back. *)
Theorem filterTree_idempotent nodes query :
  filterTree (filterTree nodes query) query = filterTree nodes query ∧
  filterTree nodes (toLowerCase query) = filterTree nodes query ∧
  filterTree nodes EmptyString = nodes.
Proof.
  unfold filterTree. split_and!.
  - case_bool_decide; [done|]. apply omap_fixed, Forall_forall.
    intros n _ n'. apply filterNode_fixed.
  - rewrite toLowerCase_idemp.
    destruct (decide (query = EmptyString)) as [->|Hne]; [done|].
    rewrite !bool_decide_eq_false_2; [done..|]. by rewrite toLowerCase_empty.
  - done.
Qed.

Lemma subnodes_self node : node ∈ subnodes node.
Proof. destruct node. simpl. by left. Qed.

Lemma filter_children query children :
  Forall (λ n,
            (∀ n', filterNode (toLowerCase query) n = Some n' →
               (∀ l, l ∈ nodeLayers n' → l ∈ nodeLayers n) ∧
               (∀ l, l ∈ nodeLayers n → nameMatches query l → l ∈ nodeLayers n') ∧
               Forall (keptFor query) (subnodes n')) ∧
            (filterNode (toLowerCase query) n = None →
               ∀ l, l ∈ nodeLayers n → ¬ nameMatches query l)) children →
  let kept := omap (filterNode (toLowerCase query)) children in
  (∀ l, l ∈ flat_map nodeLayers kept → l ∈ flat_map nodeLayers children) ∧
  (∀ l, l ∈ flat_map nodeLayers children → nameMatches query l →
     l ∈ flat_map nodeLayers kept) ∧
  Forall (keptFor query) (flat_map subnodes kept) ∧
  (kept = [] → ∀ l, l ∈ flat_map nodeLayers children → ¬ nameMatches query l).
Proof.
  induction 1 as [|n children [Hsome Hnone] _ IH]; simpl.
  - split_and!; try done. by intros _ l ?%elem_of_nil.
  - destruct IH as (IH1 & IH2 & IH3 & IH4).
    destruct (filterNode (toLowerCase query) n) as [n'|] eqn:E; simpl.
    + destruct (Hsome n' eq_refl) as (H1 & H2 & H3). split_and!; [| | |done].
      * intros l [?|?]%elem_of_app; apply elem_of_app; [left; by apply H1|right; by apply IH1].
      * intros l [?|?]%elem_of_app ?; apply elem_of_app;
          [left; by apply H2|right; by apply IH2].
      * by apply Forall_app.
    + split_and!; [| |done|].
      * intros l ?. apply elem_of_app. right. by apply IH1.
      * intros l [?|?]%elem_of_app ?; [by destruct (Hnone eq_refl l)|by apply IH2].
      * intros Hnil l [?|?]%elem_of_app; [by apply Hnone|by apply IH4].
Qed.

(** What the filter does to one node. *)
Lemma filterNode_spec query node :
  (∀ node', filterNode (toLowerCase query) node = Some node' →
     (∀ l, l ∈ nodeLayers node' → l ∈ nodeLayers node) ∧
     (∀ l, l ∈ nodeLayers node → nameMatches query l → l ∈ nodeLayers node') ∧
     Forall (keptFor query) (subnodes node')) ∧
  (filterNode (toLowerCase query) node = None →
     ∀ l, l ∈ nodeLayers node → ¬ nameMatches query l).
Proof.
  induction node as [l children expanded IH] using LayerTreeNode_ind.
  pose proof (filter_children query children IH) as Hch. cbv zeta in Hch.
  simpl filterNode.
  set (kept := omap (filterNode (toLowerCase query)) children) in *.
  destruct Hch as (H1 & H2 & H3 & H4).
  destruct (includes (toLowerCase (name l)) (toLowerCase query)) eqn:Hm; simpl.
  - split; [|done]. intros node' [= <-]. split_and!.
    + simpl. intros l' [->|?]%elem_of_cons; [by left|right; by apply H1].
    + simpl. intros l' [->|?]%elem_of_cons ?; [by left|right; by apply H2].
    + simpl. apply Forall_cons. split; [|done]. split_and!; [by left|done|].
      exists l. split; [by left|done].
  - destruct kept as [|c kept'] eqn:Hkept; simpl.
    + split; [done|]. intros _ l' [->|?]%elem_of_cons.
      * unfold nameMatches. by rewrite Hm.
      * by apply H4.
    + split; [|done]. intros node' [= <-]. split_and!.
      * simpl. intros l' [->|?]%elem_of_cons; [by left|right; by apply H1].
      * simpl. intros l' [->|?]%elem_of_cons ?; [by left|right; by apply H2].
      * simpl. apply Forall_cons. split; [|done]. split_and!; [by right|done|].
        assert (keptFor query c) as Hc.
        { rewrite Forall_forall in H3. apply H3. simpl. apply elem_of_app. left.
          apply subnodes_self. }
        assert (∃ l', l' ∈ nodeLayers c ∧ nameMatches query l')
          as (l' & Hl' & Hmatch) by (destruct c; apply Hc).
        exists l'. split; [|done].
        change (l' ∈ l :: (nodeLayers c ++ flat_map nodeLayers kept')%list).
        right. apply elem_of_app. by left.
Qed.

(** X25. A search with a query that is not empty keeps what matches and
    what leads to it: the layers of the result are layers of the tree;
    every layer of the tree whose name contains the query, letter case
    aside, is in the result; and every node of the result matches or has
    children, is expanded exactly when it has children, and has a
    matching layer at or below it. *)
Theorem filterTree_spec nodes query :
  query ≠ EmptyString →
  let result := filterTree nodes query in
  (∀ l, l ∈ flat_map nodeLayers result → l ∈ flat_map nodeLayers nodes) ∧
  (∀ l, l ∈ flat_map nodeLayers nodes → nameMatches query l →
     l ∈ flat_map nodeLayers result) ∧
  Forall (keptFor query) (flat_map subnodes result).
Proof.
  intros Hne. unfold filterTree. rewrite bool_decide_eq_false_2 by done.
  assert (Forall (λ n,
            (∀ n', filterNode (toLowerCase query) n = Some n' →
               (∀ l, l ∈ nodeLayers n' → l ∈ nodeLayers n) ∧
               (∀ l, l ∈ nodeLayers n → nameMatches query l → l ∈ nodeLayers n') ∧
               Forall (keptFor query) (subnodes n')) ∧
            (filterNode (toLowerCase query) n = None →
               ∀ l, l ∈ nodeLayers n → ¬ nameMatches query l)) nodes) as Hall.
  { apply Forall_forall. intros n _. apply filterNode_spec. }
  destruct (filter_children query nodes Hall) as (H1 & H2 & H3 & _). done.
Qed.

(** A search for ["ok"] in [Samples.homeTree] keeps the folder ["Home"]
    with its layer ["OK Button"] only. *)
Lemma filterTree_ok :
  filterTree Samples.homeTree "ok"
  = [mkNode (Samples.namedLayer 1 "Home" group)
       [mkNode (Samples.namedLayer 2 "OK Button" layer) [] false] true] ∧
  Samples.namedLayer 2 "OK Button" layer
    ∈ flat_map nodeLayers (filterTree Samples.homeTree "ok").
Proof.
  split; [by vm_compute|].
  destruct (filterTree_spec Samples.homeTree "ok") as (_ & H & _); [done|].
  apply H; [|by vm_compute]. simpl. apply list_elem_of_In. simpl. tauto.
Defined.

End FilterFacts.

(** ** chat-store: the protocol of a message *)

Module ConversationFacts.
Import Js ChatStore Conversation.

Lemma setLastContent_snoc content0 msgs m :
  setLastContent content0 (msgs ++ [m])
  = (msgs ++ [{| role := role m; content := content0; apiContent := apiContent m |}])%list.
Proof.
  unfold setLastContent. rewrite length_app. simpl.
  replace (length msgs + 1 - 1)%nat with (length msgs) by lia.
  rewrite list_lookup_middle by done.
  replace (length msgs) with (length msgs + 0)%nat at 1 by lia.
  by rewrite insert_app_r.
Qed.

(** Streaming rewrites the content of the last message only. *)
Lemma stream_partials partials st msgs m :
  messages st = (msgs ++ [m])%list →
  let st' := foldl (λ st partialText,
                      withMessages (setLastContent partialText (messages st)) st)
                   st partials in
  ∃ content0,
    st' = withMessages (msgs ++ [{| role := role m; content := content0;
                                    apiContent := apiContent m |}])%list st.
Proof.
  revert st m. induction partials as [|p partials IH]; intros st m Hm; simpl.
  - exists (content m). destruct st, m. simpl in *. by subst.
  - rewrite Hm, setLastContent_snoc.
    set (m' := {| role := role m; content := p; apiContent := apiContent m |}).
    destruct (IH (withMessages (msgs ++ [m']) st) m' eq_refl) as (c & ->).
    by exists c.
Qed.

(** X26. The protocol of [sendUserMessage], run without interference:
    without an API key or while a message is being sent it does nothing;
    otherwise it sends the history (for each earlier message its
    [apiContent] if it has one, else its content) followed by the new
    text, with the stored system context, and when the call settles the
    messages are the earlier ones followed by the user's text and one
    assistant message, which holds the full text, or ["Error: "] and the
    message of the error, whatever was streamed meanwhile; [sending] is
    false again. A full text replaces the suggested reply by the one it
    carries (by none if it carries none) and the config by the one it
    carries, if any; an error leaves both, and the system context, as
    they were. *)
Theorem sendUserMessage_protocol JSON_parse text outcome state :
  let result := sendUserMessage JSON_parse text outcome state in
  let state' := result.1 in
  if bool_decide (apiKey state = EmptyString) || sending state
  then result = (state, None)
  else
    sending state' = false ∧ apiKey state' = apiKey state ∧
    layerJson state' = layerJson state ∧
    result.2 =
      Some {| requestKey := apiKey state;
              apiMessages :=
                (((λ m, (role m, orElse (apiContent m) (content m))) <$> messages state)
                   ++ [(user, text)])%list;
              system := systemContext state |} ∧
    match outcome with
    | resolved _ fullText =>
      messages state' =
        (messages state ++ [mkMessage user text None;
                            mkMessage assistant fullText None])%list ∧
      interactionConfig state'
        = receiveResponse JSON_parse (interactionConfig state) fullText ∧
      suggestedReply state' = extractSuggestedReply fullText ∧
      systemContext state' =
        match parseInteractionConfig JSON_parse fullText, truthy (layerJson state) with
        | Some config, Some stored => Some (buildSystemContext stored (Some config))
        | _, _ => systemContext state
        end
    | rejected _ message =>
      messages state' =
        (messages state
           ++ [mkMessage user text None;
               mkMessage assistant ("Error: " +:+ default "Unknown error" message)
                 None])%list ∧
      interactionConfig state' = interactionConfig state ∧
      suggestedReply state' = suggestedReply state ∧
      systemContext state' = systemContext state
    end.
Proof.
  cbv zeta. unfold sendUserMessage.
  destruct (bool_decide (apiKey state = EmptyString) || sending state); [done|].
  cbv zeta.
  set (st2 := withMessages _ (withSending true _)).
  assert (messages st2
          = ((messages state ++ [mkMessage user text None])
               ++ [mkMessage assistant EmptyString None])%list) as Hm2 by done.
  set (partials := match outcome with resolved ps _ => ps | rejected ps _ => ps end).
  destruct (stream_partials partials st2 _ _ Hm2) as (c & Hst3). cbv zeta in Hst3.
  rewrite Hst3. clear Hst3.
  assert (((λ m, (role m, orElse (apiContent m) (content m)))
             <$> (messages state ++ [mkMessage user text None]))%list
          = (((λ m, (role m, orElse (apiContent m) (content m))) <$> messages state)
               ++ [(user, text)])%list) as Hapi by (by rewrite fmap_app).
  destruct outcome as [ps fullText|ps message].
  - cbn [messages withMessages withSending fst snd sending apiKey layerJson
         interactionConfig suggestedReply systemContext].
    rewrite setLastContent_snoc, <- app_assoc.
    change (layerJson st2) with (layerJson state).
    change (systemContext st2) with (systemContext state).
    split_and!; try done; try (by rewrite <- Hapi).
    by destruct (parseInteractionConfig JSON_parse fullText), (truthy (layerJson state)).
  - cbn [messages withMessages withSending fst snd sending apiKey layerJson
         interactionConfig suggestedReply systemContext].
    rewrite removelast_last, <- app_assoc.
    split_and!; try done; by rewrite <- Hapi.
Qed.

End ConversationFacts.

(** ** claude-client: the streamed text grows *)

Module StreamFacts.
Import Js ChatStore ClaudeClient.

Lemma append_assoc (a b c : string) : (a +:+ b) +:+ c = a +:+ (b +:+ c).
Proof.
  induction a as [|x a IH]; [done|].
  change (String x ((a +:+ b) +:+ c) = String x (a +:+ (b +:+ c))). by f_equal.
Qed.

Lemma append_empty_r (a : string) : a +:+ EmptyString = a.
Proof.
  induction a as [|x a IH]; [done|].
  change (String x (a +:+ EmptyString) = String x a). by f_equal.
Qed.

Lemma chain_snoc a l x y :
  chain a l → last (a :: l) = Some x → extends x y → chain a (l ++ [y]).
Proof.
  induction 1 as [a|a b l Hab Hl IH]; intros Hlast Hxy.
  - simpl in Hlast. simplify_eq. simpl. by repeat constructor.
  - simpl. constructor; [done|]. apply IH; [|done]. by destruct l.
Qed.

(** Every text of a chain begins with the text the chain starts from,
    and the last text begins with every text of the chain. *)
Lemma chain_prefix a l x :
  chain a l → last (a :: l) = Some x →
  (∃ d, x = a +:+ d) ∧ ∀ b, b ∈ l → b ≠ EmptyString ∧ ∃ d, x = b +:+ d.
Proof.
  induction 1 as [a|a b l (d & Hd & ->) Hl IH]; intros Hlast.
  - simpl in Hlast. simplify_eq. split; [|by intros b ?%elem_of_nil].
    exists EmptyString. by rewrite append_empty_r.
  - destruct IH as [(d' & ->) Hin]; [by destruct l|]. split.
    + exists (d +:+ d'). by rewrite append_assoc.
    + intros b [->|Hb]%elem_of_cons; [|by apply Hin]. split; [|by exists d'].
      destruct a, d; done.
Qed.

Lemma deltaOf_append parsed text : deltaOf parsed = append text → text ≠ EmptyString.
Proof.
  unfold deltaOf. intros H ->.
  repeat (case_match; simplify_eq).
Qed.

Lemma readLine_chain JSON_parse fullText calls line fullText' calls' :
  readLine JSON_parse (Some (fullText, calls)) line = Some (fullText', calls') →
  chain EmptyString calls → last (EmptyString :: calls) = Some fullText →
  chain EmptyString calls' ∧ last (EmptyString :: calls') = Some fullText'.
Proof.
  unfold readLine. intros H Hchain Hlast.
  destruct (String.prefix "data: " line); [|by simplify_eq].
  case_bool_decide; [by simplify_eq|].
  destruct (JSON_parse _) as [parsed|]; [|by simplify_eq].
  destruct (deltaOf parsed) as [|text|] eqn:Hd;
    [destruct parsed; by simplify_eq| |by destruct parsed].
  assert (fullText' = fullText +:+ text ∧ calls' = (calls ++ [fullText +:+ text])%list)
    as [-> ->] by (destruct parsed; by simplify_eq).
  split.
  - eapply chain_snoc; [done..|]. exists text. split; [|done].
    by eapply deltaOf_append.
  - change (EmptyString :: calls ++ [fullText +:+ text])%list
      with ((EmptyString :: calls) ++ [fullText +:+ text])%list.
    by rewrite last_snoc.
Qed.

Lemma foldl_readLine_None JSON_parse lines : foldl (readLine JSON_parse) None lines = None.
Proof. by induction lines. Qed.

Lemma readChunk_chain JSON_parse fullText calls chunk fullText' calls' :
  readChunk JSON_parse (Some (fullText, calls)) chunk = Some (fullText', calls') →
  chain EmptyString calls → last (EmptyString :: calls) = Some fullText →
  chain EmptyString calls' ∧ last (EmptyString :: calls') = Some fullText'.
Proof.
  unfold readChunk. generalize (splitLines chunk). intros lines.
  revert fullText calls.
  induction lines as [|line lines IH]; intros fullText calls; cbn [foldl].
  - by intros [= <- <-].
  - destruct (readLine JSON_parse (Some (fullText, calls)) line) as [[ft cs]|] eqn:E.
    + intros H Hchain Hlast.
      destruct (readLine_chain _ _ _ _ _ _ E Hchain Hlast) as [? ?]. by eapply IH.
    + by rewrite foldl_readLine_None.
Qed.

Lemma foldl_readChunk_None JSON_parse chunks :
  foldl (readChunk JSON_parse) None chunks = None.
Proof.
  induction chunks as [|chunk chunks IH]; [done|]. simpl.
  unfold readChunk at 2. by rewrite foldl_readLine_None.
Qed.

(** X27. The streaming branch of [sendMessage] hands [onChunk] a growing
    text: the texts it is called with start after the empty text and
    each extends the one before by something that is not empty, so none
    of them is empty and each is a prefix of the text that [sendMessage]
    returns, which is the last of them (and the empty text when
    [onChunk] was never called). *)
Theorem readStream_grows JSON_parse chunks fullText calls :
  readStream JSON_parse chunks = Some (fullText, calls) →
  chain EmptyString calls ∧
  last (EmptyString :: calls) = Some fullText ∧
  ∀ partialText, partialText ∈ calls →
    partialText ≠ EmptyString ∧ ∃ rest, fullText = partialText +:+ rest.
Proof.
  unfold readStream.
  assert (∀ ft cs, foldl (readChunk JSON_parse) (Some (ft, cs)) chunks
                   = Some (fullText, calls) →
            chain EmptyString cs → last (EmptyString :: cs) = Some ft →
            chain EmptyString calls ∧ last (EmptyString :: calls) = Some fullText)
    as Hinv.
  { induction chunks as [|chunk chunks IH]; intros ft cs; cbn [foldl].
    - by intros [= <- <-].
    - destruct (readChunk JSON_parse (Some (ft, cs)) chunk) as [[ft' cs']|] eqn:E.
      + intros H Hchain Hlast.
        destruct (readChunk_chain _ _ _ _ _ _ E Hchain Hlast) as [? ?]. by eapply IH.
      + by rewrite foldl_readChunk_None. }
  intros H. destruct (Hinv _ _ H) as [Hchain Hlast]; [constructor|done|].
  split_and!; [done..|].
  by destruct (chain_prefix EmptyString calls fullText Hchain Hlast) as [_ ?].
Qed.

(** The stream [Samples.helloStream], read with the JSON reader, calls
    [onChunk] with ["Hel"] and ["Hello"] and returns ["Hello"]. *)
Lemma readStream_hello :
  readStream jsonParse Samples.helloStream = Some ("Hello", ["Hel"; "Hello"]) ∧
  chain EmptyString ["Hel"; "Hello"].
Proof.
  assert (readStream jsonParse Samples.helloStream = Some ("Hello", ["Hel"; "Hello"]))
    as H by (by vm_compute).
  split; [done|]. by destruct (readStream_grows jsonParse _ _ _ H) as (? & _).
Defined.

End StreamFacts.

(** ** qt-renderer: parsers and handles *)

Module RendererFacts.
Import QtRenderer.

Lemma releaseParser_difference handle parsers0 :
  (1 ≤ handle < 16)%nat → releaseParser handle parsers0 = parsers0 ∖ {[handle]}.
Proof.
  intros Hrange. unfold releaseParser. case_bool_decide as H; [done|].
  assert (handle ∉ parsers0) as Hout by (intros ?; apply H; split_and!; [lia..|done]).
  apply set_eq. intros h. rewrite elem_of_difference, not_elem_of_singleton.
  split; [|tauto]. intros Hh. split; [done|]. by intros ->.
Qed.

Lemma findFreeHandle_Some parsers0 handle :
  findFreeHandle parsers0 = Some handle →
  (handle ∉ parsers0) ∧ (1 ≤ handle < 16)%nat.
Proof.
  unfold findFreeHandle. destruct (list_find _ _) as [[i h]|] eqn:E; [|done].
  intros [= <-]. apply list_find_Some in E as (Hi & ? & _). split; [done|].
  apply lookup_seq in Hi as [-> ?]. lia.
Qed.

Lemma findFreeHandle_None parsers0 handle :
  findFreeHandle parsers0 = None → (1 ≤ handle < 16)%nat → handle ∈ parsers0.
Proof.
  unfold findFreeHandle. destruct (list_find _ _) as [[i h]|] eqn:E; [done|].
  intros _ Hrange. apply list_find_None in E. rewrite Forall_forall in E.
  destruct (decide (handle ∈ parsers0)) as [|Hout]; [done|].
  destruct (E handle); [|done]. apply elem_of_seq. lia.
Qed.

Lemma initialize_agree starts r r' :
  initialize starts r = Some r' → agree r →
  agree r' ∧ moduleLoaded r' = true ∧ parsers r' = parsers r ∧
  parserHandles r' = parserHandles r ∧ psdDataCache r' = psdDataCache r.
Proof.
  unfold initialize. destruct (moduleLoaded r) eqn:Hm.
  - intros [= <-] ?. by split_and!.
  - destruct starts; [|done]. intros [= <-] (H1 & H2 & H3 & H4). simpl.
    split_and!; done.
Qed.

Lemma releaseExisting_agree file r :
  agree r →
  let r' := releaseExisting file r in
  agree r' ∧ parserHandles r' = delete file (parserHandles r) ∧
  moduleLoaded r' = moduleLoaded r ∧ psdDataCache r' = psdDataCache r.
Proof.
  intros (H1 & H2 & H3 & H4). unfold releaseExisting.
  destruct (parserHandles r !! file) as [h|] eqn:Hf; cbv zeta; simpl.
  - assert (h ∈ parsers r) as Hin by (apply H1; eauto).
    rewrite releaseParser_difference by (by apply H3).
    split; [|done]. unfold agree. simpl. split_and!.
    + intros h'. rewrite elem_of_difference, not_elem_of_singleton, H1. split.
      * intros [(f & Hf') Hne]. exists f. rewrite lookup_delete_ne; [done|].
        intros <-. congruence.
      * intros (f & Hf'%lookup_delete_Some). destruct Hf' as [Hne Hf'].
        split; [eauto|]. intros ->. by destruct Hne; eapply H2.
    + intros f1 f2 h' [_ ?]%lookup_delete_Some [_ ?]%lookup_delete_Some. by eapply H2.
    + intros h' [? _]%elem_of_difference. by apply H3.
    + intros Hm. rewrite (H4 Hm). by rewrite delete_empty.
  - split_and!; [by unfold agree| |done..]. by rewrite delete_id.
Qed.

(** What [parsePsd] of the renderer does to the table. *)
Lemma parsePsd_agree file starts loads r :
  agree r →
  let result := parsePsd file starts loads r in
  agree result.1 ∧
  (∀ handle, result.2 = Some handle →
     handle ∈ parsers result.1 ∧ parserHandles result.1 !! file = Some handle) ∧
  (result.2 = None → (moduleLoaded r = true ∨ starts = true) →
   file ∈ psdDataCache r → loads = true →
   ∀ handle, (1 ≤ handle < 16)%nat →
     ∃ other, other ≠ file ∧ parserHandles r !! other = Some handle).
Proof.
  intros Hr. unfold parsePsd.
  destruct (initialize starts r) as [r1|] eqn:Hinit; cbv zeta; last first.
  { split_and!; [done..|]. intros _ Hm. unfold initialize in Hinit.
    destruct (moduleLoaded r), starts, Hm; done. }
  destruct (initialize_agree _ _ _ Hinit Hr) as (Hr1 & Hm1 & Hp1 & Hh1 & Hc1).
  rewrite Hc1. case_bool_decide as Hcached; [|by split_and!].
  destruct (releaseExisting_agree file r1 Hr1) as (Hr2 & Hh2 & Hm2 & Hc2).
  cbv zeta in Hr2, Hh2, Hm2, Hc2. set (r2 := releaseExisting file r1) in *.
  unfold nativeParsePsd. destruct loads.
  - destruct (findFreeHandle (parsers r2)) as [h|] eqn:Hfree; simpl.
    + apply findFreeHandle_Some in Hfree as [Hout Hrange].
      destruct Hr2 as (H1 & H2 & H3 & H4).
      assert (∀ f, parserHandles r2 !! f ≠ Some h) as Hfresh.
      { intros f Hf. apply Hout, H1. eauto. }
      split_and!; [unfold agree; simpl; split_and!| |done].
      * intros h'. rewrite elem_of_union, elem_of_singleton, H1. split.
        -- intros [(f & Hf) | ->].
           ++ exists f. rewrite lookup_insert_ne; [done|]. intros <-.
              rewrite Hh2, lookup_delete_eq in Hf. done.
           ++ exists file. by rewrite lookup_insert_eq.
        -- intros (f & [[_ <-]|[_ Hf]]%lookup_insert_Some); [by right|left; eauto].
      * intros f1 f2 h' [[<- <-]|[Hn1 Hf1]]%lookup_insert_Some
                        [[<- Heq]|[Hn2 Hf2]]%lookup_insert_Some; try done.
        -- subst. by destruct (Hfresh f2).
        -- subst. by destruct (Hfresh f1).
        -- by eapply H2.
      * intros h' [?|Heq%elem_of_singleton]%elem_of_union; [by apply H3|by subst].
      * rewrite Hm2, Hm1. done.
      * intros h' [= <-]. split; [|by rewrite lookup_insert_eq].
        apply elem_of_union. right. by apply elem_of_singleton.
    + split_and!; [done..|]. intros _ _ _ _ h Hrange.
      pose proof (findFreeHandle_None _ h Hfree Hrange) as Hin.
      destruct Hr2 as (H1 & _). apply H1 in Hin as (f & Hf).
      rewrite Hh2, Hh1 in Hf. apply lookup_delete_Some in Hf as [Hne Hf]. eauto.
  - simpl. by split_and!.
Qed.

Lemma agree_fields r r' :
  moduleLoaded r' = moduleLoaded r → parsers r' = parsers r →
  parserHandles r' = parserHandles r → agree r → agree r'.
Proof. unfold agree. by intros -> -> ->. Qed.

Lemma cachePsdData_agree file r : agree r → agree (cachePsdData file r).
Proof.
  intros Hr. unfold cachePsdData. destruct (moduleLoaded r) eqn:Hm; cbv zeta.
  - destruct (releaseExisting_agree file r Hr) as (Hr' & _). revert Hr'.
    by apply agree_fields.
  - revert Hr. by apply agree_fields.
Qed.

Lemma handleFor_agree file starts loads r :
  agree r →
  let result := handleFor file starts loads r in
  agree result.1 ∧
  ∀ handle, result.2 = Some handle →
    handle ∈ parsers result.1 ∧ parserHandles result.1 !! file = Some handle.
Proof.
  intros Hr. unfold handleFor.
  destruct (initialize starts r) as [r1|] eqn:Hinit; cbv zeta; [|by split].
  destruct (initialize_agree _ _ _ Hinit Hr) as (Hr1 & _).
  destruct (parserHandles r1 !! file) as [h|] eqn:Hf.
  - split; [done|]. intros h' [= <-]. split; [|done]. apply Hr1. eauto.
  - destruct (parsePsd_agree file starts loads r1 Hr1) as (? & ? & _). by split.
Qed.

Lemma release_agree file r : agree r → agree (release file r).
Proof.
  intros Hr. unfold release. destruct (moduleLoaded r) eqn:Hm; [|done]. cbv zeta.
  destruct (releaseExisting_agree file r Hr) as (Hr' & _). revert Hr'.
  by apply agree_fields.
Qed.

Lemma foldl_releaseParser handles parsers0 :
  Forall (λ handle, (1 ≤ handle < 16)%nat) handles →
  foldl (λ ps handle, releaseParser handle ps) parsers0 handles
  = parsers0 ∖ list_to_set handles.
Proof.
  intros Hall. revert parsers0.
  induction Hall as [|handle handles Hrange _ IH]; intros parsers0.
  - apply set_eq. intros h.
    rewrite elem_of_difference, elem_of_list_to_set, elem_of_nil. tauto.
  - cbn [foldl]. rewrite IH, releaseParser_difference by done.
    apply set_eq. intros h.
    rewrite !elem_of_difference, !elem_of_list_to_set, elem_of_cons,
      elem_of_singleton. tauto.
Qed.

(** Under [agree], the loop of [invalidateForFonts] empties the table. *)
Lemma invalidateForFonts_parsers r :
  agree r →
  foldl (λ ps handle, releaseParser handle ps) (parsers r)
    (map_to_list (parserHandles r)).*2 = ∅.
Proof.
  intros (H1 & _ & H3 & _). rewrite foldl_releaseParser.
  - apply set_eq. intros h.
    rewrite elem_of_difference, elem_of_list_to_set, elem_of_empty.
    split; [|done]. intros [Hin Hout]. apply Hout.
    apply H1 in Hin as (f & Hf). apply list_elem_of_fmap. exists (f, h).
    split; [done|]. by apply elem_of_map_to_list.
  - apply Forall_forall. intros h ([f h'] & -> & Hf%elem_of_map_to_list)%list_elem_of_fmap.
    apply H3, H1. eauto.
Qed.

Lemma invalidateForFonts_agree r : agree r → agree (invalidateForFonts r).
Proof.
  intros Hr. unfold invalidateForFonts. destruct (moduleLoaded r) eqn:Hm; [|done].
  rewrite invalidateForFonts_parsers by done. unfold agree. simpl. split_and!.
  - intros h. rewrite elem_of_empty. split; [done|]. by intros (f & Hf).
  - by intros f1 f2 h Hf.
  - by intros h Hin%elem_of_empty.
  - done.
Qed.

Lemma perform_agree r c : agree r → agree (perform r c).
Proof.
  intros Hr. destruct c as [file|file starts loads|file starts loads|file|]; simpl.
  - by apply cachePsdData_agree.
  - by destruct (parsePsd_agree file starts loads r Hr) as (? & _).
  - by destruct (handleFor_agree file starts loads r Hr) as (? & _).
  - by apply release_agree.
  - by apply invalidateForFonts_agree.
Qed.

Lemma initialRenderer_agree : agree initialRenderer.
Proof.
  unfold agree. simpl. split_and!.
  - intros h. rewrite elem_of_empty. split; [done|]. by intros (f & Hf).
  - by intros f1 f2 h Hf.
  - by intros h Hin%elem_of_empty.
  - done.
Qed.

Lemma performAll_agree calls : agree (performAll calls).
Proof.
  unfold performAll. induction calls as [|c calls IH] using rev_ind.
  - apply initialRenderer_agree.
  - rewrite foldl_app. cbn [foldl]. by apply perform_agree.
Qed.

(** Handles that cover a set of slots are at least as many as the slots. *)
Lemma covered_size (handles : gmap string nat) (slots : gset nat) :
  (∀ handle, handle ∈ slots → ∃ file, handles !! file = Some handle) →
  (size slots ≤ size handles)%nat.
Proof.
  revert slots. induction handles as [|file h handles Hfile IH] using map_ind;
    intros slots Hcover.
  - rewrite map_size_empty. apply Nat.le_0_r, size_empty_iff, elem_of_equiv_empty.
    intros h Hin. by destruct (Hcover h Hin) as (f & ?).
  - rewrite map_size_insert_None by done.
    assert (size (slots ∖ {[h]}) ≤ size handles)%nat as Hle.
    { apply IH. intros h' [Hin Hne%not_elem_of_singleton]%elem_of_difference.
      destruct (Hcover h' Hin) as (f & [[_ ?]|[_ ?]]%lookup_insert_Some); [done|eauto]. }
    assert (size slots ≤ size (slots ∖ {[h]}) + 1)%nat; [|lia].
    rewrite <- (size_singleton (C := gset nat) h), <- size_union
      by (intros ? [_ ?]%elem_of_difference ?; done).
    apply subseteq_size. intros h' Hin. apply elem_of_union.
    destruct (decide (h' = h)) as [->|]; [right; by apply elem_of_singleton|left].
    apply elem_of_difference. by rewrite not_elem_of_singleton.
Qed.

(** Handles of distinct files, all among the slots, are at most as many
    as the slots. *)
Lemma distinct_size (handles : gmap string nat) (slots : gset nat) :
  (∀ file handle, handles !! file = Some handle → handle ∈ slots) →
  (∀ file1 file2 handle,
     handles !! file1 = Some handle → handles !! file2 = Some handle → file1 = file2) →
  (size handles ≤ size slots)%nat.
Proof.
  revert slots. induction handles as [|file h handles Hfile IH] using map_ind;
    intros slots Hin Hinj.
  - rewrite map_size_empty. lia.
  - rewrite map_size_insert_None by done.
    assert (h ∈ slots) as Hh by (apply (Hin file); by rewrite lookup_insert_eq).
    assert (size handles ≤ size (slots ∖ {[h]}))%nat as Hle.
    { apply IH.
      - intros f h' Hf. assert (f ≠ file) as Hne by congruence.
        apply elem_of_difference. split.
        + apply (Hin f). by rewrite lookup_insert_ne.
        + rewrite not_elem_of_singleton. intros ->. apply Hne.
          apply (Hinj f file h); [by rewrite lookup_insert_ne|by rewrite lookup_insert_eq].
      - intros f1 f2 h' Hf1 Hf2.
        assert (f1 ≠ file) by congruence. assert (f2 ≠ file) by congruence.
        apply (Hinj f1 f2 h'); by rewrite lookup_insert_ne. }
    rewrite size_difference in Hle by (by apply singleton_subseteq_l).
    rewrite size_singleton in Hle.
    assert (size slots ≠ 0)%nat; [|lia].
    intros Hz%size_empty_iff. by apply (proj1 (elem_of_equiv_empty _) Hz h).
Qed.

(** With the module at hand, the data cached and loadable, [parsePsd]
    returns what [findFreeHandle] finds in a table whose taken slots are
    the handles of the other files. *)
Lemma parsePsd_findFreeHandle file starts r :
  agree r → (moduleLoaded r = true ∨ starts = true) → file ∈ psdDataCache r →
  ∃ parsers0,
    (∀ handle, handle ∈ parsers0 ↔
       ∃ other, delete file (parserHandles r) !! other = Some handle) ∧
    (parsePsd file starts true r).2 = findFreeHandle parsers0.
Proof.
  intros Hr Hm Hcached. unfold parsePsd.
  destruct (initialize starts r) as [r1|] eqn:Hinit; cbv zeta; last first.
  { unfold initialize in Hinit. destruct (moduleLoaded r), starts, Hm; done. }
  destruct (initialize_agree _ _ _ Hinit Hr) as (Hr1 & _ & _ & Hh1 & Hc1).
  rewrite Hc1. rewrite bool_decide_eq_true_2 by done.
  destruct (releaseExisting_agree file r1 Hr1) as ((H1 & _) & Hh2 & _).
  cbv zeta in H1, Hh2. exists (parsers (releaseExisting file r1)). split.
  - intros h. by rewrite H1, Hh2, Hh1.
  - unfold nativeParsePsd. by destruct (findFreeHandle _).
Qed.

(** X28: whatever calls were made before, one after another, the table of
    the module and the handles the renderer records agree, and the handle
    that a render passes to the module is a slot between 1 and 15 that
    holds a parser, recorded for that file and for no other. *)
Theorem handles_agree calls file starts loads :
  let r := performAll calls in
  let result := handleFor file starts loads r in
  agree r ∧
  ∀ handle, result.2 = Some handle →
    (1 ≤ handle < 16)%nat ∧ handle ∈ parsers result.1 ∧
    parserHandles result.1 !! file = Some handle ∧
    ∀ other, parserHandles result.1 !! other = Some handle → other = file.
Proof.
  intros r result. pose proof (performAll_agree calls) as Hr. split; [done|].
  destruct (handleFor_agree file starts loads r Hr) as ((_ & H2 & H3 & _) & Hhandle).
  intros handle Hres. destruct (Hhandle handle Hres) as [Hin Hfile].
  split; [by apply H3|]. do 2 (split; [done|]). intros other Hother. by eapply H2.
Qed.

(** X29: whatever calls were made before, one after another, a parse of
    a file whose data are cached and load, with the module at hand,
    returns a handle exactly when fewer than 15 other files have one. *)
Theorem parsePsd_capacity calls file starts :
  let r := performAll calls in
  (moduleLoaded r = true ∨ starts = true) → file ∈ psdDataCache r →
  is_Some (parsePsd file starts true r).2 ↔
  (size (delete file (parserHandles r)) < 15)%nat.
Proof.
  intros r Hm Hcached. pose proof (performAll_agree calls) as Hr. fold r in Hr.
  destruct (parsePsd_findFreeHandle file starts r Hr Hm Hcached) as (ps & Hps & ->).
  destruct Hr as (H1 & H2 & H3 & _). split.
  - intros [h [Hout Hrange]%findFreeHandle_Some].
    assert (size (delete file (parserHandles r))
            ≤ size (set_seq (C := gset nat) 1 15 ∖ {[h]}))%nat as Hle.
    { apply distinct_size.
      - intros f h' Hf. apply elem_of_difference. split.
        + apply lookup_delete_Some in Hf as [_ Hf]. apply elem_of_set_seq.
          assert (1 ≤ h' < 16)%nat by (apply H3, H1; eauto). lia.
        + rewrite not_elem_of_singleton. intros ->. apply Hout, Hps. eauto.
      - intros f1 f2 h' [_ ?]%lookup_delete_Some [_ ?]%lookup_delete_Some.
        by eapply H2. }
    rewrite size_difference, size_set_seq, size_singleton in Hle; [lia|].
    apply singleton_subseteq_l, elem_of_set_seq. lia.
  - intros Hsize. destruct (findFreeHandle ps) as [h|] eqn:Hfree; [by eexists|].
    assert (size (set_seq (C := gset nat) 1 15)
            ≤ size (delete file (parserHandles r)))%nat as Hle.
    { apply covered_size. intros h [? ?]%elem_of_set_seq. apply Hps.
      apply (findFreeHandle_None _ h Hfree). lia. }
    rewrite size_set_seq in Hle. lia.
Qed.

(** Two documents cached and the first one parsed: the second one gets a
    handle. *)
Lemma parsePsd_second_document :
  let calls := [callCachePsdData "main"; callCachePsdData "other";
                callParsePsd "main" true true] in
  is_Some (parsePsd "other" false true (performAll calls)).2.
Proof.
  intros calls. apply (parsePsd_capacity calls "other" false).
  - left. by vm_compute.
  - apply (bool_decide_unpack _). by vm_compute.
  - apply (bool_decide_unpack _). by vm_compute.
Defined.

(** X30: whatever calls were made before, one after another,
    [invalidateForFonts] leaves no parser in the module and no handle
    recorded, keeps the cached data, and the next render of a cached file
    whose data load parses it again, into slot 1. *)
Theorem invalidateForFonts_releases calls :
  let r := performAll calls in
  let r' := invalidateForFonts r in
  parsers r' = ∅ ∧ parserHandles r' = ∅ ∧ psdDataCache r' = psdDataCache r ∧
  ∀ file starts,
    (moduleLoaded r = true ∨ starts = true) → file ∈ psdDataCache r →
    (handleFor file starts true r').2 = Some 1%nat.
Proof.
  intros r r'. pose proof (performAll_agree calls) as Hr. fold r in Hr.
  assert (parsers r' = ∅ ∧ parserHandles r' = ∅ ∧ psdDataCache r' = psdDataCache r
          ∧ moduleLoaded r' = moduleLoaded r) as (Hp & Hh & Hc & Hm').
  { unfold r', invalidateForFonts. destruct (moduleLoaded r) eqn:Hm; simpl.
    - by rewrite invalidateForFonts_parsers.
    - destruct Hr as (H1 & _ & _ & H4). split_and!; [|by apply H4|done..].
      apply set_eq. intros h. rewrite H1, (H4 Hm), elem_of_empty.
      split; [|done]. by intros (f & Hf). }
  split_and!; [done..|]. intros file starts Hm Hcached.
  unfold handleFor. rewrite <- Hm' in Hm.
  destruct (initialize starts r') as [r1|] eqn:Hinit; last first.
  { unfold initialize in Hinit. destruct (moduleLoaded r'), starts, Hm; done. }
  assert (agree r') as Hr' by (by apply invalidateForFonts_agree).
  destruct (initialize_agree _ _ _ Hinit Hr') as (Hr1 & Hm1 & Hp1 & Hh1 & Hc1).
  rewrite Hh1, Hh, lookup_empty.
  destruct (parsePsd_findFreeHandle file starts r1 Hr1) as (ps & Hps & ->).
  - by left.
  - by rewrite Hc1, Hc.
  - assert (ps = ∅) as ->; [|done].
    apply set_eq. intros h. rewrite Hps, Hh1, Hh, delete_empty, elem_of_empty.
    split; [|done]. by intros (f & Hf).
Qed.

End RendererFacts.
